(** * MetaMask controllers: polling, composition and token bookkeeping

    A shallow embedding of the controllers found in
    [src/ComposableController.ts] (which holds ComposableController,
    GasFeeController and AssetsController), [src/TokenRatesController.ts],
    [src/util.ts] and the PreferencesController, followed by the properties
    established about them.

    JavaScript is single threaded: a method body runs without interruption
    up to its first [await].  Every asynchronous method is therefore split in
    the part that runs when it is called and the part that runs when the
    awaited promise settles; the promises in flight are kept in the world, and
    an event machine picks which one settles next.

    Three controllers have a second module.  [GasFee] is the
    GasFeeController with the fetch collaborator in its member, [GasFeeWritten]
    the one the constructor builds, which never stores it.  [Composable] is
    the composite over children that inherit [onComposed], [Composed] the
    one over children that may override it.  [TokenRates] takes
    [toChecksumAddress] to accept every key, [TokenRatesChecked] lets it
    refuse one. *)

From Stdlib Require Import ZArith Lia Ascii String.
From stdpp Require Import base option list strings pretty gmap.

Local Open Scope Z_scope.

(** ** JavaScript effects shared by the controllers *)
Module JS.

(** An error value, identified by its message. *)
Definition Error : Type := string.

(** How an evaluation ends: normally with a value, or by throwing.  For a
    promise: fulfilled with a value, or rejected. *)
Inductive Completion (A : Type) : Type :=
| Normal (a : A)
| Throw (e : Error).
Arguments Normal {A} a.
Arguments Throw {A} e.

(** What a call of an [async] function has done when it hands control
    back: it has run to its end, or it is suspended on an [await]. *)
Inductive Activation (A : Type) : Type :=
| Returned (c : Completion A)
| Suspended.
Arguments Returned {A} c.
Arguments Suspended {A}.

(** Code with effects on a world [W]. *)
Definition Eff (W A : Type) : Type := W -> W * Completion A.

Definition ret {W A} (a : A) : Eff W A := fun w => (w, Normal a).

(** [await p] for a promise that has settled as [settled]: its value, or
    its rejection thrown. *)
Definition await {W A} (settled : Completion A) : Eff W A := fun w => (w, settled).

Definition bind {W A B} (m : Eff W A) (k : A -> Eff W B) : Eff W B :=
  fun w =>
    match m w with
    | (w', Normal a) => k a w'
    | (w', Throw e) => (w', Throw e)
    end.

(** [try { body } catch (error) { handler }] *)
Definition try_catch {W A} (body : Eff W A) (handler : Error -> Eff W A)
  : Eff W A :=
  fun w =>
    match body w with
    | (w', Normal a) => (w', Normal a)
    | (w', Throw e) => handler e w'
    end.

(** [try { body } finally { return v }]: the [return] of the [finally]
    block replaces whatever completion the body had. *)
Definition finally_return {W A B} (body : Eff W B) (v : A) : Eff W A :=
  fun w => (fst (body w), Normal v).

(** util.ts, [safelyExecute], the part after [operation()] has settled:
    [try { return await operation() } catch (error) { }]. *)
Definition safelyExecute {W A} (operation : Eff W A) : Eff W (option A) :=
  try_catch (bind operation (fun a => ret (Some a))) (fun _ => ret None).

(** [array.forEach(callback)]: a callback that throws ends the loop. *)
Fixpoint forEach {W A : Type} (callback : A -> Eff W unit) (l : list A) : Eff W unit :=
  match l with
  | [] => ret tt
  | x :: l' => bind (callback x) (fun _ => forEach callback l')
  end.

(** The repeating timers of the host.  [armed] maps the handle of every
    timer that [setInterval] has armed and [clearInterval] has not yet
    cleared to its delay. *)
Record Timers : Type := mkTimers {
  armed : gmap nat Z;
  nextHandle : nat
}.

Definition noTimers : Timers := mkTimers ∅ 1.

Definition setInterval (delay : Z) (t : Timers) : nat * Timers :=
  (nextHandle t, mkTimers (<[nextHandle t := delay]> (armed t)) (S (nextHandle t))).

Definition clearInterval (handle : nat) (t : Timers) : Timers :=
  mkTimers (delete handle (armed t)) (nextHandle t).

End JS.

Import JS.

(** ** GasFeeController (src/ComposableController.ts, lines 83-341) *)
Module GasFee.

Record LegacyGasFee : Type := mkLegacyGasFee {
  gasPrice : string
}.

Module Legacy.
Record LegacyGasPriceEstimates : Type := mkLegacyGasPriceEstimates {
  low : LegacyGasFee;
  medium : LegacyGasFee;
  high : LegacyGasFee
}.
End Legacy.

Record Eip1559GasFee : Type := mkEip1559GasFee {
  minWaitTimeEstimate : Z;
  maxWaitTimeEstimate : Z;
  suggestedMaxPriorityFeePerGas : string;
  suggestedMaxFeePerGas : string;
  calculatedTotalMinFee : string
}.

Record GasFeeEstimates : Type := mkGasFeeEstimates {
  low : Eip1559GasFee;
  medium : Eip1559GasFee;
  high : Eip1559GasFee;
  estimatedNextBlockBaseFee : string;
  lastBlockBaseFee : string;
  lastBlockMinPriorityFee : string;
  lastBlockMaxPriorityFee : string
}.

(** [undefined] is [None]. *)
Record GasFeeState : Type := mkGasFeeState {
  legacyGasPriceEstimates : option Legacy.LegacyGasPriceEstimates;
  gasFeeEstimates : option GasFeeEstimates
}.

Definition defaultState : GasFeeState :=
  {| legacyGasPriceEstimates := None; gasFeeEstimates := None |}.

(** The [Mutex] of async-mutex, as far as the controller can see it. *)
Record Mutex : Type := mkMutex {
  isLocked : bool
}.

Definition newMutex : Mutex := mkMutex false.

(** The fields of a GasFeeController instance.  [intervalId] keeps the
    handle it was last given, also after that timer has been cleared. *)
Record GasFeeController : Type := mkGasFeeController {
  state : GasFeeState;
  mutex : Mutex;
  intervalId : option nat;
  intervalDelay : Z;
  pollCount : Z
}.

(** Which activation awaits a call of the fetch collaborator. *)
Inductive Awaiter : Type :=
| AwaitStart   (* getGasFeeEstimatesAndStartPolling, line 250 *)
| AwaitTick.   (* the timer callback of _poll, line 303 *)

(** The controller together with the host it runs in: the armed timers,
    the calls of [fetchGasEstimates] that have not settled yet (oldest
    first), the start calls whose refresh has returned and which wait for
    their turn to go on, each with what the refresh returned, the number of
    calls of [fetchGasEstimates] made so far, and what was written with
    [console.error]. *)
Record World : Type := mkWorld {
  ctrl : GasFeeController;
  timers : Timers;
  pending : list Awaiter;
  resuming : list (Completion (option GasFeeState));
  fetchCalls : nat;
  console : list Error
}.

Definition with_ctrl (f : GasFeeController -> GasFeeController) (w : World) : World :=
  mkWorld (f (ctrl w)) (timers w) (pending w) (resuming w) (fetchCalls w) (console w).

Definition set_state (s : GasFeeState) (c : GasFeeController) : GasFeeController :=
  mkGasFeeController s (mutex c) (intervalId c) (intervalDelay c) (pollCount c).

Definition set_intervalId (i : option nat) (c : GasFeeController) : GasFeeController :=
  mkGasFeeController (state c) (mutex c) i (intervalDelay c) (pollCount c).

Definition set_pollCount (n : Z) (c : GasFeeController) : GasFeeController :=
  mkGasFeeController (state c) (mutex c) (intervalId c) (intervalDelay c) n.

(** The constructor (lines 218-243): [state] is the partial state handed
    in, already spread over [defaultState]. *)
Definition new (interval : Z) (state0 : GasFeeState) : World :=
  {| ctrl := {| state := state0; mutex := newMutex; intervalId := None;
                intervalDelay := interval; pollCount := 0 |};
     timers := noTimers; pending := []; resuming := []; fetchCalls := 0; console := [] |}.

Definition console_error (e : Error) : Eff World unit :=
  fun w => (mkWorld (ctrl w) (timers w) (pending w) (resuming w) (fetchCalls w) (console w ++ [e]),
            Normal tt).

(** Modelled from the spec: BaseControllerV2.ts, which defines [update],
    is not under src/.  Section 4.2: the mutator receives a working copy of
    the current snapshot and may modify it or return a full replacement;
    an empty patch changes nothing.  The only mutator of this controller
    ignores its draft, so a mutator is given by what it returns:
    [Some s] is a full replacement, [None] ([undefined]) keeps the
    untouched draft. *)
Definition update (callback : GasFeeState -> option GasFeeState) : Eff World unit :=
  fun w =>
    let nextState := default (state (ctrl w)) (callback (state (ctrl w))) in
    (with_ctrl (set_state nextState) w, Normal tt).

(** [this.fetchGasEstimates()] (line 266) for an instance whose member
    holds the fetch collaborator that the constructor is handed as
    [fetchGasEstimates] (line 222): the call is made and the caller is
    suspended until the promise settles.  The constructor as written does
    not store it; [GasFeeWritten] has the controller as the source leaves
    it, whose runs are the runs of this machine in which every call fails
    at once. *)
Definition fetchGasEstimates (k : Awaiter) (w : World) : World :=
  mkWorld (ctrl w) (timers w) (pending w ++ [k]) (resuming w) (S (fetchCalls w)) (console w).

(** [_fetchGasFeeEstimateData] (lines 263-292) up to its [await]. *)
Definition _fetchGasFeeEstimateData (k : Awaiter) (w : World) : World :=
  fetchGasEstimates k w.

(** [_fetchGasFeeEstimateData] from the moment the awaited promise has
    settled with [settled]. *)
Definition _fetchGasFeeEstimateData_resume (settled : Completion GasFeeEstimates)
  : Eff World (option GasFeeState) :=
  fun w =>
    let '(w1, c) :=
      try_catch
        (bind (await settled) (fun estimates =>
           ret (Some {| legacyGasPriceEstimates := Some
                          {| Legacy.low := {| gasPrice := suggestedMaxFeePerGas (low estimates) |};
                             Legacy.medium := {| gasPrice := suggestedMaxFeePerGas (medium estimates) |};
                             Legacy.high := {| gasPrice := suggestedMaxFeePerGas (high estimates) |} |};
                        gasFeeEstimates := Some estimates |})))
        (fun error => bind (console_error error) (fun _ => ret None))
        w in
    let newEstimates := match c with Normal v => v | Throw _ => None end in
    finally_return (update (fun _ => newEstimates)) newEstimates w1.

(** [_poll] (lines 301-305). *)
Definition _poll (w : World) : World :=
  let '(handle, t) := setInterval (intervalDelay (ctrl w)) (timers w) in
  mkWorld (set_intervalId (Some handle) (ctrl w)) t (pending w) (resuming w) (fetchCalls w) (console w).

(** [_startPolling] (lines 294-299); it has no [await], so it runs to its
    end when called. *)
Definition _startPolling (w : World) : World :=
  let w1 := if decide (pollCount (ctrl w) = 0) then _poll w else w in
  with_ctrl (fun c => set_pollCount (pollCount c + 1) c) w1.

(** [getGasFeeEstimatesAndStartPolling] (lines 245-256) up to its
    [await]. *)
Definition getGasFeeEstimatesAndStartPolling (w : World)
  : World * Activation (option GasFeeState) :=
  if decide (pollCount (ctrl w) > 0) then
    let gasEstimates := state (ctrl w) in
    (_startPolling w, Returned (Normal (Some gasEstimates)))
  else
    (_fetchGasFeeEstimateData AwaitStart w, Suspended).

(** ... and from the moment the promise of [_fetchGasFeeEstimateData] has
    settled with [refreshed] and the call goes on after its [await]. *)
Definition getGasFeeEstimatesAndStartPolling_resume
    (refreshed : Completion (option GasFeeState)) : Eff World (option GasFeeState) :=
  bind (await refreshed) (fun gasEstimates w =>
    (_startPolling w, Normal gasEstimates)).

(** The timer callback of [_poll] (line 303), up to its [await] ... *)
Definition timerCallback (w : World) : World :=
  _fetchGasFeeEstimateData AwaitTick w.

(** ... and from there on. *)
Definition timerCallback_resume (settled : Completion GasFeeEstimates)
  : Eff World (option (option GasFeeState)) :=
  safelyExecute (_fetchGasFeeEstimateData_resume settled).

(** [resetState] (lines 325-327).  Modelled from the spec: the [state]
    accessor of BaseControllerV2.ts is not under src/; the assignment is
    taken to replace the snapshot, as section 4.3 has it ("reset state to
    its default snapshot"). *)
Definition resetState (w : World) : World :=
  with_ctrl (set_state defaultState) w.

(** [stopPolling] (lines 317-323). *)
Definition stopPolling (w : World) : World :=
  let w1 :=
    match intervalId (ctrl w) with
    | Some handle =>
        mkWorld (ctrl w) (clearInterval handle (timers w)) (pending w) (resuming w) (fetchCalls w) (console w)
    | None => w
    end in
  resetState (with_ctrl (set_pollCount 0) w1).

(** [disconnectPoller] (lines 310-315). *)
Definition disconnectPoller : Eff World unit :=
  fun w =>
    let w1 := with_ctrl (fun c => set_pollCount (pollCount c - 1) c) w in
    let w2 := if decide (pollCount (ctrl w1) = 0) then stopPolling w1 else w1 in
    (w2, Normal tt).

(** What can happen to a controller.  When a fetch settles,
    [_fetchGasFeeEstimateData] runs to its end; a start call that awaits it
    goes on in a later turn of the job queue, and other jobs may run in
    between. *)
Inductive Event : Type :=
| Start                       (* a caller invokes getGasFeeEstimatesAndStartPolling *)
| Stop                        (* a caller invokes disconnectPoller *)
| Tick (handle : nat)         (* the timer [handle] fires *)
| Settle (i : nat) (settled : Completion GasFeeEstimates)
                              (* the [i]-th fetch in flight settles *)
| Continue (j : nat).         (* the [j]-th start call that waits goes on *)

(** One event; [None] when the event cannot happen in [w] (the timer is
    not armed, there is no such fetch in flight, no such call waits). *)
Definition step (ev : Event) (w : World) : option World :=
  match ev with
  | Start => Some (fst (getGasFeeEstimatesAndStartPolling w))
  | Stop => Some (fst (disconnectPoller w))
  | Tick handle =>
      match armed (timers w) !! handle with
      | Some _ => Some (timerCallback w)
      | None => None
      end
  | Settle i settled =>
      match pending w !! i with
      | Some k =>
          let w1 := mkWorld (ctrl w) (timers w) (delete i (pending w)) (resuming w)
                            (fetchCalls w) (console w) in
          Some (match k with
                | AwaitStart =>
                    let '(w2, refreshed) := _fetchGasFeeEstimateData_resume settled w1 in
                    mkWorld (ctrl w2) (timers w2) (pending w2) (resuming w2 ++ [refreshed])
                            (fetchCalls w2) (console w2)
                | AwaitTick => fst (timerCallback_resume settled w1)
                end)
      | None => None
      end
  | Continue j =>
      match resuming w !! j with
      | Some refreshed =>
          let w1 := mkWorld (ctrl w) (timers w) (pending w) (delete j (resuming w))
                            (fetchCalls w) (console w) in
          Some (fst (getGasFeeEstimatesAndStartPolling_resume refreshed w1))
      | None => None
      end
  end.

Fixpoint run (evs : list Event) (w : World) : option World :=
  match evs with
  | [] => Some w
  | ev :: evs' =>
      match step ev w with
      | Some w' => run evs' w'
      | None => None
      end
  end.

End GasFee.

(** ** GasFeeController as the constructor leaves it *)
Module GasFeeWritten.

Import GasFee.

(** The constructor (lines 218-243) takes [fetchGasEstimates] but assigns
    [intervalDelay] only (line 242); the class declares no member of that
    name (lines 202-212) and [super] is handed [name], [messenger] and
    [state].  In every instance [this.fetchGasEstimates] is therefore
    [undefined], and calling it throws this error. *)
Definition notAFunction : Error := "TypeError: this.fetchGasEstimates is not a function"%string.

(** [this.fetchGasEstimates()] (line 266): the call throws, so no promise
    comes back and the [await] around it is not reached. *)
Definition fetchGasEstimates : Eff World GasFeeEstimates :=
  fun w => (w, Throw notAFunction).

(** [_fetchGasFeeEstimateData] (lines 263-292).  With no [await] reached
    the method runs to its end when it is called. *)
Definition _fetchGasFeeEstimateData : Eff World (option GasFeeState) :=
  fun w =>
    let '(w1, c) :=
      try_catch
        (bind fetchGasEstimates (fun estimates =>
           ret (Some {| legacyGasPriceEstimates := Some
                          {| Legacy.low := {| gasPrice := suggestedMaxFeePerGas (low estimates) |};
                             Legacy.medium := {| gasPrice := suggestedMaxFeePerGas (medium estimates) |};
                             Legacy.high := {| gasPrice := suggestedMaxFeePerGas (high estimates) |} |};
                        gasFeeEstimates := Some estimates |})))
        (fun error => bind (console_error error) (fun _ => ret None))
        w in
    let newEstimates := match c with Normal v => v | Throw _ => None end in
    finally_return (update (fun _ => newEstimates)) newEstimates w1.

(** [getGasFeeEstimatesAndStartPolling] (lines 245-256) up to its [await]
    (line 250).  The refresh has run to its end by then; the call is
    suspended all the same and goes on in a later turn of the job queue,
    with what the refresh returned.  From there on it is
    [GasFee.getGasFeeEstimatesAndStartPolling_resume]. *)
Definition getGasFeeEstimatesAndStartPolling (w : World)
  : World * Activation (option GasFeeState) :=
  if decide (pollCount (ctrl w) > 0) then
    let gasEstimates := state (ctrl w) in
    (_startPolling w, Returned (Normal (Some gasEstimates)))
  else
    let '(w1, refreshed) := _fetchGasFeeEstimateData w in
    (mkWorld (ctrl w1) (timers w1) (pending w1) (resuming w1 ++ [refreshed])
             (fetchCalls w1) (console w1),
     Suspended).

(** The timer callback of [_poll] (line 303): [safelyExecute] runs the
    refresh when it is called, and the [await]s that follow find promises
    already settled, with nothing left to run after them. *)
Definition timerCallback : Eff World (option (option GasFeeState)) :=
  safelyExecute _fetchGasFeeEstimateData.

(** What can happen to a controller: no fetch is ever in flight, so
    nothing settles.  Timers fire between jobs only, so the host runs a
    suspended start call before the next tick; the machine also admits the
    other orders. *)
Inductive Event : Type :=
| Start                       (* a caller invokes getGasFeeEstimatesAndStartPolling *)
| Stop                        (* a caller invokes disconnectPoller *)
| Tick (handle : nat)         (* the timer [handle] fires *)
| Continue (j : nat).         (* the [j]-th start call that waits goes on *)

Definition step (ev : Event) (w : World) : option World :=
  match ev with
  | Start => Some (fst (getGasFeeEstimatesAndStartPolling w))
  | Stop => Some (fst (disconnectPoller w))
  | Tick handle =>
      match armed (timers w) !! handle with
      | Some _ => Some (fst (timerCallback w))
      | None => None
      end
  | Continue j =>
      match resuming w !! j with
      | Some refreshed =>
          let w1 := mkWorld (ctrl w) (timers w) (pending w) (delete j (resuming w))
                            (fetchCalls w) (console w) in
          Some (fst (getGasFeeEstimatesAndStartPolling_resume refreshed w1))
      | None => None
      end
  end.

Fixpoint run (evs : list Event) (w : World) : option World :=
  match evs with
  | [] => Some w
  | ev :: evs' =>
      match step ev w with
      | Some w' => run evs' w'
      | None => None
      end
  end.

End GasFeeWritten.

(** ** TokenRatesController (src/TokenRatesController.ts) *)
Module TokenRates.

Local Open Scope string_scope.

Record Token : Type := mkToken {
  address : string;
  decimals : Z;
  symbol : string
}.

#[global] Instance Token_eq_dec : EqDecision Token.
Proof. solve_decision. Defined.

(** One entry of the [prices] array of the pricing service; [price] is
    [None] when the service sent something that is not a number.  Prices
    are only stored, never computed with; integers stand for the numbers of
    JavaScript. *)
Record Price : Type := mkPrice {
  pair : string;
  price : option Z
}.

(** The body of the answer; [prices] may be missing. *)
Record Response : Type := mkResponse {
  prices : option (list Price)
}.

Record TokenRatesState : Type := mkTokenRatesState {
  contractExchangeRates : gmap string Z
}.

(** The fields of an instance: [disabled] and the [nativeCurrency] of
    [config] are inherited from BaseController. *)
Record TokenRatesController : Type := mkTokenRatesController {
  disabled : bool;
  nativeCurrency : string;
  handle : option nat;
  tokenList : list Token;
  state : TokenRatesState
}.

(** The controller in its host: armed timers, the queries of the calls of
    [fetchExchangeRate] in flight, and the number of calls made. *)
Record World : Type := mkWorld {
  ctrl : TokenRatesController;
  timers : Timers;
  pending : list string;
  fetchCalls : nat
}.

Definition new (isDisabled : bool) (currency : string) : World :=
  {| ctrl := {| disabled := isDisabled; nativeCurrency := currency; handle := None;
                tokenList := [];
                state := {| contractExchangeRates := ∅ |} |};
     timers := noTimers; pending := []; fetchCalls := 0 |}.

Definition set_handle (h : option nat) (c : TokenRatesController) : TokenRatesController :=
  mkTokenRatesController (disabled c) (nativeCurrency c) h (tokenList c) (state c).

Definition set_tokenList (l : list Token) (c : TokenRatesController) : TokenRatesController :=
  mkTokenRatesController (disabled c) (nativeCurrency c) (handle c) l (state c).

Definition set_state (s : TokenRatesState) (c : TokenRatesController) : TokenRatesController :=
  mkTokenRatesController (disabled c) (nativeCurrency c) (handle c) (tokenList c) s.

(** Modelled from the spec: [update] of BaseController.ts, which is not
    under src/, called with [{ contractExchangeRates }]: the key replaces
    the one of the state (section 4.2, the snapshot is replaced as a
    whole). *)
Definition update (rates : gmap string Z) (w : World) : World :=
  mkWorld (set_state {| contractExchangeRates := rates |} (ctrl w))
          (timers w) (pending w) (fetchCalls w).

(** [String.prototype.toLowerCase] on strings of ASCII characters, of
    which it changes the letters A to Z only. *)
Definition lower (a : ascii) : ascii :=
  let n := nat_of_ascii a in
  if ((65 <=? n) && (n <=? 90))%nat then ascii_of_nat (n + 32) else a.

Fixpoint toLowerCase (s : string) : string :=
  match s with
  | EmptyString => EmptyString
  | String a s' => String (lower a) (toLowerCase s')
  end.

(** [s.split('/')[0]] *)
Fixpoint beforeSlash (s : string) : string :=
  match s with
  | EmptyString => EmptyString
  | String a s' => if decide (a = "/"%char) then EmptyString else String a (beforeSlash s')
  end.

Section WithChecksum.

(** [toChecksumAddress] of ethereumjs-util, on the strings it accepts. *)
Variable toChecksumAddress : string -> string.

(** [fetchExchangeRate(query)] (lines 116-120): the request is sent and
    the caller waits for the answer. *)
Definition fetchExchangeRate (query : string) (w : World) : World :=
  mkWorld (ctrl w) (timers w) (pending w ++ [query]) (S (fetchCalls w)).

(** [updateExchangeRates] (lines 143-157) up to its [await]. *)
Definition updateExchangeRates (w : World) : World * Activation unit :=
  if disabled (ctrl w) || (length (tokenList (ctrl w)) =? 0)%nat then
    (w, Returned (Normal tt))
  else
    let pairs := map (fun token => "pairs[]=" +:+ address token +:+ "/" +:+ nativeCurrency (ctrl w))
                     (tokenList (ctrl w)) in
    let query := String.concat "&" pairs in
    (fetchExchangeRate query w, Suspended).

(** [updateExchangeRates] from the moment the answer is there, for an
    answer every key of which [toChecksumAddress] accepts.
    [TokenRatesChecked] has the call for keys that may be refused. *)
Definition updateExchangeRates_resume (settled : Completion Response) : Eff World unit :=
  bind (await settled) (fun response w =>
    let prices := default [] (prices response) in
    let newContractExchangeRates :=
      foldl (fun rates p =>
               let address := toChecksumAddress (toLowerCase (beforeSlash (pair p))) in
               <[address := default 0 (price p)]> rates)
            (∅ : gmap string Z) prices in
    (update newContractExchangeRates w, Normal tt)).

(** The setter of [interval] (lines 92-98). *)
Definition set_interval (interval : Z) (w : World) : World :=
  let w1 :=
    match handle (ctrl w) with
    | Some h => mkWorld (ctrl w) (clearInterval h (timers w)) (pending w) (fetchCalls w)
    | None => w
    end in
  let w2 := fst (updateExchangeRates w1) in
  let '(h', t) := setInterval interval (timers w2) in
  mkWorld (set_handle (Some h') (ctrl w2)) t (pending w2) (fetchCalls w2).

(** The setter of [tokens] (lines 105-108). *)
Definition set_tokens (tokens : list Token) (w : World) : World :=
  let w1 := mkWorld (set_tokenList tokens (ctrl w)) (timers w) (pending w) (fetchCalls w) in
  fst (updateExchangeRates w1).

Inductive Event : Type :=
| AssignInterval (interval : Z)
| AssignTokens (tokens : list Token)
| Tick (h : nat)
| Settle (i : nat) (settled : Completion Response).

Definition step (ev : Event) (w : World) : option World :=
  match ev with
  | AssignInterval interval => Some (set_interval interval w)
  | AssignTokens tokens => Some (set_tokens tokens w)
  | Tick h =>
      match armed (timers w) !! h with
      | Some _ => Some (fst (updateExchangeRates w))
      | None => None
      end
  | Settle i settled =>
      match pending w !! i with
      | Some _ =>
          let w1 := mkWorld (ctrl w) (timers w) (delete i (pending w)) (fetchCalls w) in
          Some (fst (safelyExecute (updateExchangeRates_resume settled) w1))
      | None => None
      end
  end.

Fixpoint run (evs : list Event) (w : World) : option World :=
  match evs with
  | [] => Some w
  | ev :: evs' =>
      match step ev w with
      | Some w' => run evs' w'
      | None => None
      end
  end.

End WithChecksum.

End TokenRates.

(** ** TokenRatesController: an answer whose keys may be refused *)
Module TokenRatesChecked.

Import TokenRates.

Section WithEthereumjsUtil.

(** [toChecksumAddress] of ethereumjs-util (version ^7.0.10, src/package.json
    line 52), which throws on a string that is not hexadecimal with the
    prefix 0x, and [String.prototype.toLowerCase]. *)
Variable toChecksumAddress : string -> Completion string.
Variable toLowerCase : string -> string.

(** The callback of [prices.forEach] (lines 152-155), on the local object
    [newContractExchangeRates]. *)
Definition storeRate (p : Price) : Eff (gmap string Z) unit :=
  fun newContractExchangeRates =>
    match toChecksumAddress (toLowerCase (beforeSlash (pair p))) with
    | Normal address =>
        (<[address := default 0 (price p)]> newContractExchangeRates, Normal tt)
    | Throw e => (newContractExchangeRates, Throw e)
    end.

(** [updateExchangeRates] (lines 143-157) from the moment the answer is
    there.  When the loop throws, [update] is not reached and the local
    object is dropped. *)
Definition updateExchangeRates_resume (settled : Completion Response) : Eff World unit :=
  bind (await settled) (fun response w =>
    let prices := default [] (prices response) in
    match forEach storeRate prices ∅ with
    | (newContractExchangeRates, Normal _) => (update newContractExchangeRates w, Normal tt)
    | (_, Throw e) => (w, Throw e)
    end).

(** What the timer and the setters run when the answer is there:
    [safelyExecute(() => this.updateExchangeRates())] (lines 94-96,
    107). *)
Definition settle (settled : Completion Response) : Eff World (option unit) :=
  safelyExecute (updateExchangeRates_resume settled).

End WithEthereumjsUtil.

End TokenRatesChecked.

(** ** ComposableController (src/ComposableController.ts, lines 1-81) *)
Module Composable.

(** The listener that the setter of [controllers] creates on line 55,
    [(state) => { this.update({ [name]: state }) }]: a closure over the
    composite and over [name]. *)
Record Listener : Type := mkListener {
  slot : string
}.

(** A child controller, as far as the composite looks at it.
    Modelled from the spec: BaseController.ts is not under src/; a child is
    a state container with a list of direct subscribers (section 4.4).
    [name] is [constructor.name]; [context] is the context object the
    child was last handed, by address. *)
Module Child.
Record t (BaseState : Type) : Type := mk {
  name : string;
  state : BaseState;
  context : option nat;
  internalListeners : list Listener
}.
Arguments mk {BaseState} _ _ _ _.
Arguments name {BaseState} _.
Arguments state {BaseState} _.
Arguments context {BaseState} _.
Arguments internalListeners {BaseState} _.
End Child.

(** The fields of the composite; [context] is the address of its
    current context object. *)
Record ComposableController (BaseState : Type) : Type := mkComposableController {
  internalControllers : list nat;
  context : nat;
  state : gmap string BaseState
}.
Arguments mkComposableController {BaseState} _ _ _.
Arguments internalControllers {BaseState} _.
Arguments context {BaseState} _.
Arguments state {BaseState} _.

(** Children and context objects are shared and mutated in place, so they
    live in a store and are referred to by address.  [notifications]
    counts the runs of the composite's [update]. *)
Record World (BaseState : Type) : Type := mkWorld {
  heap : gmap nat (Child.t BaseState);
  contexts : list (gmap string nat);
  self : ComposableController BaseState;
  notifications : nat
}.
Arguments mkWorld {BaseState} _ _ _ _.
Arguments heap {BaseState} _.
Arguments contexts {BaseState} _.
Arguments self {BaseState} _.
Arguments notifications {BaseState} _.

Section WithState.

Context {BaseState : Type}.

Local Abbreviation World := (World BaseState).

(** Modelled from the spec: [update] of BaseController.ts, which is not
    under src/: the given keys are merged into the state, or replace it
    when [overwrite] is set, and the subscribers are told. *)
Definition update (st : gmap string BaseState) (overwrite : bool) (w : World) : World :=
  mkWorld (heap w) (contexts w)
          (mkComposableController (internalControllers (self w)) (context (self w))
             (if overwrite then st else st ∪ state (self w)))
          (S (notifications w)).

(** Modelled from the spec: [subscribe] of BaseController.ts appends the
    listener to the child's subscribers. *)
Definition subscribe (listener : Listener) (c : Child.t BaseState) : Child.t BaseState :=
  Child.mk (Child.name c) (Child.state c) (Child.context c)
           (Child.internalListeners c ++ [listener]).

(** Modelled from the spec: [onComposed] of BaseController.ts, the
    extension point called once a controller has been composed; a plain
    child does nothing in it.  The children of this module are plain:
    none of them overrides [onComposed].  [Composed] has the setter over
    children that may be TokenRatesControllers, whose [onComposed] can
    throw. *)
Definition onComposed (r : nat) (w : World) : World := w.

(** The body of the first [forEach] (lines 50-58) for the child at
    address [r]; [initialState] is the local object of line 48. *)
Definition compose (acc : World * gmap string BaseState) (r : nat)
  : World * gmap string BaseState :=
  let '(w, initialState) := acc in
  match heap w !! r with
  | Some controller =>
      let name := Child.name controller in
      let contexts1 := alter (<[name := r]>) (context (self w)) (contexts w) in
      let initialState1 := <[name := Child.state controller]> initialState in
      let controller1 :=
        Child.mk name (Child.state controller) (Some (context (self w)))
                 (Child.internalListeners controller) in
      let controller2 := subscribe (mkListener name) controller1 in
      (mkWorld (<[r := controller2]> (heap w)) contexts1 (self w) (notifications w),
       initialState1)
  | None => acc
  end.

(** The setter of [controllers] (lines 45-63). *)
Definition set_controllers (controllers : list nat) : Eff World unit :=
  fun w =>
    let context := length (contexts w) in
    let w1 := mkWorld (heap w) (contexts w ++ [∅])
                      (mkComposableController controllers context (state (self w)))
                      (notifications w) in
    let '(w2, initialState) := foldl compose (w1, ∅) controllers in
    let w3 := foldl (fun w r => onComposed r w) w2 controllers in
    (update initialState true w3, Normal tt).

(** The constructor (lines 25-29) over a store of children. *)
Definition new (children : gmap nat (Child.t BaseState)) (controllers : list nat) : World :=
  fst (set_controllers controllers
         (mkWorld children [∅] (mkComposableController [] 0%nat ∅) 0)).

(** The context map of the composite. *)
Definition contextMap (w : World) : gmap string nat :=
  default ∅ (contexts w !! context (self w)).

(** A listener fires with the child's new state. *)
Definition fire (st : BaseState) (w : World) (l : Listener) : World :=
  update {[slot l := st]} false w.

(** Modelled from the spec: a child changes its state to [st] and tells
    its subscribers, in the order they subscribed (section 4.1). *)
Definition childUpdate (r : nat) (st : BaseState) (w : World) : World :=
  match heap w !! r with
  | Some c =>
      let c1 := Child.mk (Child.name c) st (Child.context c) (Child.internalListeners c) in
      foldl (fire st)
            (mkWorld (<[r := c1]> (heap w)) (contexts w) (self w) (notifications w))
            (Child.internalListeners c1)
  | None => w
  end.

End WithState.

End Composable.

(** ** ComposableController over children that override [onComposed] *)
Module Composed.

(** The listeners a child can hold: the closure that the setter of
    [controllers] creates on line 55, and the two closures that
    [onComposed] of the TokenRatesController at address [rates] creates
    (src/TokenRatesController.ts, lines 130-135). *)
Inductive Listener : Type :=
| UpdateSlot (slot : string)
| ConfigureTokens (rates : nat)
| ConfigureNativeCurrency (rates : nat).

(** Whose [onComposed] a child runs: the one it inherits from
    BaseController, or the one of TokenRatesController. *)
Inductive Class : Type :=
| Inheriting
| TokenRatesController.

(** A child controller.  Modelled from the spec: BaseController.ts is not
    under src/; a child is a state container with a list of direct
    subscribers (section 4.4).  [name] is [constructor.name]; [context] is
    the context object the child was last handed, by address. *)
Module Child.
Record t (BaseState : Type) : Type := mk {
  name : string;
  class : Class;
  state : BaseState;
  context : option nat;
  internalListeners : list Listener
}.
Arguments mk {BaseState} _ _ _ _ _.
Arguments name {BaseState} _.
Arguments class {BaseState} _.
Arguments state {BaseState} _.
Arguments context {BaseState} _.
Arguments internalListeners {BaseState} _.
End Child.

Record World (BaseState : Type) : Type := mkWorld {
  heap : gmap nat (Child.t BaseState);
  contexts : list (gmap string nat);
  self : Composable.ComposableController BaseState;
  notifications : nat
}.
Arguments mkWorld {BaseState} _ _ _ _.
Arguments heap {BaseState} _.
Arguments contexts {BaseState} _.
Arguments self {BaseState} _.
Arguments notifications {BaseState} _.

(** What reading [assets.subscribe] throws when [assets] is [undefined]. *)
Definition undefinedSubscribe : Error :=
  "TypeError: Cannot read property 'subscribe' of undefined"%string.

Section WithState.

Context {BaseState : Type}.

Local Abbreviation World := (World BaseState).

(** Modelled from the spec: [update] of BaseController.ts, which is not
    under src/: the given keys are merged into the state, or replace it
    when [overwrite] is set, and the subscribers are told. *)
Definition update (st : gmap string BaseState) (overwrite : bool) : Eff World unit :=
  fun w =>
    (mkWorld (heap w) (contexts w)
       (Composable.mkComposableController
          (Composable.internalControllers (self w)) (Composable.context (self w))
          (if overwrite then st else st ∪ Composable.state (self w)))
       (S (notifications w)),
     Normal tt).

(** Modelled from the spec: [subscribe] of BaseController.ts appends the
    listener to the subscribers of the child, here the one at address
    [r]. *)
Definition subscribe (r : nat) (listener : Listener) (w : World) : World :=
  mkWorld (alter (fun c => Child.mk (Child.name c) (Child.class c) (Child.state c)
                             (Child.context c) (Child.internalListeners c ++ [listener]))
                 r (heap w))
          (contexts w) (self w) (notifications w).

(** Modelled from the spec: [onComposed] of BaseController.ts, the
    extension point called once a controller has been composed; it does
    nothing. *)
Definition BaseController_onComposed (r : nat) : Eff World unit := ret tt.

(** [this.context] for the child at address [r]: the context object it
    was handed, an empty one before that. *)
Definition contextOf (r : nat) (w : World) : gmap string nat :=
  match heap w !! r with
  | Some this =>
      match Child.context this with
      | Some a => default ∅ (contexts w !! a)
      | None => ∅
      end
  | None => ∅
  end.

(** [onComposed] of TokenRatesController (src/TokenRatesController.ts,
    lines 126-136) for the child at address [r].  [this.context] is the
    context object the child was handed; a name that is not in it reads
    as [undefined], and [subscribe] of [undefined] throws. *)
Definition TokenRatesController_onComposed (r : nat) : Eff World unit :=
  bind (BaseController_onComposed r) (fun _ w =>
    let context := contextOf r w in
    let assets := context !! "AssetsController"%string in
    let currencyRate := context !! "CurrencyRateController"%string in
    match assets with
    | None => (w, Throw undefinedSubscribe)
    | Some assets =>
        let w1 := subscribe assets (ConfigureTokens r) w in
        match currencyRate with
        | None => (w1, Throw undefinedSubscribe)
        | Some currencyRate =>
            (subscribe currencyRate (ConfigureNativeCurrency r) w1, Normal tt)
        end
    end).

(** [controller.onComposed()] (line 60) for the child at address [r]. *)
Definition onComposed (r : nat) : Eff World unit :=
  fun w =>
    match heap w !! r with
    | Some controller =>
        match Child.class controller with
        | Inheriting => BaseController_onComposed r w
        | TokenRatesController => TokenRatesController_onComposed r w
        end
    | None => (w, Normal tt)
    end.

(** The body of the first [forEach] (lines 50-58) for the child at
    address [r]; [initialState] is the local object of line 48. *)
Definition compose (acc : World * gmap string BaseState) (r : nat)
  : World * gmap string BaseState :=
  let '(w, initialState) := acc in
  match heap w !! r with
  | Some controller =>
      let name := Child.name controller in
      let contexts1 :=
        alter (<[name := r]>) (Composable.context (self w)) (contexts w) in
      let initialState1 := <[name := Child.state controller]> initialState in
      let controller1 :=
        Child.mk name (Child.class controller) (Child.state controller)
                 (Some (Composable.context (self w)))
                 (Child.internalListeners controller) in
      let w1 := mkWorld (<[r := controller1]> (heap w)) contexts1 (self w)
                        (notifications w) in
      (subscribe r (UpdateSlot name) w1, initialState1)
  | None => acc
  end.

(** The setter of [controllers] (lines 45-63). *)
Definition set_controllers (controllers : list nat) : Eff World unit :=
  fun w =>
    let context := length (contexts w) in
    let w1 := mkWorld (heap w) (contexts w ++ [∅])
                      (Composable.mkComposableController controllers context
                         (Composable.state (self w)))
                      (notifications w) in
    let '(w2, initialState) := foldl compose (w1, ∅) controllers in
    bind (forEach onComposed controllers) (fun _ => update initialState true) w2.

(** The constructor (lines 25-29) over a store of children; it throws
    when the setter does. *)
Definition new (children : gmap nat (Child.t BaseState)) (controllers : list nat)
  : World * Completion unit :=
  set_controllers controllers
    (mkWorld children [∅] (Composable.mkComposableController [] 0%nat ∅) 0).

(** The context map of the composite. *)
Definition contextMap (w : World) : gmap string nat :=
  default ∅ (contexts w !! Composable.context (self w)).

End WithState.

End Composed.

(** ** Arrays of JavaScript, as the token lists use them *)
Module JSArray.

(** [l.find(p)] *)
Fixpoint find {A} (p : A -> bool) (l : list A) : option A :=
  match l with
  | [] => None
  | x :: l' => if p x then Some x else find p l'
  end.

(** [l.indexOf(x)], [None] for -1.  Entries are compared as values here;
    JavaScript compares objects by identity. *)
Fixpoint indexOf {A} `{EqDecision A} (x : A) (l : list A) : option nat :=
  match l with
  | [] => None
  | y :: l' => if decide (y = x) then Some 0%nat else S <$> indexOf x l'
  end.

End JSArray.

(** ** AssetsController (src/ComposableController.ts, lines 343-535) *)
Module Assets.

Import TokenRates.

Record Collectible : Type := mkCollectible {
  c_address : string;
  tokenId : Z;
  c_name : string;
  image : string
}.

Record AssetsState : Type := mkAssetsState {
  collectibles : list Collectible;
  tokens : list Token
}.

(** Modelled from the spec: [update] of BaseController.ts, which is not
    under src/, called with [{ tokens }]: the key replaces the one of the
    state and the other keys stay. *)
Definition update (newTokens : list Token) (s : AssetsState) : AssetsState :=
  mkAssetsState (collectibles s) newTokens.

Section WithChecksum.

Variable toChecksumAddress : string -> string.

(** [addToken] (lines 429-445): the new state and the returned list.
    [tokens] is the stored array and is changed in place before it is
    copied; an index found by [indexOf] lies inside the array, and for
    -1 the assignment would not touch any element. *)
Definition addToken (address symbol : string) (decimals : Z) (s : AssetsState)
  : AssetsState * list Token :=
  let address := toChecksumAddress address in
  let newEntry := {| address := address; symbol := symbol; decimals := decimals |} in
  let tokens := tokens s in
  let previousEntry :=
    JSArray.find (fun token => bool_decide (TokenRates.address token = address)) tokens in
  let tokens1 :=
    match previousEntry with
    | Some previousEntry =>
        match JSArray.indexOf previousEntry tokens with
        | Some previousIndex => <[previousIndex := newEntry]> tokens
        | None => tokens
        end
    | None => tokens ++ [newEntry]
    end in
  let newTokens := tokens1 in
  (update newTokens s, newTokens).

(** [removeToken] (lines 491-496). *)
Definition removeToken (address : string) (s : AssetsState) : AssetsState :=
  let address := toChecksumAddress address in
  let oldTokens := tokens s in
  let tokens := filter (fun token => TokenRates.address token ≠ address) oldTokens in
  update tokens s.

End WithChecksum.

End Assets.

(** ** PreferencesController *)
Module Preferences.

Import TokenRates.

Record ContactEntry : Type := mkContactEntry {
  e_name : string;
  e_address : string
}.

Record PreferencesState : Type := mkPreferencesState {
  collectibles : list Assets.Collectible;
  featureFlags : gmap string bool;
  identities : gmap string ContactEntry;
  lostIdentities : gmap string ContactEntry;
  selectedAddress : option string;
  tokens : list Token
}.

(** Modelled from the spec: [update] of BaseController.ts, which is not
    under src/, called with [{ tokens }]: the key replaces the one of the
    state and the other keys stay. *)
Definition update (newTokens : list Token) (s : PreferencesState) : PreferencesState :=
  mkPreferencesState (collectibles s) (featureFlags s) (identities s) (lostIdentities s)
                     (selectedAddress s) newTokens.

Section WithChecksum.

Variable toChecksumAddress : string -> string.

(** [addToken] (lines 235-251 of the PreferencesController source), the
    same text as in AssetsController. *)
Definition addToken (address symbol : string) (decimals : Z) (s : PreferencesState)
  : PreferencesState * list Token :=
  let address := toChecksumAddress address in
  let newEntry := {| address := address; symbol := symbol; decimals := decimals |} in
  let tokens := tokens s in
  let previousEntry :=
    JSArray.find (fun token => bool_decide (TokenRates.address token = address)) tokens in
  let tokens1 :=
    match previousEntry with
    | Some previousEntry =>
        match JSArray.indexOf previousEntry tokens with
        | Some previousIndex => <[previousIndex := newEntry]> tokens
        | None => tokens
        end
    | None => tokens ++ [newEntry]
    end in
  let newTokens := tokens1 in
  (update newTokens s, newTokens).

(** [removeToken] (lines 336-341 of the PreferencesController source). *)
Definition removeToken (address : string) (s : PreferencesState) : PreferencesState :=
  let address := toChecksumAddress address in
  let oldTokens := tokens s in
  let newTokens := filter (fun token => TokenRates.address token ≠ address) oldTokens in
  update newTokens s.

End WithChecksum.

End Preferences.

(** ** The collectibles of AssetsController
    (src/ComposableController.ts, lines 454-532) *)
Module Collectibles.

Import Assets.

(** An entry of [contractMap] (eth-contract-metadata), as far as it is
    read here. *)
Record Contract : Type := mkContract {
  erc721 : bool;
  api : string
}.

(** The body that the API of a collectible answers with. *)
Record Json : Type := mkJson {
  image_url : string;
  name : string
}.

Record CollectibleCustomInformation : Type := mkInformation {
  i_name : string;
  i_image : string
}.

(** What [requestNFTCustomInformation] goes for: nothing, or the answer
    to [fetch(getCollectibleApi(api, tokenId))]. *)
Inductive Request : Type :=
| NoRequest
| Fetching (url : string * Z).

(** A call of [addCollectible] that is suspended on its [await]: its
    checksummed [address], its [tokenId], the array [collectibles] it read
    from the state when it was called, and what it waits for. *)
Record Adding : Type := mkAdding {
  a_address : string;
  a_tokenId : Z;
  a_collectibles : list Collectible;
  a_request : Request
}.

(** The controller state in its host: the suspended calls of
    [addCollectible], oldest first, and the number of fetches made. *)
Record World : Type := mkWorld {
  state : AssetsState;
  pending : list Adding;
  fetchCalls : nat
}.

(** [getCollectibleApi] (lines 397-399): the text [`${api}${tokenId}`],
    kept as its two parts. *)
Definition getCollectibleApi (api : string) (tokenId : Z) : string * Z := (api, tokenId).

(** Modelled from the spec: [update] of BaseController.ts, which is not
    under src/, called with [{ collectibles }]: the key replaces the one of
    the state and the other keys stay. *)
Definition update (newCollectibles : list Collectible) (w : World) : World :=
  mkWorld (mkAssetsState newCollectibles (tokens (state w))) (pending w) (fetchCalls w).

(** Is this the collectible [tokenId] of the contract at [address]? *)
Definition isEntry (address : string) (id : Z) (collectible : Collectible) : Prop :=
  c_address collectible = address ∧ tokenId collectible = id.

#[global] Instance isEntry_dec address id collectible :
  Decision (isEntry address id collectible).
Proof. unfold isEntry. apply _. Defined.

Section WithContracts.

Variable toChecksumAddress : string -> string.
Variable contractMap : gmap string Contract.

(** [requestNFTCustomInformation] (lines 505-514) up to its [await]:
    which request it makes. *)
Definition requestNFTCustomInformation (address : string) (tokenId : Z) : Request :=
  match contractMap !! address with
  | Some contract =>
      if erc721 contract then Fetching (getCollectibleApi (api contract) tokenId)
      else NoRequest
  | None => NoRequest
  end.

(** [fetchCollectibleBasicInformation] (lines 523-532) from the moment
    fetching and decoding have settled. *)
Definition fetchCollectibleBasicInformation_resume {W} (settled : Completion Json)
  : Eff W CollectibleCustomInformation :=
  try_catch
    (bind (await settled) (fun json =>
       ret {| i_image := image_url json; i_name := name json |}))
    (fun _ => ret {| i_image := ""; i_name := "" |}).

(** [requestNFTCustomInformation] from there on. *)
Definition requestNFTCustomInformation_resume {W} (request : Request)
    (settled : Completion Json) : Eff W CollectibleCustomInformation :=
  match request with
  | Fetching _ =>
      bind (fetchCollectibleBasicInformation_resume settled) (fun info =>
        ret {| i_name := i_name info; i_image := i_image info |})
  | NoRequest => ret {| i_name := ""; i_image := "" |}
  end.

(** [addCollectible] (lines 454-469) up to its [await]. *)
Definition addCollectible (address : string) (tokenId : Z) (w : World)
  : World * Activation (list Collectible) :=
  let address := toChecksumAddress address in
  let collectibles := collectibles (state w) in
  let existingEntry := filter (isEntry address tokenId) (Assets.collectibles (state w)) in
  if (0 <? length existingEntry)%nat then
    (w, Returned (Normal collectibles))
  else
    let request := requestNFTCustomInformation address tokenId in
    (mkWorld (state w)
             (pending w ++ [mkAdding address tokenId collectibles request])
             (fetchCalls w + match request with Fetching _ => 1 | NoRequest => 0 end)%nat,
     Suspended).

(** [addCollectible] from the moment the information is there. *)
Definition addCollectible_resume (call : Adding) (settled : Completion Json)
  : Eff World (list Collectible) :=
  bind (requestNFTCustomInformation_resume (a_request call) settled) (fun info w =>
    let newEntry := {| c_address := a_address call; tokenId := a_tokenId call;
                       c_name := i_name info; image := i_image info |} in
    let newCollectibles := a_collectibles call ++ [newEntry] in
    (update newCollectibles w, Normal newCollectibles)).

(** [removeCollectible] (lines 477-484). *)
Definition removeCollectible (address : string) (tokenId : Z) (w : World) : World :=
  let address := toChecksumAddress address in
  let oldCollectibles := collectibles (state w) in
  let newCollectibles :=
    filter (fun collectible => ¬ isEntry address tokenId collectible) oldCollectibles in
  update newCollectibles w.

Inductive Event : Type :=
| Add (address : string) (tokenId : Z)
| Remove (address : string) (tokenId : Z)
| Resume (i : nat) (settled : Completion Json).

Definition step (ev : Event) (w : World) : option World :=
  match ev with
  | Add address tokenId => Some (fst (addCollectible address tokenId w))
  | Remove address tokenId => Some (removeCollectible address tokenId w)
  | Resume i settled =>
      match pending w !! i with
      | Some call =>
          Some (fst (addCollectible_resume call settled
                       (mkWorld (state w) (delete i (pending w)) (fetchCalls w))))
      | None => None
      end
  end.

Fixpoint run (evs : list Event) (w : World) : option World :=
  match evs with
  | [] => Some w
  | ev :: evs' =>
      match step ev w with
      | Some w' => run evs' w'
      | None => None
      end
  end.

End WithContracts.

End Collectibles.

(** ** util.ts *)
Module Util.

Local Open Scope string_scope.

(** [s.split(c)[0]] for a separator of one character. *)
Fixpoint firstPart (c : ascii) (s : string) : string :=
  match s with
  | EmptyString => EmptyString
  | String a s' => if decide (a = c) then EmptyString else String a (firstPart c s')
  end.

(** [s.includes(c)] for a text of one character. *)
Fixpoint includes (c : ascii) (s : string) : bool :=
  match s with
  | EmptyString => false
  | String a s' => if decide (a = c) then true else includes c s'
  end.

(** A string is truthy when it is not empty, [undefined] is not. *)
Definition truthy (v : option string) : bool :=
  match v with
  | Some s => negb (bool_decide (s = ""))
  | None => false
  end.

(** [manageCollectibleImage] (lines 195-204). *)
Definition manageCollectibleImage (address image : string) : string :=
  let GODSADDRESS := "0x6EbeAf8e8E946F0716E6533A6f2cefc83f60e8Ab" in
  let collectibleImage :=
    if decide (address = GODSADDRESS) then firstPart "?" image else image in
  collectibleImage.

(** A transaction, as far as [normalizeTransaction] and
    [validateTransaction] read it: the keys of [NORMALIZERS], each a string
    or [undefined]. *)
Record Transaction : Type := mkTransaction {
  data : option string;
  from : option string;
  gas : option string;
  gasPrice : option string;
  nonce : option string;
  to : option string;
  value : option string
}.

(** What [`${v}`] gives for a string or [undefined]. *)
Definition shown (v : option string) : string := default "undefined" v.

(** A key between double quotes, as the error messages have it. *)
Definition quoted (key : string) : string :=
  String (ascii_of_nat 34) key +:+ String (ascii_of_nat 34) EmptyString.

Section WithEthereumjsUtil.

(** [addHexPrefix] and [isValidAddress] of ethereumjs-util, and
    [String.prototype.toLowerCase]. *)
Variable addHexPrefix : string -> string.
Variable isValidAddress : string -> bool.
Variable toLowerCase : string -> string.

(** One step of the loop of [normalizeTransaction] (lines 101-105): the
    key is set only when the transaction has a truthy value for it. *)
Definition normalized (normalizer : string -> string) (v : option string) : option string :=
  match v with
  | Some s => if truthy v then Some (normalizer s) else None
  | None => None
  end.

(** [normalizeTransaction] (lines 98-107) with the table [NORMALIZERS]
    (lines 6-14); the result starts as [{ from: '' }]. *)
Definition normalizeTransaction (transaction : Transaction) : Transaction :=
  {| data := normalized addHexPrefix (data transaction);
     from := Some (default "" (normalized (fun from => toLowerCase (addHexPrefix from))
                                          (from transaction)));
     gas := normalized addHexPrefix (gas transaction);
     gasPrice := normalized addHexPrefix (gasPrice transaction);
     nonce := normalized addHexPrefix (nonce transaction);
     to := normalized (fun to => toLowerCase (addHexPrefix to)) (to transaction);
     value := normalized addHexPrefix (value transaction) |}.

Definition delete_to (t : Transaction) : Transaction :=
  mkTransaction (data t) (from t) (gas t) (gasPrice t) (nonce t) None (value t).

(** [validateTransaction] (lines 129-151); the transaction is the object
    handed in, which the function may change. *)
Definition validateTransaction : Eff Transaction unit :=
  fun transaction =>
    if negb (truthy (from transaction))
       || negb (isValidAddress (default "" (from transaction))) then
      (transaction,
       Throw ("Invalid " +:+ quoted "from" +:+ " address: " +:+ shown (from transaction)
              +:+ " must be a valid string."))
    else
      let '(transaction1, c) :=
        if bool_decide (to transaction = Some "0x") || bool_decide (to transaction = None) then
          if truthy (data transaction) then (delete_to transaction, Normal tt)
          else (transaction,
                Throw ("Invalid " +:+ quoted "to" +:+ " address: " +:+ shown (to transaction)
                       +:+ " must be a valid string."))
        else if negb (isValidAddress (default "" (to transaction))) then
          (transaction,
           Throw ("Invalid " +:+ quoted "to" +:+ " address: " +:+ shown (to transaction)
                  +:+ " must be a valid string."))
        else (transaction, Normal tt) in
      match c with
      | Throw e => (transaction1, Throw e)
      | Normal _ =>
          match value transaction1 with
          | Some value =>
              if includes "-" value then
                (transaction1,
                 Throw ("Invalid " +:+ quoted "value" +:+ ": " +:+ value
                        +:+ " is not a positive number."))
              else if includes "." value then
                (transaction1,
                 Throw ("Invalid " +:+ quoted "value" +:+ ": " +:+ value
                        +:+ " number must be denominated in wei."))
              else (transaction1, Normal tt)
          | None => (transaction1, Normal tt)
          end
      end.

End WithEthereumjsUtil.

End Util.

(** ** PreferencesController: identities (src/package.json) *)
Module Identities.

Import Preferences.

Local Open Scope string_scope.

(** Modelled from the spec: [update] of BaseController.ts, which is not
    under src/, called with [{ identities }], with
    [{ identities, lostIdentities }] and with [{ selectedAddress }]: the
    keys given replace those of the state and the other keys stay. *)
Definition update_identities (newIdentities : gmap string ContactEntry)
    (s : PreferencesState) : PreferencesState :=
  mkPreferencesState (collectibles s) (featureFlags s) newIdentities (lostIdentities s)
                     (selectedAddress s) (tokens s).

Definition update_both (newIdentities newLost : gmap string ContactEntry)
    (s : PreferencesState) : PreferencesState :=
  mkPreferencesState (collectibles s) (featureFlags s) newIdentities newLost
                     (selectedAddress s) (tokens s).

Definition update_selectedAddress (address : option string) (s : PreferencesState)
  : PreferencesState :=
  mkPreferencesState (collectibles s) (featureFlags s) (identities s) (lostIdentities s)
                     address (tokens s).

(** The template [`Account ${n}`]. *)
Definition accountName (n : nat) : string := "Account " +:+ pretty n.

(** [array.reduce(f, acc)] with a callback that also reads the index. *)
Fixpoint reduce {A B : Type} (f : B -> A -> nat -> B) (acc : B) (index : nat) (l : list A) : B :=
  match l with
  | [] => acc
  | x :: l' => reduce f (f acc x index) (S index) l'
  end.

Section WithChecksum.

Variable toChecksumAddress : string -> string.

(** One round of the [forEach] of [addIdentities] (lines 216-223), on the
    stored identities, which it changes in place. *)
Definition addIdentity (identities : gmap string ContactEntry) (address : string)
  : gmap string ContactEntry :=
  let address := toChecksumAddress address in
  match identities !! address with
  | Some _ => identities
  | None =>
      let identityCount := size identities in
      <[address := {| e_name := accountName (identityCount + 1); e_address := address |}]>
        identities
  end.

(** [addIdentities] (lines 214-225). *)
Definition addIdentities (addresses : list string) (s : PreferencesState) : PreferencesState :=
  let identities := foldl addIdentity (identities s) addresses in
  update_identities identities s.

(** [updateIdentities] (lines 423-435).  An old entry, spread last, gives
    both keys of the new one. *)
Definition updateIdentities (addresses : list string) (s : PreferencesState)
  : PreferencesState :=
  let addresses := map toChecksumAddress addresses in
  let oldIdentities := identities s in
  let identities :=
    reduce (fun ids address index =>
              <[address := default {| e_name := accountName (index + 1); e_address := address |}
                                   (oldIdentities !! address)]> ids)
           ∅ 0%nat addresses in
  update_identities identities s.

(** [syncIdentities] (lines 390-416): the new state and the address
    returned.  The [for ... in] loop moves every identity whose key is not
    among the addresses to [newlyLost], whose entries then overwrite those
    of [lostIdentities].  [indexOf] finds the selected address when it is
    one of the addresses, and none when it is [undefined]; with no address
    at all [addresses[0]] is [undefined]. *)
Definition syncIdentities (addresses : list string) (s : PreferencesState)
  : PreferencesState * option string :=
  let addresses := map toChecksumAddress addresses in
  let newlyLost := filter (fun entry => entry.1 ∉ addresses) (identities s) in
  let identities := filter (fun entry => entry.1 ∈ addresses) (identities s) in
  let lostIdentities := newlyLost ∪ lostIdentities s in
  let s1 := update_both identities lostIdentities s in
  let s2 := addIdentities addresses s1 in
  let found :=
    match selectedAddress s2 with
    | Some selected => bool_decide (selected ∈ addresses)
    | None => false
    end in
  let s3 := if found then s2 else update_selectedAddress (addresses !! 0%nat) s2 in
  (s3, selectedAddress s3).

End WithChecksum.

End Identities.

(** * Properties *)

(** ** GasFeeController *)
Module GasFeeFacts.

Import GasFee.

(** The world after [console.error(error)]. *)
Definition logged (error : Error) (w : World) : World :=
  mkWorld (ctrl w) (timers w) (pending w) (resuming w) (fetchCalls w) (console w ++ [error]).

(** A sample answer of the gas-estimate service. *)
Definition sampleFee : Eip1559GasFee :=
  {| minWaitTimeEstimate := 15000; maxWaitTimeEstimate := 30000;
     suggestedMaxPriorityFeePerGas := "0x2"; suggestedMaxFeePerGas := "0x2f";
     calculatedTotalMinFee := "0x2a" |}.

Definition sampleEstimates : GasFeeEstimates :=
  {| low := sampleFee; medium := sampleFee; high := sampleFee;
     estimatedNextBlockBaseFee := "0x28"; lastBlockBaseFee := "0x27";
     lastBlockMinPriorityFee := "0x1"; lastBlockMaxPriorityFee := "0x9" |}.

(** In a trace, is every [Stop] issued while the count is positive? *)
Fixpoint stopsWhilePolling (evs : list Event) (w : World) : bool :=
  match evs with
  | [] => true
  | ev :: evs' =>
      match ev with
      | Stop => bool_decide (0 < pollCount (ctrl w))
      | _ => true
      end
      && match step ev w with
         | Some w' => stopsWhilePolling evs' w'
         | None => true
         end
  end.

(** *** Refreshing *)

Lemma fetch_resume_failure error w :
  _fetchGasFeeEstimateData_resume (Throw error) w = (logged error w, Normal None).
Proof. destruct w as [[] ? ? ? ? ?]. reflexivity. Qed.

Lemma fetch_resume_success estimates w :
  ∃ s, _fetchGasFeeEstimateData_resume (Normal estimates) w
       = (with_ctrl (set_state s) w, Normal (Some s))
       ∧ gasFeeEstimates s = Some estimates.
Proof. eexists. split; reflexivity. Qed.

(** A refresh that goes on after its fetch touches the state and the
    console only, and returns normally. *)
Lemma fetch_resume_frame settled w :
  ∃ w' v, _fetchGasFeeEstimateData_resume settled w = (w', Normal v)
          ∧ timers w' = timers w ∧ pending w' = pending w
          ∧ resuming w' = resuming w ∧ fetchCalls w' = fetchCalls w
          ∧ mutex (ctrl w') = mutex (ctrl w)
          ∧ intervalId (ctrl w') = intervalId (ctrl w)
          ∧ intervalDelay (ctrl w') = intervalDelay (ctrl w)
          ∧ pollCount (ctrl w') = pollCount (ctrl w).
Proof. destruct settled; eexists _, _; (split; [reflexivity|]); done. Qed.

Lemma start_resume_eq v w :
  getGasFeeEstimatesAndStartPolling_resume (Normal v) w = (_startPolling w, Normal v).
Proof. reflexivity. Qed.

Lemma startPolling_state w : state (ctrl (_startPolling w)) = state (ctrl w).
Proof. unfold _startPolling, _poll. case_decide; reflexivity. Qed.

(** C1: when the fetch of a refresh fails, [_fetchGasFeeEstimateData]
    catches the error itself: it writes it to the console and returns
    [undefined] normally, with the controller (and so the stored snapshot)
    and the timers exactly as they were.  Neither of its two callers sees an
    exception: the timer callback completes normally, and the start call
    goes on normally with [undefined], starts polling and returns
    [undefined], the snapshot still being what it was.  In the event
    machine: whichever fetch in flight fails, controller and timers are the
    same after the event, so every timer that was armed can still fire, and
    a start call that awaited the fetch is queued to go on with
    [undefined]. *)
Theorem fetch_failure_is_contained (error : Error) (w : World) :
  _fetchGasFeeEstimateData_resume (Throw error) w = (logged error w, Normal None)
  ∧ state (ctrl (logged error w)) = state (ctrl w)
  ∧ timers (logged error w) = timers w
  ∧ timerCallback_resume (Throw error) w = (logged error w, Normal (Some None))
  ∧ getGasFeeEstimatesAndStartPolling_resume (Normal None) (logged error w)
    = (_startPolling (logged error w), Normal None)
  ∧ state (ctrl (_startPolling (logged error w))) = state (ctrl w)
  ∧ ∀ i, match step (Settle i (Throw error)) w with
         | Some w' =>
             ctrl w' = ctrl w
             ∧ state (ctrl w') = state (ctrl w)
             ∧ timers w' = timers w
             ∧ console w' = console w ++ [error]
             ∧ (pending w !! i = Some AwaitStart →
                resuming w' = resuming w ++ [Normal None])
         | None => pending w !! i = None
         end.
Proof.
  assert (Hf := fetch_resume_failure error).
  repeat split; try done.
  - unfold timerCallback_resume, safelyExecute, try_catch, bind. by rewrite Hf.
  - apply (startPolling_state (logged error w)).
  - intros i. unfold step. destruct (pending w !! i) as [k|] eqn:Hk; [|done].
    destruct k.
    + rewrite Hf. simpl. done.
    + unfold timerCallback_resume, safelyExecute, try_catch, bind. rewrite Hf.
      simpl. done.
Qed.

(** *** The reference count *)

Lemma disconnectPoller_pollCount w :
  pollCount (ctrl (fst (disconnectPoller w))) = pollCount (ctrl w) - 1.
Proof.
  unfold disconnectPoller. simpl. case_decide as H; [|reflexivity].
  unfold stopPolling. simpl in *. destruct (intervalId (ctrl w)); simpl; lia.
Qed.

Lemma startPolling_pollCount w :
  pollCount (ctrl (_startPolling w)) = pollCount (ctrl w) + 1.
Proof. unfold _startPolling, _poll. case_decide; reflexivity. Qed.

(** What one event does to the count: a stop takes one away, a start call
    adds one when it completes, nothing else changes it. *)
Lemma step_pollCount ev w w' :
  step ev w = Some w' →
  pollCount (ctrl w') =
    pollCount (ctrl w) +
    match ev with
    | Stop => -1
    | Start => if decide (pollCount (ctrl w) > 0) then 1 else 0
    | Tick _ => 0
    | Settle _ _ => 0
    | Continue j => match resuming w !! j with Some (Normal _) => 1 | _ => 0 end
    end.
Proof.
  destruct ev as [| |h|i settled|j]; cbn [step].
  - intros [= <-]. unfold getGasFeeEstimatesAndStartPolling.
    case_decide; cbn [fst]; [rewrite startPolling_pollCount|simpl]; lia.
  - intros H. assert (w' = fst (disconnectPoller w)) as -> by congruence.
    rewrite disconnectPoller_pollCount. lia.
  - destruct (armed (timers w) !! h); [|done]. intros [= <-]. simpl. lia.
  - destruct (pending w !! i) as [k|]; [|done]. intros [= <-].
    destruct k, settled; simpl; lia.
  - destruct (resuming w !! j) as [[v|e]|]; [| |done]; intros H.
    + rewrite start_resume_eq in H. cbn [fst] in H. apply (inj Some) in H. subst w'.
      rewrite startPolling_pollCount. simpl. lia.
    + injection H as <-. simpl. lia.
Qed.

Lemma guarded_trace_pollCount evs : ∀ w w',
  0 ≤ pollCount (ctrl w) →
  stopsWhilePolling evs w = true →
  run evs w = Some w' →
  0 ≤ pollCount (ctrl w').
Proof.
  induction evs as [|ev evs IH]; intros w w' Hw Hg Hrun; simpl in *.
  - by inversion Hrun; subst.
  - destruct (step ev w) as [w1|] eqn:Hstep; [|done].
    apply andb_prop in Hg as [Hev Hg].
    apply (IH w1 w'); [|done..].
    rewrite (step_pollCount _ _ _ Hstep).
    destruct ev as [| |h|i settled|j].
    + case_decide; lia.
    + apply bool_decide_eq_true in Hev. lia.
    + lia.
    + lia.
    + destruct (resuming w !! j) as [[]|]; lia.
Qed.

(** C3, as the code has it: at count 0 [disconnectPoller] raises
    nothing.  It returns normally with the count at -1 and everything else
    as it was, [stopPolling] not being called; and along every sequence of
    events in which it is only called while the count is positive, a count
    that is non-negative stays so. *)
Theorem disconnectPoller_at_zero_decrements_silently (evs : list Event) (w w' : World) :
  0 ≤ pollCount (ctrl w) →
  stopsWhilePolling evs w = true →
  run evs w = Some w' →
  (∀ v, pollCount (ctrl v) = 0 →
        disconnectPoller v = (with_ctrl (set_pollCount (-1)) v, Normal tt))
  ∧ 0 ≤ pollCount (ctrl w').
Proof.
  intros Hw Hg Hrun. split.
  - intros v Hv. unfold disconnectPoller. case_decide as Hz.
    + simpl in Hz. lia.
    + unfold with_ctrl. by rewrite Hv.
  - eapply guarded_trace_pollCount; eauto.
Qed.

Lemma disconnectPoller_at_zero_decrements_silently_witness :
  ∃ w', run [Start; Settle 0 (Normal sampleEstimates); Continue 0; Start; Stop; Tick 1; Stop]
            (new 15000 defaultState) = Some w'
        ∧ pollCount (ctrl w') = 0
        ∧ disconnectPoller w' = (with_ctrl (set_pollCount (-1)) w', Normal tt).
Proof.
  eexists. split; [vm_compute; reflexivity|]. split; [vm_compute; reflexivity|].
  refine (proj1 (disconnectPoller_at_zero_decrements_silently
            [Start; Settle 0 (Normal sampleEstimates); Continue 0; Start; Stop; Tick 1; Stop]
            (new 15000 defaultState) _ _ _ _) _ _).
  - vm_compute. discriminate.
  - vm_compute. reflexivity.
  - vm_compute. reflexivity.
  - vm_compute. reflexivity.
Defined.

(** C3, the claim as stated fails: on a fresh controller, whose count is
    0, [disconnectPoller] returns normally, no error is raised, and the
    count is -1 afterwards. *)
Lemma disconnectPoller_at_zero_goes_negative :
  let w := new 15000 defaultState in
  pollCount (ctrl w) = 0
  ∧ snd (disconnectPoller w) = Normal tt
  ∧ pollCount (ctrl (fst (disconnectPoller w))) = -1.
Proof. repeat split. Qed.

(** *** Starting *)



End GasFeeFacts.

(** ** GasFeeController: what polling does over whole runs *)
Module GasFeePolicy.

Import GasFee GasFeeFacts.

(** The timers agree with the count: with a positive count exactly the
    timer in [intervalId] is armed, at the delay the controller was built
    with; otherwise none is. *)
Definition pollingMatchesCount (interval : Z) (w : World) : Prop :=
  intervalDelay (ctrl w) = interval
  ∧ (pollCount (ctrl w) > 0 →
     ∃ h, intervalId (ctrl w) = Some h ∧ armed (timers w) = {[h := interval]})
  ∧ (pollCount (ctrl w) ≤ 0 → armed (timers w) = ∅).

Lemma pollingMatchesCount_frame interval w w' :
  timers w' = timers w →
  intervalId (ctrl w') = intervalId (ctrl w) →
  intervalDelay (ctrl w') = intervalDelay (ctrl w) →
  pollCount (ctrl w') = pollCount (ctrl w) →
  pollingMatchesCount interval w → pollingMatchesCount interval w'.
Proof. unfold pollingMatchesCount. intros -> -> -> ->. done. Qed.

Lemma pollingMatchesCount_startPolling interval w :
  pollingMatchesCount interval w → pollingMatchesCount interval (_startPolling w).
Proof.
  intros (Hd & Hpos & Hnone). unfold _startPolling, _poll.
  case_decide as Hz; (split; [done|]); split; simpl.
  - intros _. exists (nextHandle (timers w)). split; [done|].
    rewrite Hnone by lia. rewrite Hd. apply insert_empty.
  - intros. lia.
  - intros Hp. apply Hpos. lia.
  - intros Hp. apply Hnone. lia.
Qed.

Lemma pollingMatchesCount_disconnectPoller interval w :
  pollingMatchesCount interval w → pollingMatchesCount interval (fst (disconnectPoller w)).
Proof.
  intros (Hd & Hpos & Hnone). unfold disconnectPoller. cbn [fst].
  case_decide as Hz; simpl in Hz.
  - destruct Hpos as (h & Hid & Ha); [lia|].
    unfold stopPolling. simpl. rewrite Hid.
    split; [done|]. split; simpl; [intros; lia|]. intros _.
    rewrite Ha. apply delete_singleton_eq.
  - split; [done|]. split; simpl.
    + intros Hp. apply Hpos. lia.
    + intros Hp. apply Hnone. lia.
Qed.

Lemma pollingMatchesCount_step interval ev w w' :
  pollingMatchesCount interval w → step ev w = Some w' → pollingMatchesCount interval w'.
Proof.
  intros Hinv. destruct ev as [| |h|i settled|j]; cbn [step].
  - intros H. assert (w' = fst (getGasFeeEstimatesAndStartPolling w)) as -> by congruence.
    unfold getGasFeeEstimatesAndStartPolling. case_decide; cbn [fst].
    + by apply pollingMatchesCount_startPolling.
    + by eapply pollingMatchesCount_frame.
  - intros H. assert (w' = fst (disconnectPoller w)) as -> by congruence.
    by apply pollingMatchesCount_disconnectPoller.
  - destruct (armed (timers w) !! h); [|done]. intros [= <-].
    by eapply pollingMatchesCount_frame.
  - destruct (pending w !! i) as [k|]; [|done]. intros [= <-].
    destruct k, settled; by eapply pollingMatchesCount_frame.
  - destruct (resuming w !! j) as [[v|e]|]; [| |done]; intros H.
    + rewrite start_resume_eq in H. cbn [fst] in H. apply (inj Some) in H. subst w'.
      apply pollingMatchesCount_startPolling. by eapply pollingMatchesCount_frame.
    + injection H as <-. by eapply pollingMatchesCount_frame.
Qed.

Lemma pollingMatchesCount_run interval evs : ∀ w w',
  pollingMatchesCount interval w → run evs w = Some w' → pollingMatchesCount interval w'.
Proof.
  induction evs as [|ev evs IH]; intros w w' Hinv Hrun; simpl in Hrun.
  - by inversion Hrun; subst.
  - destruct (step ev w) as [w1|] eqn:Hstep; [|done].
    eapply IH; [|done]. by eapply pollingMatchesCount_step.
Qed.

Lemma pollingMatchesCount_new interval s0 : pollingMatchesCount interval (new interval s0).
Proof. split; [done|]. split; [simpl; lia|done]. Qed.

(** X1: in every world reached from a fresh controller, whatever the order
    of starts, stops, ticks and settling fetches (stops at count 0
    included), polling is active exactly when [pollCount] is positive: then
    one timer is armed, the one in [intervalId], at the interval given to
    the constructor, and otherwise no timer is armed; so a timer can fire if
    and only if the count is positive. *)
Theorem polling_active_iff_count_positive
    (interval : Z) (s0 : GasFeeState) (evs : list Event) (w : World) :
  run evs (new interval s0) = Some w →
  intervalDelay (ctrl w) = interval
  ∧ (pollCount (ctrl w) > 0 →
     ∃ h, intervalId (ctrl w) = Some h ∧ armed (timers w) = {[h := interval]})
  ∧ (pollCount (ctrl w) ≤ 0 → armed (timers w) = ∅)
  ∧ ((∃ h w', step (Tick h) w = Some w') ↔ pollCount (ctrl w) > 0).
Proof.
  intros Hrun.
  assert (Hinv : pollingMatchesCount interval w)
    by (eapply pollingMatchesCount_run; [apply pollingMatchesCount_new|done]).
  destruct Hinv as (Hd & Hpos & Hnone).
  split; [done|]. split; [done|]. split; [done|]. split.
  - intros (h & w' & Hstep). unfold step in Hstep.
    destruct (decide (pollCount (ctrl w) > 0)) as [|Hle]; [done|].
    rewrite Hnone, lookup_empty in Hstep by lia. done.
  - intros Hp. destruct (Hpos Hp) as (h & _ & Ha).
    exists h. unfold step. rewrite Ha, lookup_singleton_eq. by eexists.
Qed.

Lemma polling_active_iff_count_positive_witness :
  ∃ w, run [Stop; Start; Start; Settle 1 (Throw "offline"); Continue 0;
            Settle 0 (Normal sampleEstimates); Continue 0; Start]
           (new 2000 defaultState) = Some w
       ∧ pollCount (ctrl w) = 2
       ∧ ∃ h, intervalId (ctrl w) = Some h ∧ armed (timers w) = {[h := 2000]}.
Proof.
  eexists. split; [vm_compute; reflexivity|]. split; [vm_compute; reflexivity|].
  match goal with |- ∃ h, intervalId (ctrl ?w) = _ ∧ _ =>
    exact (proj1 (proj2 (polling_active_iff_count_positive 2000 defaultState
      [Stop; Start; Start; Settle 1 (Throw "offline"); Continue 0;
       Settle 0 (Normal sampleEstimates); Continue 0; Start] w
      ltac:(vm_compute; reflexivity))) ltac:(vm_compute; reflexivity))
  end.
Defined.

(** The legacy gas prices that [_fetchGasFeeEstimateData] derives from
    fetched estimates (lines 268-280). *)
Definition legacyOf (estimates : GasFeeEstimates) : Legacy.LegacyGasPriceEstimates :=
  {| Legacy.low := {| gasPrice := suggestedMaxFeePerGas (low estimates) |};
     Legacy.medium := {| gasPrice := suggestedMaxFeePerGas (medium estimates) |};
     Legacy.high := {| gasPrice := suggestedMaxFeePerGas (high estimates) |} |}.

(** The states a controller constructed with [s0] can be in. *)
Definition stateFetched (s0 s : GasFeeState) : Prop :=
  s = s0 ∨ s = defaultState
  ∨ ∃ estimates, s = {| legacyGasPriceEstimates := Some (legacyOf estimates);
                        gasFeeEstimates := Some estimates |}.

Lemma fetch_resume_state settled w :
  let s := state (ctrl (fst (_fetchGasFeeEstimateData_resume settled w))) in
  match settled with
  | Normal estimates => s = {| legacyGasPriceEstimates := Some (legacyOf estimates);
                               gasFeeEstimates := Some estimates |}
  | Throw _ => s = state (ctrl w)
  end.
Proof. destruct settled; [reflexivity|]. by rewrite fetch_resume_failure. Qed.

Lemma stateFetched_resume s0 settled w :
  stateFetched s0 (state (ctrl w)) →
  stateFetched s0 (state (ctrl (fst (_fetchGasFeeEstimateData_resume settled w)))).
Proof.
  intros Hinv. pose proof (fetch_resume_state settled w) as Hs. cbv zeta in Hs.
  destruct settled as [estimates|error].
  - right. right. by exists estimates.
  - by rewrite Hs.
Qed.

Lemma stateFetched_step s0 ev w w' :
  stateFetched s0 (state (ctrl w)) → step ev w = Some w' → stateFetched s0 (state (ctrl w')).
Proof.
  intros Hinv. destruct ev as [| |h|i settled|j]; cbn [step].
  - intros H. assert (w' = fst (getGasFeeEstimatesAndStartPolling w)) as -> by congruence.
    unfold getGasFeeEstimatesAndStartPolling. case_decide; cbn [fst].
    + by rewrite startPolling_state.
    + done.
  - intros H. assert (w' = fst (disconnectPoller w)) as -> by congruence.
    unfold disconnectPoller. cbn [fst]. case_decide.
    + right. by left.
    + done.
  - destruct (armed (timers w) !! h); [|done]. by intros [= <-].
  - destruct (pending w !! i) as [k|]; [|done]. intros H. apply (inj Some) in H. subst w'.
    set (w1 := mkWorld (ctrl w) (timers w) (delete i (pending w)) (resuming w)
                       (fetchCalls w) (console w)).
    pose proof (stateFetched_resume s0 settled w1 Hinv) as Hs.
    destruct k.
    + by destruct (_fetchGasFeeEstimateData_resume settled w1).
    + unfold timerCallback_resume, safelyExecute.
      destruct (fetch_resume_frame settled w1) as (w2 & v & Heq & _).
      unfold try_catch, bind. rewrite Heq in Hs |- *. exact Hs.
  - destruct (resuming w !! j) as [[v|e]|]; [| |done]; intros H.
    + rewrite start_resume_eq in H. cbn [fst] in H. apply (inj Some) in H. subst w'.
      by rewrite startPolling_state.
    + by injection H as <-.
Qed.

(** X2: the state of a controller is never half an update.  In every world
    reached from a fresh controller, whatever the order of starts, stops,
    ticks and fetches that succeed or fail, the state is the one handed to
    the constructor, or the default state (both fields undefined), or the
    estimates of one successful fetch together with the legacy gas prices
    derived from these same estimates: the suggested maximal fees of their
    low, medium and high entry. *)
Theorem state_is_initial_default_or_one_fetch
    (interval : Z) (s0 : GasFeeState) (evs : list Event) (w : World) :
  run evs (new interval s0) = Some w →
  state (ctrl w) = s0
  ∨ state (ctrl w) = defaultState
  ∨ ∃ estimates legacy,
      gasFeeEstimates (state (ctrl w)) = Some estimates
      ∧ legacyGasPriceEstimates (state (ctrl w)) = Some legacy
      ∧ gasPrice (Legacy.low legacy) = suggestedMaxFeePerGas (low estimates)
      ∧ gasPrice (Legacy.medium legacy) = suggestedMaxFeePerGas (medium estimates)
      ∧ gasPrice (Legacy.high legacy) = suggestedMaxFeePerGas (high estimates).
Proof.
  intros Hrun.
  assert (Hinv : stateFetched s0 (state (ctrl w))).
  { assert (Hnew : stateFetched s0 (state (ctrl (new interval s0)))) by by left.
    revert Hnew Hrun. generalize (new interval s0). clear interval.
    induction evs as [|ev evs IH]; intros w0 Hinv Hrun; simpl in Hrun.
    - by inversion Hrun; subst.
    - destruct (step ev w0) as [w1|] eqn:Hstep; [|done].
      eapply IH; [|done]. by eapply stateFetched_step. }
  destruct Hinv as [?|[?|(estimates & Hs)]]; [by left|by right; left|].
  right. right. exists estimates, (legacyOf estimates). by rewrite Hs.
Qed.

Lemma state_is_initial_default_or_one_fetch_witness :
  ∃ w, run [Start; Settle 0 (Normal sampleEstimates); Continue 0; Tick 1;
            Settle 0 (Throw "offline")]
           (new 15000 defaultState) = Some w
       ∧ gasFeeEstimates (state (ctrl w)) = Some sampleEstimates
       ∧ (state (ctrl w) = defaultState
          ∨ state (ctrl w) = defaultState
          ∨ ∃ estimates legacy,
              gasFeeEstimates (state (ctrl w)) = Some estimates
              ∧ legacyGasPriceEstimates (state (ctrl w)) = Some legacy
              ∧ gasPrice (Legacy.low legacy) = suggestedMaxFeePerGas (low estimates)
              ∧ gasPrice (Legacy.medium legacy) = suggestedMaxFeePerGas (medium estimates)
              ∧ gasPrice (Legacy.high legacy) = suggestedMaxFeePerGas (high estimates)).
Proof.
  eexists. split; [vm_compute; reflexivity|]. split; [vm_compute; reflexivity|].
  match goal with |- state (ctrl ?w) = _ ∨ _ =>
    exact (state_is_initial_default_or_one_fetch 15000 defaultState
      [Start; Settle 0 (Normal sampleEstimates); Continue 0; Tick 1;
       Settle 0 (Throw "offline")] w ltac:(vm_compute; reflexivity))
  end.
Defined.

(** X5: a stop that is not the last one keeps polling as it is.  In a
    world reached from a fresh controller whose count is at least 2,
    [disconnectPoller] takes one from the count and changes nothing else:
    the same single timer stays armed and the state is kept. *)
Theorem stop_with_other_pollers_keeps_polling
    (interval : Z) (s0 : GasFeeState) (evs : list Event) (w : World) :
  run evs (new interval s0) = Some w →
  2 ≤ pollCount (ctrl w) →
  let w' := fst (disconnectPoller w) in
  pollCount (ctrl w') = pollCount (ctrl w) - 1
  ∧ state (ctrl w') = state (ctrl w)
  ∧ timers w' = timers w
  ∧ (∃ h, intervalId (ctrl w') = Some h ∧ armed (timers w') = {[h := interval]})
  ∧ intervalId (ctrl w') = intervalId (ctrl w)
  ∧ intervalDelay (ctrl w') = intervalDelay (ctrl w)
  ∧ mutex (ctrl w') = mutex (ctrl w)
  ∧ pending w' = pending w
  ∧ resuming w' = resuming w
  ∧ fetchCalls w' = fetchCalls w
  ∧ console w' = console w.
Proof.
  intros Hrun Hge w'.
  assert (Hinv : pollingMatchesCount interval w)
    by (eapply pollingMatchesCount_run; [apply pollingMatchesCount_new|done]).
  destruct Hinv as (_ & Hpos & _). destruct Hpos as (h & Hid & Ha); [lia|].
  assert (Hw' : w' = with_ctrl (fun c => set_pollCount (pollCount c - 1) c) w).
  { unfold w', disconnectPoller. cbn [fst]. case_decide as Hz; [|done]. simpl in Hz. lia. }
  rewrite Hw'. simpl. split; [done|]. split; [done|]. split; [done|].
  split; [by exists h|]. done.
Qed.

Lemma stop_with_other_pollers_keeps_polling_witness :
  ∃ w, run [Start; Settle 0 (Normal sampleEstimates); Continue 0; Start]
           (new 15000 defaultState) = Some w
       ∧ pollCount (ctrl (fst (disconnectPoller w))) = 2 - 1
       ∧ state (ctrl (fst (disconnectPoller w))) = state (ctrl w).
Proof.
  eexists. split; [vm_compute; reflexivity|].
  match goal with |- pollCount (ctrl (fst (disconnectPoller ?w))) = _ ∧ _ =>
    pose proof (stop_with_other_pollers_keeps_polling 15000 defaultState
      [Start; Settle 0 (Normal sampleEstimates); Continue 0; Start] w
      ltac:(vm_compute; reflexivity) ltac:(vm_compute; discriminate)) as H
  end.
  cbv zeta in H. destruct H as (Hp & Hs & _). split; [exact Hp|exact Hs].
Defined.

End GasFeePolicy.

(** ** GasFeeController as the constructor leaves it *)
Module GasFeeWrittenFacts.

Import GasFee GasFeeFacts GasFeePolicy GasFeeWritten.

(** A start call suspended on line 250 with what its refresh returned. *)
Definition queued (refreshed : Completion (option GasFeeState)) (w : World) : World :=
  mkWorld (ctrl w) (timers w) (pending w) (resuming w ++ [refreshed]) (fetchCalls w) (console w).

(** Every refresh ends where it starts: the error is logged, nothing is
    stored, and [undefined] is returned. *)
Lemma refresh_fails w :
  _fetchGasFeeEstimateData w = (logged notAFunction w, Normal None).
Proof. destruct w as [[] ? ? ? ? ?]. reflexivity. Qed.

Lemma refresh_is_rejected_fetch w :
  _fetchGasFeeEstimateData w = _fetchGasFeeEstimateData_resume (Throw notAFunction) w.
Proof. by rewrite refresh_fails, fetch_resume_failure. Qed.

Lemma start_at_zero w :
  pollCount (ctrl w) ≤ 0 →
  getGasFeeEstimatesAndStartPolling w
  = (queued (Normal None) (logged notAFunction w), Suspended).
Proof.
  intros Hz. unfold getGasFeeEstimatesAndStartPolling.
  case_decide; [lia|]. by rewrite refresh_fails.
Qed.

Lemma start_above_zero w :
  pollCount (ctrl w) > 0 →
  getGasFeeEstimatesAndStartPolling w
  = (_startPolling w, Returned (Normal (Some (state (ctrl w))))).
Proof. intros Hz. unfold getGasFeeEstimatesAndStartPolling. by case_decide; [|lia]. Qed.

Lemma timerCallback_eq w :
  timerCallback w = (logged notAFunction w, Normal (Some None)).
Proof. unfold timerCallback, safelyExecute, try_catch, bind. by rewrite refresh_fails. Qed.

Lemma startPolling_frame w :
  pending (_startPolling w) = pending w
  ∧ resuming (_startPolling w) = resuming w
  ∧ fetchCalls (_startPolling w) = fetchCalls w
  ∧ console (_startPolling w) = console w
  ∧ mutex (ctrl (_startPolling w)) = mutex (ctrl w)
  ∧ state (ctrl (_startPolling w)) = state (ctrl w).
Proof. unfold _startPolling, _poll. case_decide; done. Qed.

Lemma disconnectPoller_frame w :
  let w' := fst (disconnectPoller w) in
  pending w' = pending w
  ∧ resuming w' = resuming w
  ∧ fetchCalls w' = fetchCalls w
  ∧ console w' = console w
  ∧ mutex (ctrl w') = mutex (ctrl w)
  ∧ (state (ctrl w') = state (ctrl w) ∨ state (ctrl w') = defaultState).
Proof.
  unfold disconnectPoller. cbn [fst]. case_decide; [|repeat split; by left].
  unfold stopPolling. cbn. destruct (intervalId (ctrl w)); repeat split; by right.
Qed.

(** What holds of every world of the controller as written: the timers
    agree with the count, no fetch was ever called or is in flight, the
    mutex is as it was made, every suspended start call will go on with
    [undefined], and the state is the constructor's or the default one. *)
Definition asWritten (interval : Z) (s0 : GasFeeState) (w : World) : Prop :=
  pollingMatchesCount interval w
  ∧ pending w = []
  ∧ fetchCalls w = 0%nat
  ∧ mutex (ctrl w) = newMutex
  ∧ Forall (fun refreshed => refreshed = Normal None) (resuming w)
  ∧ (state (ctrl w) = s0 ∨ state (ctrl w) = defaultState).

Lemma asWritten_new interval s0 : asWritten interval s0 (new interval s0).
Proof.
  split; [apply pollingMatchesCount_new|].
  split; [done|]. split; [done|]. split; [done|]. split; [apply Forall_nil_2|by left].
Qed.

Lemma asWritten_startPolling interval s0 w :
  asWritten interval s0 w → asWritten interval s0 (_startPolling w).
Proof.
  intros (Hpoll & Hpe & Hf & Hm & Hre & Hs).
  destruct (startPolling_frame w) as (Hpe' & Hre' & Hf' & _ & Hm' & Hs').
  unfold asWritten. rewrite Hpe', Hre', Hf', Hm', Hs'.
  split; [by apply pollingMatchesCount_startPolling|done].
Qed.

Lemma asWritten_step interval s0 ev w w' :
  asWritten interval s0 w → step ev w = Some w' → asWritten interval s0 w'.
Proof.
  intros Hinv. pose proof Hinv as (Hpoll & Hpe & Hf & Hm & Hre & Hs).
  destruct ev as [| |h|j]; cbn [step].
  - intros H. apply (inj Some) in H. subst w'.
    destruct (decide (pollCount (ctrl w) > 0)) as [Hpos|Hle].
    + rewrite start_above_zero by done. by apply asWritten_startPolling.
    + rewrite start_at_zero by lia. cbn [fst].
      split; [by eapply pollingMatchesCount_frame|]. repeat split; try done.
      cbn. apply Forall_app. split; [done|]. by apply Forall_singleton.
  - intros H. apply (inj Some) in H. subst w'.
    destruct (disconnectPoller_frame w) as (Hpe' & Hre' & Hf' & _ & Hm' & Hs').
    cbv zeta in *. split; [by apply pollingMatchesCount_disconnectPoller|].
    rewrite Hpe', Hre', Hf', Hm'. repeat split; try done.
    destruct Hs' as [Hs'|Hs']; rewrite Hs'; [done|by right].
  - destruct (armed (timers w) !! h); [|done]. intros H. apply (inj Some) in H. subst w'.
    rewrite timerCallback_eq. cbn [fst].
    split; [by eapply pollingMatchesCount_frame|done].
  - destruct (resuming w !! j) as [refreshed|] eqn:Hj; [|done].
    intros H. apply (inj Some) in H. subst w'.
    assert (refreshed = Normal None) as ->.
    { eapply (proj1 (Forall_forall _ _) Hre). by eapply list_elem_of_lookup_2. }
    rewrite start_resume_eq. cbn [fst]. apply asWritten_startPolling.
    split; [by eapply pollingMatchesCount_frame|]. repeat split; try done.
    cbn. by apply Forall_delete.
Qed.

Lemma asWritten_run interval s0 evs : ∀ w w',
  asWritten interval s0 w → run evs w = Some w' → asWritten interval s0 w'.
Proof.
  induction evs as [|ev evs IH]; intros w w' Hinv Hrun; simpl in Hrun.
  - by inversion Hrun; subst.
  - destruct (step ev w) as [w1|] eqn:Hstep; [|done].
    eapply IH; [|done]. by eapply asWritten_step.
Qed.










(** X4: a session of one caller leaves no polling behind.  In a world
    reached from a fresh controller whose count is 0, a start call that goes
    on, followed by a stop, ends with the count at 0 again and no timer
    armed, so that no timer can fire; one refresh was run, no fetch was
    made, and the start calls of others that are suspended are still
    suspended. *)
Theorem start_then_stop_leaves_no_polling
    (interval : Z) (s0 : GasFeeState) (evs : list Event) (w : World) :
  run evs (new interval s0) = Some w →
  pollCount (ctrl w) = 0 →
  ∃ w', run [Start; Continue (length (resuming w)); Stop] w = Some w'
        ∧ pollCount (ctrl w') = 0
        ∧ armed (timers w') = ∅
        ∧ (∀ h, step (Tick h) w' = None)
        ∧ console w' = console w ++ [notAFunction]
        ∧ fetchCalls w' = 0%nat
        ∧ pending w' = []
        ∧ resuming w' = resuming w.
Proof.
  intros Hrun Hz.
  assert (Hinv : asWritten interval s0 w)
    by (eapply asWritten_run; [apply asWritten_new|done]).
  cbn [run step]. rewrite start_at_zero by lia. cbn [fst].
  cbn [queued resuming logged].
  rewrite lookup_app_r by done. rewrite Nat.sub_diag. cbn [lookup list_lookup].
  cbn [ctrl timers pending fetchCalls console].
  rewrite delete_middle, app_nil_r. rewrite start_resume_eq. cbn [fst].
  set (w1 := mkWorld _ _ _ _ _ _).
  assert (Hinv1 : asWritten interval s0 w1).
  { destruct Hinv as (Hpoll & ? & ? & ? & ? & ?).
    split; [by eapply pollingMatchesCount_frame|done]. }
  assert (Hz1 : pollCount (ctrl w1) = 0) by done.
  pose proof (asWritten_startPolling _ _ _ Hinv1) as Hinv2.
  pose proof (startPolling_pollCount w1) as Hp2. rewrite Hz1 in Hp2.
  destruct (startPolling_frame w1) as (_ & Hre2 & _ & Hk2 & _).
  set (w2 := _startPolling w1) in *.
  pose proof (asWritten_step _ _ Stop w2 _ Hinv2 eq_refl) as Hinv3.
  pose proof (disconnectPoller_pollCount w2) as Hp3. rewrite Hp2 in Hp3.
  destruct (disconnectPoller_frame w2) as (_ & Hre3 & _ & Hk3 & _). cbv zeta in *.
  exists (fst (disconnectPoller w2)). split; [done|].
  destruct Hinv3 as ((_ & _ & Hnone) & Hpe3 & Hf3 & _).
  assert (Ha : armed (timers (fst (disconnectPoller w2))) = ∅) by (apply Hnone; lia).
  split; [lia|]. split; [done|].
  split; [intros h; cbn [step]; by rewrite Ha, lookup_empty|].
  rewrite Hk3, Hk2, Hre3, Hre2. done.
Qed.

Lemma start_then_stop_leaves_no_polling_witness :
  ∃ w', run [Start; Continue 0; Stop] (new 15000 defaultState) = Some w'
        ∧ pollCount (ctrl w') = 0
        ∧ armed (timers w') = ∅
        ∧ console w' = [notAFunction].
Proof.
  destruct (start_then_stop_leaves_no_polling 15000 defaultState [] (new 15000 defaultState)
              eq_refl eq_refl) as (w' & Hrun & Hp & Ha & _ & Hk & _).
  exists w'. split; [exact Hrun|]. split; [exact Hp|]. split; [exact Ha|exact Hk].
Defined.

(** The world [w] with another count of fetch calls. *)
Definition called (n : nat) (w : World) : World :=
  mkWorld (ctrl w) (timers w) (pending w) (resuming w) n (console w).

(** Is every fetch that settles in a trace of the machine with the
    collaborator rejected with the error of the missing member? *)
Definition allRejected (evs : list GasFee.Event) : Prop :=
  ∀ ev, ev ∈ evs →
        match ev with
        | GasFee.Settle _ settled => settled = Throw notAFunction
        | _ => True
        end.

Lemma model_run_app evs1 evs2 w :
  GasFee.run (evs1 ++ evs2) w = GasFee.run evs1 w ≫= GasFee.run evs2.
Proof.
  revert w. induction evs1 as [|ev evs1 IH]; intros w; simpl; [done|].
  destruct (GasFee.step ev w); [apply IH|done].
Qed.

Lemma written_step_is_model_run ev w w' n :
  pending w = [] →
  step ev w = Some w' →
  pending w' = []
  ∧ ∃ evs' n', GasFee.run evs' (called n w) = Some (called n' w') ∧ allRejected evs'.
Proof.
  intros Hpe. destruct w as [c t p r f k]. cbn [pending] in Hpe. subst p.
  destruct ev as [| |h|j]; cbn [step].
  - intros H. apply (inj Some) in H. subst w'.
    destruct (decide (pollCount c > 0)) as [Hpos|Hle].
    + rewrite start_above_zero by done. cbn [fst].
      split; [by destruct (startPolling_frame (mkWorld c t [] r f k)) as (-> & _)|].
      exists [GasFee.Start], n. split.
      * cbn. unfold GasFee.getGasFeeEstimatesAndStartPolling. cbn [ctrl called].
        rewrite decide_True by done. cbn [fst]. f_equal.
        unfold _startPolling, _poll, called. cbn. by case_decide.
      * intros ev Hev. apply list_elem_of_singleton in Hev. by subst ev.
    + rewrite start_at_zero by (cbn; lia). cbn [fst]. split; [done|].
      exists [GasFee.Start; GasFee.Settle 0 (Throw notAFunction)], (S n). split.
      * cbn. unfold GasFee.getGasFeeEstimatesAndStartPolling. cbn [ctrl called].
        rewrite decide_False by done. cbn. destruct c. reflexivity.
      * intros ev Hev. apply list_elem_of_In in Hev.
        destruct Hev as [<-|[<-|[]]]; done.
  - intros H. apply (inj Some) in H. subst w'.
    split; [by destruct (disconnectPoller_frame (mkWorld c t [] r f k)) as (-> & _)|].
    exists [GasFee.Stop], n. split.
    + cbn. f_equal. unfold disconnectPoller, stopPolling, called. cbn.
      case_decide; [|done]. by destruct (intervalId c).
    + intros ev Hev. apply list_elem_of_singleton in Hev. by subst ev.
  - cbn [timers]. destruct (armed t !! h) as [d|] eqn:Hh; [|done].
    intros H. apply (inj Some) in H. subst w'. rewrite timerCallback_eq. cbn [fst].
    split; [done|].
    exists [GasFee.Tick h; GasFee.Settle 0 (Throw notAFunction)], (S n). split.
    + cbn. rewrite Hh. cbn. destruct c. reflexivity.
    + intros ev Hev. apply list_elem_of_In in Hev.
      destruct Hev as [<-|[<-|[]]]; done.
  - cbn [resuming]. destruct (r !! j) as [refreshed|] eqn:Hj; [|done].
    intros H. apply (inj Some) in H. subst w'. cbn [ctrl timers pending fetchCalls console].
    split.
    + destruct refreshed as [v|e]; [|done]. rewrite start_resume_eq. cbn [fst].
      by destruct (startPolling_frame (mkWorld c t [] (delete j r) f k)) as (-> & _).
    + exists [GasFee.Continue j], n. split.
      * cbn. rewrite Hj. f_equal. destruct refreshed as [v|e]; [|done].
        cbn [fst]. unfold _startPolling, _poll, called. cbn. by case_decide.
      * intros ev Hev. apply list_elem_of_singleton in Hev. by subst ev.
Qed.

(** X23: the runs of the controller as the source has it are runs of the
    machine in which the member holds the collaborator.  Whatever sequence
    of starts, stops, ticks and resumed start calls the controller goes
    through, the machine with the collaborator reaches the same controller,
    timers, suspended start calls and console by a sequence of its own
    events in which every fetch that settles is rejected with the error of
    the missing member, and no fetch is in flight at the end. *)
Theorem written_runs_are_runs_with_rejected_fetches
    (interval : Z) (s0 : GasFeeState) (evs : list Event) (w : World) :
  run evs (new interval s0) = Some w →
  ∃ evs' w',
    GasFee.run evs' (new interval s0) = Some w'
    ∧ allRejected evs'
    ∧ ctrl w' = ctrl w
    ∧ timers w' = timers w
    ∧ resuming w' = resuming w
    ∧ console w' = console w
    ∧ pending w' = []
    ∧ pending w = [].
Proof.
  intros Hrun.
  assert (Hgen : ∀ evs v n, pending v = [] → run evs v = Some w →
            pending w = []
            ∧ ∃ evs' n', GasFee.run evs' (called n v) = Some (called n' w) ∧ allRejected evs').
  { clear. induction evs as [|ev evs IH]; intros v n Hpe Hrun; simpl in Hrun.
    - apply (inj Some) in Hrun. subst v. split; [done|].
      exists [], n. split; [done|]. intros ev Hev. by apply elem_of_nil in Hev.
    - destruct (step ev v) as [v1|] eqn:Hstep; [|done].
      destruct (written_step_is_model_run ev v v1 n Hpe Hstep)
        as (Hpe1 & evs1 & n1 & Hrun1 & Hrej1).
      destruct (IH v1 n1 Hpe1 Hrun) as (Hpew & evs2 & n2 & Hrun2 & Hrej2).
      split; [done|]. exists (evs1 ++ evs2), n2. split.
      + rewrite model_run_app, Hrun1. exact Hrun2.
      + intros e He. apply elem_of_app in He as [He|He]; [by apply Hrej1|by apply Hrej2]. }
  destruct (Hgen evs (new interval s0) 0%nat eq_refl Hrun) as (Hpe & evs' & n' & Hrun' & Hrej).
  exists evs', (called n' w). split; [exact Hrun'|]. split; [exact Hrej|]. done.
Qed.

Lemma written_runs_are_runs_with_rejected_fetches_witness :
  ∃ w evs' w',
    run [Start; Start; Continue 0; Continue 0; Tick 1; Stop] (new 15000 defaultState) = Some w
    ∧ GasFee.run evs' (new 15000 defaultState) = Some w'
    ∧ ctrl w' = ctrl w
    ∧ timers w' = timers w
    ∧ console w' = console w.
Proof.
  eexists.
  match goal with |- ∃ evs' w', ?r = Some ?w ∧ _ =>
    let v := eval vm_compute in r in
    match v with Some ?x => unify w x end
  end.
  match goal with |- ∃ evs' w', _ = Some ?w ∧ _ =>
    destruct (written_runs_are_runs_with_rejected_fetches 15000 defaultState
                [Start; Start; Continue 0; Continue 0; Tick 1; Stop] w
                ltac:(vm_compute; reflexivity))
      as (evs' & w' & Hrun' & _ & Hc & Ht & _ & Hk & _)
  end.
  exists evs', w'. split; [vm_compute; reflexivity|]. split; [exact Hrun'|].
  split; [exact Hc|]. split; [exact Ht|exact Hk].
Defined.

End GasFeeWrittenFacts.

(** ** TokenRatesController *)
Module TokenRatesFacts.

Import TokenRates.

Section WithChecksum.

Variable toChecksumAddress : string -> string.

Local Abbreviation step := (step toChecksumAddress).
Local Abbreviation run := (run toChecksumAddress).

(** Only the timer whose handle the controller holds can be armed, and
    handles still to be given out are not held. *)
Definition handleOwned (w : World) : Prop :=
  (∀ h d, armed (timers w) !! h = Some d → handle (ctrl w) = Some h)
  ∧ (∀ h, handle (ctrl w) = Some h → (h < nextHandle (timers w))%nat).

Lemma updateExchangeRates_frame w :
  ctrl (fst (updateExchangeRates w)) = ctrl w
  ∧ timers (fst (updateExchangeRates w)) = timers w.
Proof. unfold TokenRates.updateExchangeRates. by destruct (_ || _). Qed.

Lemma set_interval_spec interval w :
  let w' := set_interval interval w in
  let h' := nextHandle (timers w) in
  handle (ctrl w') = Some h'
  ∧ nextHandle (timers w') = S h'
  ∧ armed (timers w') =
      <[h' := interval]> (match handle (ctrl w) with
                          | Some h => delete h (armed (timers w))
                          | None => armed (timers w)
                          end)
  ∧ disabled (ctrl w') = disabled (ctrl w)
  ∧ nativeCurrency (ctrl w') = nativeCurrency (ctrl w)
  ∧ tokenList (ctrl w') = tokenList (ctrl w)
  ∧ state (ctrl w') = state (ctrl w).
Proof.
  unfold TokenRates.set_interval.
  set (w1 := match handle (ctrl w) with Some _ => _ | None => _ end).
  destruct (updateExchangeRates_frame w1) as [Hc Ht].
  simpl. rewrite Hc, Ht. subst w1.
  destruct (handle (ctrl w)); simpl; done.
Qed.

Lemma handleOwned_new isDisabled currency : handleOwned (new isDisabled currency).
Proof. split; [intros h d H; simpl in H; by rewrite lookup_empty in H|done]. Qed.

Lemma owned_cleared w :
  handleOwned w →
  match handle (ctrl w) with
  | Some h => delete h (armed (timers w))
  | None => armed (timers w)
  end = ∅.
Proof.
  intros [Hown _]. apply map_eq. intros h. rewrite lookup_empty.
  destruct (handle (ctrl w)) as [h0|] eqn:Hh.
  - destruct (decide (h0 = h)) as [->|Hne]; [apply lookup_delete_eq|].
    rewrite lookup_delete_ne by done.
    destruct (armed (timers w) !! h) as [d|] eqn:Ha; [|done].
    apply Hown in Ha. congruence.
  - destruct (armed (timers w) !! h) as [d|] eqn:Ha; [|done].
    apply Hown in Ha. congruence.
Qed.

Lemma handleOwned_step ev w w' :
  handleOwned w → step ev w = Some w' → handleOwned w'.
Proof.
  intros Hinv. destruct ev as [interval|tokens|h|i settled]; cbn [TokenRates.step].
  - intros H. assert (w' = set_interval interval w) as -> by congruence.
    destruct (set_interval_spec interval w) as (Hh & Hn & Ha & _).
    rewrite (owned_cleared w Hinv) in Ha. split.
    + intros h d. rewrite Ha, Hh, lookup_insert.
      case_decide; [by subst|]. by rewrite lookup_empty.
    + intros h. rewrite Hh, Hn. intros [= <-]. lia.
  - intros H. assert (w' = set_tokens tokens w) as -> by congruence.
    unfold set_tokens.
    destruct (updateExchangeRates_frame
                (mkWorld (set_tokenList tokens (ctrl w)) (timers w) (pending w) (fetchCalls w)))
      as [Hc Ht].
    unfold handleOwned. rewrite Hc, Ht. exact Hinv.
  - destruct (armed (timers w) !! h); [|done]. intros H.
    assert (w' = fst (updateExchangeRates w)) as -> by congruence.
    destruct (updateExchangeRates_frame w) as [Hc Ht].
    unfold handleOwned. rewrite Hc, Ht. exact Hinv.
  - destruct (pending w !! i); [|done]. intros [= <-].
    destruct settled; exact Hinv.
Qed.

Lemma handleOwned_run evs : ∀ w w',
  handleOwned w → run evs w = Some w' → handleOwned w'.
Proof.
  induction evs as [|ev evs IH]; intros w w' Hinv Hrun; simpl in Hrun.
  - by inversion Hrun; subst.
  - destruct (TokenRates.step toChecksumAddress ev w) as [w1|] eqn:Hstep; [|done].
    eapply IH; [|done]. by eapply handleOwned_step.
Qed.

(** C8: in a world reached from a fresh controller, assigning [interval]
    clears the timer armed before, if there was one, and arms one new timer
    with the new interval: afterwards exactly that timer is armed, its
    handle is the one the controller holds, and the handle held before is
    not armed.  The controller keeps no reference count; apart from its
    [handle] none of its fields changes. *)
Theorem interval_setter_rearms_single_timer
    (isDisabled : bool) (currency : string) (evs : list Event) (w : World) (interval : Z) :
  run evs (new isDisabled currency) = Some w →
  let w' := set_interval interval w in
  ∃ h', handle (ctrl w') = Some h'
        ∧ armed (timers w') = {[h' := interval]}
        ∧ (∀ h, handle (ctrl w) = Some h → armed (timers w') !! h = None)
        ∧ disabled (ctrl w') = disabled (ctrl w)
        ∧ nativeCurrency (ctrl w') = nativeCurrency (ctrl w)
        ∧ tokenList (ctrl w') = tokenList (ctrl w)
        ∧ state (ctrl w') = state (ctrl w).
Proof.
  intros Hrun w'.
  assert (Hinv : handleOwned w)
    by (eapply handleOwned_run; [apply handleOwned_new|done]).
  destruct (set_interval_spec interval w) as (Hh & _ & Ha & Hd & Hc & Hl & Hs).
  rewrite (owned_cleared w Hinv) in Ha. fold w' in Hh, Ha, Hd, Hc, Hl, Hs.
  exists (nextHandle (timers w)). repeat split; try done.
  intros h Hold. rewrite Ha. apply lookup_insert_None. split; [apply lookup_empty|].
  destruct Hinv as [_ Hlt]. apply Hlt in Hold. lia.
Qed.

(** C9: when the controller is disabled, or tracks no token,
    [updateExchangeRates] returns at once: the call completes normally
    without suspending on a fetch, and the world, with the number of fetch
    calls, the fetches in flight and the whole state, is what it was. *)
Theorem updateExchangeRates_skips_when_idle (w : World) :
  disabled (ctrl w) = true ∨ tokenList (ctrl w) = [] →
  updateExchangeRates w = (w, Returned (Normal tt))
  ∧ fetchCalls (fst (updateExchangeRates w)) = fetchCalls w
  ∧ state (ctrl (fst (updateExchangeRates w))) = state (ctrl w).
Proof.
  intros H.
  assert (Heq : updateExchangeRates w = (w, Returned (Normal tt))).
  { unfold TokenRates.updateExchangeRates.
    destruct H as [-> | ->]; [done|]. by rewrite orb_true_r. }
  by rewrite Heq.
Qed.

End WithChecksum.

(** A stand-in for [toChecksumAddress] in examples. *)
Definition sampleChecksum (s : string) : string := s.

Definition sampleTokens : list Token :=
  [ {| address := "0xAb"; decimals := 18; symbol := "FOO" |} ].

Lemma interval_setter_rearms_single_timer_witness :
  ∃ w, TokenRates.run sampleChecksum
         [AssignInterval 180000; AssignTokens sampleTokens; Tick 1] (new false "eth") = Some w
       ∧ armed (timers w) = {[1%nat := 180000]}
       ∧ ∃ h', handle (ctrl (TokenRates.set_interval 1338 w)) = Some h'
               ∧ armed (timers (TokenRates.set_interval 1338 w)) = {[h' := 1338]}.
Proof.
  eexists. split; [vm_compute; reflexivity|]. split; [vm_compute; reflexivity|].
  match goal with |- ∃ h', handle (ctrl (TokenRates.set_interval _ ?w)) = _ ∧ _ =>
    destruct (interval_setter_rearms_single_timer sampleChecksum false "eth"
      [AssignInterval 180000; AssignTokens sampleTokens; Tick 1] w 1338
      ltac:(vm_compute; reflexivity)) as (h' & Hh & Ha & _)
  end.
  exists h'. split; [exact Hh|exact Ha].
Defined.

Lemma updateExchangeRates_skips_when_idle_witness :
  let w := new true "eth" in
  TokenRates.updateExchangeRates w = (w, Returned (Normal tt)).
Proof.
  exact (proj1 (updateExchangeRates_skips_when_idle (new true "eth") (or_introl eq_refl))).
Defined.

End TokenRatesFacts.

(** ** TokenRatesController: fetching and storing rates *)
Module TokenRatesPolicy.

Import TokenRates TokenRatesFacts.

(** Does the character occur in the string? *)
Fixpoint occurs (c : ascii) (s : string) : bool :=
  match s with
  | EmptyString => false
  | String a s' => bool_decide (a = c) || occurs c s'
  end.

Lemma beforeSlash_pair (a b : string) :
  occurs "/" a = false → beforeSlash (a +:+ "/" +:+ b) = a.
Proof.
  induction a as [|c a IH]; simpl.
  - by intros _.
  - intros H. apply orb_false_elim in H as [Hc Ha].
    apply bool_decide_eq_false in Hc. rewrite decide_False by done.
    f_equal. by apply IH.
Qed.

Section WithChecksum.

Variable toChecksumAddress : string -> string.

Local Abbreviation step := (step toChecksumAddress).
Local Abbreviation run := (run toChecksumAddress).
Local Abbreviation updateExchangeRates_resume := (updateExchangeRates_resume toChecksumAddress).

(** The key under which the rate of a price entry is stored. *)
Definition rateKey (p : Price) : string :=
  toChecksumAddress (toLowerCase (beforeSlash (pair p))).

(** The rates stored after an answer has been handled. *)
Definition ratesAfter (response : Response) (w : World) : gmap string Z :=
  contractExchangeRates (state (ctrl (fst (updateExchangeRates_resume (Normal response) w)))).

Definition ratesOf (l : list Price) (m : gmap string Z) : gmap string Z :=
  foldl (fun rates p => <[rateKey p := default 0 (price p)]> rates) m l.

Lemma ratesAfter_eq response w :
  ratesAfter response w = ratesOf (default [] (prices response)) ∅.
Proof. reflexivity. Qed.

Lemma ratesOf_snoc l p m :
  ratesOf (l ++ [p]) m = <[rateKey p := default 0 (price p)]> (ratesOf l m).
Proof. unfold ratesOf. by rewrite foldl_snoc. Qed.

Lemma ratesOf_is_Some l a :
  is_Some (ratesOf l ∅ !! a) ↔ ∃ p, p ∈ l ∧ rateKey p = a.
Proof.
  induction l as [|p l IH] using rev_ind.
  - simpl. rewrite lookup_empty. split; [by intros [? ?]|].
    intros (p & Hp & _). by apply elem_of_nil in Hp.
  - rewrite ratesOf_snoc, lookup_insert. case_decide as Hk.
    + split; [|by eexists]. intros _. exists p. split; [|done].
      apply elem_of_app. right. by apply list_elem_of_singleton.
    + rewrite IH. split.
      * intros (q & Hq & Hqa). exists q. split; [|done]. apply elem_of_app. by left.
      * intros (q & Hq & Hqa). apply elem_of_app in Hq as [Hq|Hq]; [by exists q|].
        apply list_elem_of_singleton in Hq. congruence.
Qed.

(** The controller is disabled, or it tracks no token and none is
    assigned in the events to come. *)
Definition assignsNoTokens (evs : list Event) : Prop :=
  ∀ ev, ev ∈ evs → match ev with AssignTokens (_ :: _) => False | _ => True end.

Lemma idle_step ev w w' :
  disabled (ctrl w) = true
  ∨ (tokenList (ctrl w) = [] ∧ match ev with AssignTokens (_ :: _) => False | _ => True end) →
  step ev w = Some w' →
  fetchCalls w' = fetchCalls w
  ∧ disabled (ctrl w') = disabled (ctrl w)
  ∧ (tokenList (ctrl w) = [] → match ev with AssignTokens (_ :: _) => False | _ => True end →
     tokenList (ctrl w') = []).
Proof.
  intros Hidle.
  assert (Hup : ∀ v, disabled (ctrl v) = true ∨ tokenList (ctrl v) = [] →
                     updateExchangeRates v = (v, Returned (Normal tt))).
  { intros v [Hv|Hv]; unfold updateExchangeRates; rewrite Hv; [done|]. by rewrite orb_true_r. }
  destruct ev as [interval|tokens|h|i settled]; cbn [TokenRates.step].
  - intros H. apply (inj Some) in H. subst w'. unfold set_interval.
    set (w1 := match handle (ctrl w) with Some _ => _ | None => _ end).
    assert (Hw1 : ctrl w1 = ctrl w ∧ fetchCalls w1 = fetchCalls w)
      by (subst w1; by destruct (handle (ctrl w))).
    destruct Hw1 as [Hc Hf].
    rewrite Hup by (rewrite Hc; tauto). cbn [fst]. simpl. rewrite Hc, Hf. done.
  - intros H. apply (inj Some) in H. subst w'. unfold set_tokens.
    rewrite Hup.
    + simpl. split; [done|]. split; [done|]. intros _ Hev. by destruct tokens.
    + simpl. destruct Hidle as [Hd|[_ Hev]]; [by left|]. right. by destruct tokens.
  - destruct (armed (timers w) !! h); [|done]. intros H. apply (inj Some) in H. subst w'.
    rewrite Hup by tauto. done.
  - destruct (pending w !! i); [|done]. intros [= <-]. by destruct settled.
Qed.

(** X6: a controller that is disabled never calls the pricing service,
    whatever is assigned to it and however often its timer fires; and a
    controller that tracks no token makes no call as long as no token is
    assigned.  Over every such run the number of calls made stays what it
    was. *)
Theorem idle_controller_never_fetches (evs : list Event) (w w' : World) :
  disabled (ctrl w) = true ∨ (tokenList (ctrl w) = [] ∧ assignsNoTokens evs) →
  run evs w = Some w' →
  fetchCalls w' = fetchCalls w.
Proof.
  revert w. induction evs as [|ev evs IH]; intros w Hidle Hrun; simpl in Hrun.
  - by inversion Hrun.
  - destruct (TokenRates.step toChecksumAddress ev w) as [w1|] eqn:Hstep; [|done].
    assert (Hev : disabled (ctrl w) = true
                  ∨ (tokenList (ctrl w) = []
                     ∧ match ev with AssignTokens (_ :: _) => False | _ => True end)).
    { destruct Hidle as [Hd|[Hl Hevs]]; [by left|]. right. split; [done|].
      apply Hevs. by left. }
    destruct (idle_step ev w w1 Hev Hstep) as (Hf & Hd & Hl).
    rewrite <- Hf. apply IH; [|done].
    destruct Hidle as [Hdis|[Hnil Hevs]]; [left; congruence|].
    right. split.
    + apply Hl; [done|]. apply Hevs. by left.
    + intros ev' Hin. apply Hevs. by right.
Qed.

(** The entry with which the service answers for a token. *)
Definition echo (currency : string) (quote : string → Z) (t : Token) : Price :=
  {| pair := address t +:+ "/" +:+ currency; price := Some (quote (address t)) |}.

Lemma ratesOf_echo tokens currency quote :
  (∀ t, t ∈ tokens → rateKey (echo currency quote t) = address t) →
  ∀ t, t ∈ tokens →
       ratesOf (map (echo currency quote) tokens) ∅ !! address t = Some (quote (address t)).
Proof.
  induction tokens as [|t0 tokens IH] using rev_ind; intros Hkey t Ht.
  - by apply elem_of_nil in Ht.
  - rewrite map_app. cbn [map]. rewrite ratesOf_snoc.
    rewrite Hkey by (apply elem_of_app; right; by apply list_elem_of_singleton).
    cbn [echo price default].
    destruct (decide (address t0 = address t)) as [Heq|Hne].
    + rewrite Heq. apply lookup_insert_eq.
    + rewrite lookup_insert_ne by done.
      apply elem_of_app in Ht as [Ht|Ht].
      * apply IH; [|done]. intros t' Ht'. apply Hkey. apply elem_of_app. by left.
      * apply list_elem_of_singleton in Ht. congruence.
Qed.

(** X8: the way a rate finds its token.  The request names each tracked
    token by [address/currency]; when the service answers with exactly these
    pairs, each with a price, and every tracked address is free of slashes
    and is its own checksummed form, every tracked token has its price
    stored under its address, and nothing else is stored. *)
Theorem tracked_tokens_receive_their_rates
    (tokens : list Token) (currency : string) (quote : string → Z) (w : World) :
  (∀ t, t ∈ tokens → occurs "/" (address t) = false
                    ∧ toChecksumAddress (toLowerCase (address t)) = address t) →
  let answer :=
    {| prices := Some (map (fun t => {| pair := address t +:+ "/" +:+ currency;
                                        price := Some (quote (address t)) |}) tokens) |} in
  (∀ t, t ∈ tokens → ratesAfter answer w !! address t = Some (quote (address t)))
  ∧ (∀ a, is_Some (ratesAfter answer w !! a) → ∃ t, t ∈ tokens ∧ address t = a).
Proof.
  intros Hok answer. rewrite ratesAfter_eq.
  change (default [] (prices answer)) with (map (echo currency quote) tokens).
  assert (Hkey : ∀ t, t ∈ tokens → rateKey (echo currency quote t) = address t).
  { intros t Ht. destruct (Hok t Ht) as [Hs Hc].
    unfold rateKey, echo. cbn [pair]. by rewrite beforeSlash_pair. }
  split.
  - by apply ratesOf_echo.
  - intros a Ha. apply ratesOf_is_Some in Ha as (p & Hp & Hpa).
    apply list_elem_of_In, in_map_iff in Hp as (t & <- & Ht).
    apply list_elem_of_In in Ht.
    exists t. split; [done|]. rewrite <- Hpa. symmetry. by apply Hkey.
Qed.

(** X9: a request for rates that fails changes nothing.  When a fetch in
    flight is rejected, the error stops at [safelyExecute]: the event
    happens, the controller with its stored rates and the timers are what
    they were, and only the fetch is no longer in flight. *)
Theorem failed_rate_fetch_changes_nothing (w : World) (i : nat) (query : string) (e : Error) :
  pending w !! i = Some query →
  ∃ w', step (Settle i (Throw e)) w = Some w'
        ∧ ctrl w' = ctrl w
        ∧ timers w' = timers w
        ∧ fetchCalls w' = fetchCalls w
        ∧ pending w' = delete i (pending w)
        ∧ snd (safelyExecute (updateExchangeRates_resume (Throw e)) w) = Normal None.
Proof.
  intros Hq. unfold TokenRates.step. rewrite Hq.
  eexists. split; [reflexivity|]. repeat split.
Qed.

End WithChecksum.

Lemma idle_controller_never_fetches_witness :
  ∃ w', TokenRates.run sampleChecksum
          [AssignTokens sampleTokens; AssignInterval 1000; Tick 1; AssignTokens []]
          (new true "eth") = Some w'
        ∧ fetchCalls w' = 0%nat.
Proof.
  eexists. split; [vm_compute; reflexivity|].
  refine (idle_controller_never_fetches sampleChecksum
            [AssignTokens sampleTokens; AssignInterval 1000; Tick 1; AssignTokens []]
            (new true "eth") _ (or_introl eq_refl) _).
  vm_compute. reflexivity.
Defined.

Definition lowerTokens : list Token :=
  [ {| address := "0xab"; decimals := 18; symbol := "FOO" |};
    {| address := "0xcd"; decimals := 6; symbol := "BAR" |} ].

Lemma tracked_tokens_receive_their_rates_witness :
  let answer :=
    {| prices := Some [ {| pair := "0xab/eth"; price := Some 7 |};
                        {| pair := "0xcd/eth"; price := Some 7 |} ] |} in
  ratesAfter sampleChecksum answer (new false "eth") !! "0xab" = Some 7
  ∧ ratesAfter sampleChecksum answer (new false "eth") !! "0xcd" = Some 7.
Proof.
  assert (Hall : ∀ t, t ∈ lowerTokens →
            ratesAfter sampleChecksum
              {| prices := Some [ {| pair := "0xab/eth"; price := Some 7 |};
                                  {| pair := "0xcd/eth"; price := Some 7 |} ] |}
              (new false "eth") !! address t = Some 7).
  { refine (proj1 (tracked_tokens_receive_their_rates sampleChecksum lowerTokens "eth"
                     (fun _ => 7) (new false "eth") _)).
    intros t Ht. apply list_elem_of_In in Ht.
    destruct Ht as [<-|[<-|[]]]; split; reflexivity. }
  split.
  - apply (Hall {| address := "0xab"; decimals := 18; symbol := "FOO" |}). by left.
  - apply (Hall {| address := "0xcd"; decimals := 6; symbol := "BAR" |}). right. by left.
Defined.

Lemma failed_rate_fetch_changes_nothing_witness :
  ∃ w w', TokenRates.run sampleChecksum [AssignTokens sampleTokens] (new false "eth") = Some w
          ∧ fetchCalls w = 1%nat
          ∧ TokenRates.step sampleChecksum (Settle 0 (Throw "offline")) w = Some w'
          ∧ ctrl w' = ctrl w.
Proof.
  eexists. 
  match goal with |- ∃ w', TokenRates.run _ _ _ = Some ?w ∧ _ =>
    unify w (fst (updateExchangeRates
                    (mkWorld (set_tokenList sampleTokens (ctrl (new false "eth")))
                             (timers (new false "eth")) [] 0)))
  end.
  destruct (failed_rate_fetch_changes_nothing sampleChecksum
              (fst (updateExchangeRates
                      (mkWorld (set_tokenList sampleTokens (ctrl (new false "eth")))
                               (timers (new false "eth")) [] 0)))
              0 "pairs[]=0xAb/eth" "offline" eq_refl) as (w' & Hs & Hc & _).
  exists w'. split; [reflexivity|]. split; [reflexivity|]. split; [exact Hs|exact Hc].
Defined.

End TokenRatesPolicy.

(** ** TokenRatesController: an answer whose keys may be refused *)
Module TokenRatesCheckedFacts.

Import TokenRates TokenRatesChecked.

Section WithEthereumjsUtil.

Variable toChecksumAddress : string -> Completion string.
Variable toLowerCase : string -> string.

Local Abbreviation storeRate := (storeRate toChecksumAddress toLowerCase).
Local Abbreviation updateExchangeRates_resume :=
  (updateExchangeRates_resume toChecksumAddress toLowerCase).
Local Abbreviation settle := (settle toChecksumAddress toLowerCase).

(** The key under which the rate of a price entry is stored, or the error
    that [toChecksumAddress] throws for it. *)
Definition keyOf (p : Price) : Completion string :=
  toChecksumAddress (toLowerCase (beforeSlash (pair p))).

(** The rates in the state after an answer has been handled. *)
Definition ratesAfter (response : Response) (w : World) : gmap string Z :=
  contractExchangeRates (state (ctrl (fst (updateExchangeRates_resume (Normal response) w)))).

Lemma forEach_snoc l p (m : gmap string Z) :
  forEach storeRate (l ++ [p]) m
  = match forEach storeRate l m with
    | (m', Normal _) => storeRate p m'
    | (m', Throw e) => (m', Throw e)
    end.
Proof.
  revert m. induction l as [|q l IH]; intros m; cbn [app forEach]; unfold bind, ret.
  - by destruct (storeRate p m) as [m' [[]|e]].
  - destruct (storeRate q m) as [m' [[]|e]]; [apply IH|done].
Qed.

(** A loop over entries whose keys are all accepted. *)
Lemma forEach_accepted l :
  (∀ p, p ∈ l → ∃ a, keyOf p = Normal a) →
  ∃ m, forEach storeRate l ∅ = (m, Normal tt)
       ∧ (l = [] → m = ∅)
       ∧ (∀ a, is_Some (m !! a) ↔ ∃ p, p ∈ l ∧ keyOf p = Normal a)
       ∧ (∀ pre p post a, l = pre ++ p :: post → keyOf p = Normal a →
            (∀ q, q ∈ post → keyOf q ≠ Normal a) →
            m !! a = Some (default 0 (price p))).
Proof.
  induction l as [|p0 l IH] using rev_ind; intros Hall.
  - exists ∅. split; [done|]. split; [done|]. split.
    + intros a. rewrite lookup_empty. split; [by intros [? ?]|].
      intros (p & Hp & _). by apply elem_of_nil in Hp.
    + intros pre p post a Hl. by destruct pre.
  - destruct IH as (m & Hm & _ & Hdom & Hlast).
    { intros p Hp. apply Hall. apply elem_of_app. by left. }
    destruct (Hall p0) as [a0 Ha0]; [apply elem_of_app; right; by left|].
    exists (<[a0 := default 0 (price p0)]> m).
    split; [rewrite forEach_snoc, Hm; unfold TokenRatesChecked.storeRate;
            fold (keyOf p0); by rewrite Ha0|].
    split; [intros Hnil; by destruct l|]. split.
    + intros a. rewrite lookup_insert. case_decide as Hk.
      * subst a. split; [|by eexists]. intros _. exists p0. split; [|done].
        apply elem_of_app. right. by left.
      * rewrite Hdom. split.
        -- intros (q & Hq & Hqa). exists q. split; [|done]. apply elem_of_app. by left.
        -- intros (q & Hq & Hqa). apply elem_of_app in Hq as [Hq|Hq]; [by exists q|].
           apply list_elem_of_singleton in Hq. subst q. congruence.
    + intros pre p post a Hl Hp Hpost.
      destruct post as [|q post _] using rev_ind.
      * apply app_inj_tail in Hl as [-> ->]. rewrite Ha0 in Hp. injection Hp as ->.
        apply lookup_insert_eq.
      * rewrite app_comm_cons, app_assoc in Hl. apply app_inj_tail in Hl as [-> ->].
        rewrite lookup_insert_ne.
        -- apply (Hlast pre p post a eq_refl Hp). intros q' Hq'. apply Hpost.
           apply elem_of_app. by left.
        -- intros ->. apply (Hpost q); [apply elem_of_app; right; by left|done].
Qed.

(** A loop that meets an entry whose key is refused. *)
Lemma forEach_refused l (m : gmap string Z) :
  (∃ p e, p ∈ l ∧ keyOf p = Throw e) →
  ∃ m' e, forEach storeRate l m = (m', Throw e).
Proof.
  revert m. induction l as [|q l IH]; intros m (p & e & Hp & He).
  - by apply elem_of_nil in Hp.
  - cbn [forEach]. unfold bind, TokenRatesChecked.storeRate at 1. fold (keyOf q).
    destruct (keyOf q) as [a|e'] eqn:Hq; [|by eexists _, _].
    apply IH. exists p, e. split; [|done].
    apply list_elem_of_In in Hp. destruct Hp as [->|Hp]; [congruence|].
    by apply list_elem_of_In.
Qed.

(** X7: the rates stored after an answer of the pricing service depend on
    that answer alone, and one key that is refused rejects the answer as a
    whole.  When [toChecksumAddress] accepts the key of every entry, the
    call returns normally and an address has a rate exactly when it is the
    key of an entry of the answer, so every rate stored before is dropped;
    the last entry for a key gives the rate, an entry whose price is not a
    number gives 0, and an answer without [prices] leaves no rate at all.
    When [toChecksumAddress] throws for the key of some entry, the call
    throws, the world with the rates stored before is as it was, and
    [safelyExecute] around the call returns normally. *)
Theorem rates_are_replaced_unless_a_key_is_refused (response : Response) (w : World) :
  let entries := default [] (prices response) in
  ((∀ p, p ∈ entries → ∃ a, keyOf p = Normal a) →
     snd (updateExchangeRates_resume (Normal response) w) = Normal tt
     ∧ fst (updateExchangeRates_resume (Normal response) w) = update (ratesAfter response w) w
     ∧ (prices response = None ∨ prices response = Some [] → ratesAfter response w = ∅)
     ∧ (∀ a, is_Some (ratesAfter response w !! a) ↔ ∃ p, p ∈ entries ∧ keyOf p = Normal a)
     ∧ (∀ pre p post a, entries = pre ++ p :: post → keyOf p = Normal a →
          (∀ q, q ∈ post → keyOf q ≠ Normal a) →
          ratesAfter response w !! a = Some (default 0 (price p))))
  ∧ ((∃ p e, p ∈ entries ∧ keyOf p = Throw e) →
     (∃ e, updateExchangeRates_resume (Normal response) w = (w, Throw e))
     ∧ settle (Normal response) w = (w, Normal None)).
Proof.
  intros entries. split.
  - intros Hall. destruct (forEach_accepted entries Hall) as (m & Hm & Hnil & Hdom & Hlast).
    assert (Hres : updateExchangeRates_resume (Normal response) w = (update m w, Normal tt)).
    { unfold TokenRatesChecked.updateExchangeRates_resume, bind, await.
      fold entries. fold storeRate. by rewrite Hm. }
    assert (Hrates : ratesAfter response w = m) by (unfold ratesAfter; by rewrite Hres).
    rewrite Hrates, Hres. split; [done|]. split; [done|]. split; [|by split].
    intros Hno. apply Hnil. subst entries. by destruct Hno as [->| ->].
  - intros Hbad. destruct (forEach_refused entries ∅ Hbad) as (m' & e & Hm).
    assert (Hres : updateExchangeRates_resume (Normal response) w = (w, Throw e)).
    { unfold TokenRatesChecked.updateExchangeRates_resume, bind, await.
      fold entries. fold storeRate. by rewrite Hm. }
    split; [by exists e|].
    unfold TokenRatesChecked.settle, safelyExecute, try_catch, bind. by rewrite Hres.
Qed.

End WithEthereumjsUtil.

(** With a [toChecksumAddress] that accepts every string and the lowering
    of ASCII letters this is [TokenRates.updateExchangeRates_resume]. *)
Lemma checked_resume_total (f : string -> string) settled w :
  TokenRatesChecked.updateExchangeRates_resume (fun s => Normal (f s)) toLowerCase settled w
  = TokenRates.updateExchangeRates_resume f settled w.
Proof.
  destruct settled as [response|e]; [|done].
  unfold TokenRatesChecked.updateExchangeRates_resume, TokenRates.updateExchangeRates_resume,
    bind, await.
  generalize (∅ : gmap string Z). induction (default [] (prices response)) as [|p l IH];
    intros m; [done|].
  cbn [forEach foldl]. unfold bind, storeRate at 1. apply IH.
Qed.

End TokenRatesCheckedFacts.

(** ** ComposableController *)
Module ComposableFacts.

Import Composable.

Section WithState.

Context {BaseState : Type}.

Local Abbreviation World := (World BaseState).
Local Abbreviation Heap := (gmap nat (Child.t BaseState)).

(** The context map that the first loop of the setter builds from [m] over
    the children [cs] of the store [h], and the local [initialState]. *)
Definition slots (h : Heap) (m : gmap string nat) (cs : list nat) : gmap string nat :=
  foldl (fun m r => match h !! r with
                    | Some c => <[Child.name c := r]> m
                    | None => m
                    end) m cs.

Definition snapshot (h : Heap) (m : gmap string BaseState) (cs : list nat)
  : gmap string BaseState :=
  foldl (fun m r => match h !! r with
                    | Some c => <[Child.name c := Child.state c]> m
                    | None => m
                    end) m cs.

Lemma slots_cons h m r cs :
  slots h m (r :: cs)
  = slots h (match h !! r with Some c => <[Child.name c := r]> m | None => m end) cs.
Proof. reflexivity. Qed.

Lemma snapshot_cons h m r cs :
  snapshot h m (r :: cs)
  = snapshot h (match h !! r with
                | Some c => <[Child.name c := Child.state c]> m
                | None => m
                end) cs.
Proof. reflexivity. Qed.

Lemma slots_snoc h m r cs :
  slots h m (cs ++ [r])
  = match h !! r with Some c => <[Child.name c := r]> (slots h m cs) | None => slots h m cs end.
Proof. unfold slots. by rewrite foldl_snoc. Qed.

Lemma snapshot_snoc h m r cs :
  snapshot h m (cs ++ [r])
  = match h !! r with
    | Some c => <[Child.name c := Child.state c]> (snapshot h m cs)
    | None => snapshot h m cs
    end.
Proof. unfold snapshot. by rewrite foldl_snoc. Qed.

Lemma slots_app h m cs1 cs2 : slots h m (cs1 ++ cs2) = slots h (slots h m cs1) cs2.
Proof. apply foldl_app. Qed.

Lemma snapshot_app h m cs1 cs2 :
  snapshot h m (cs1 ++ cs2) = snapshot h (snapshot h m cs1) cs2.
Proof. apply foldl_app. Qed.

Lemma slots_last h m post n :
  (∀ r c, r ∈ post → h !! r = Some c → Child.name c ≠ n) →
  slots h m post !! n = m !! n.
Proof.
  revert m. induction post as [|r post IH]; intros m Hpost; [done|].
  rewrite slots_cons, IH.
  - destruct (h !! r) as [c|] eqn:Hr; [|done].
    apply lookup_insert_ne. eapply Hpost; [left|done].
  - intros r' c' Hin. apply Hpost. by right.
Qed.

Lemma snapshot_last h m post n :
  (∀ r c, r ∈ post → h !! r = Some c → Child.name c ≠ n) →
  snapshot h m post !! n = m !! n.
Proof.
  revert m. induction post as [|r post IH]; intros m Hpost; [done|].
  rewrite snapshot_cons, IH.
  - destruct (h !! r) as [c|] eqn:Hr; [|done].
    apply lookup_insert_ne. eapply Hpost; [left|done].
  - intros r' c' Hin. apply Hpost. by right.
Qed.

(** What the first loop of the setter does, in one statement. *)
Lemma compose_loop (cs : list nat) (w : World) (init : gmap string BaseState) :
  let w' := fst (foldl compose (w, init) cs) in
  let init' := snd (foldl compose (w, init) cs) in
  self w' = self w
  ∧ notifications w' = notifications w
  ∧ contexts w' = alter (fun m => slots (heap w) m cs) (context (self w)) (contexts w)
  ∧ init' = snapshot (heap w) init cs
  ∧ (∀ r, heap w !! r = None → heap w' !! r = None)
  ∧ (∀ r c, heap w !! r = Some c →
       ∃ c', heap w' !! r = Some c'
             ∧ Child.name c' = Child.name c
             ∧ Child.state c' = Child.state c
             ∧ Child.internalListeners c' =
                 Child.internalListeners c
                 ++ replicate (count_occ Nat.eq_dec cs r) (mkListener (Child.name c))).
Proof.
  induction cs as [|r0 cs IH] using rev_ind.
  - simpl. repeat split; try done.
    + symmetry. apply list_alter_id. done.
    + intros r c Hr. exists c. by rewrite app_nil_r.
  - rewrite foldl_snoc. destruct (foldl compose (w, init) cs) as [w1 init1].
    simpl in IH. destruct IH as (Hself & Hnot & Hctx & Hinit & Hnone & Hsome).
    rewrite snapshot_snoc.
    assert (Halter : ∀ l : list (gmap string nat),
      alter (fun m => slots (heap w) m (cs ++ [r0])) (context (self w)) l
      = alter (fun m => match heap w !! r0 with
                        | Some c => <[Child.name c := r0]> m
                        | None => m
                        end) (context (self w))
          (alter (fun m => slots (heap w) m cs) (context (self w)) l)).
    { intros l. rewrite list_alter_alter_eq. apply list_alter_ext; [|done].
      intros m _. apply slots_snoc. }
    rewrite Halter. clear Halter.
    unfold compose at 1 2.
    destruct (heap w !! r0) as [c0|] eqn:Hr0.
    + destruct (Hsome r0 c0 Hr0) as (c1 & Hc1 & Hn1 & Hs1 & Hl1).
      rewrite Hc1. cbn [fst snd self notifications contexts heap].
      rewrite Hself, Hctx, Hinit, Hn1, Hs1.
      repeat split; try done.
      * intros r Hr. rewrite lookup_insert_ne by congruence. by apply Hnone.
      * intros r c Hr. rewrite count_occ_app. simpl.
        destruct (Nat.eq_dec r0 r) as [->|Hne].
        -- rewrite lookup_insert_eq. eexists. split; [done|]. simpl.
           assert (c = c0) as -> by congruence.
           repeat split. rewrite Hl1, <- app_assoc. f_equal.
           by rewrite replicate_add.
        -- rewrite lookup_insert_ne by done. rewrite Nat.add_0_r. by apply Hsome.
    + rewrite (Hnone r0 Hr0). cbn [fst snd].
      repeat split; try done.
      * rewrite Hctx. symmetry. apply list_alter_id. done.
      * intros r c Hr. rewrite count_occ_app. simpl.
        destruct (Nat.eq_dec r0 r) as [->|Hne]; [congruence|].
        rewrite Nat.add_0_r. by apply Hsome.
Qed.

(** The setter of [controllers], in one statement. *)
Lemma set_controllers_spec (cs : list nat) (w : World) :
  let w' := fst (set_controllers cs w) in
  snd (set_controllers cs w) = Normal tt
  ∧ internalControllers (self w') = cs
  ∧ contextMap w' = slots (heap w) ∅ cs
  ∧ state (self w') = snapshot (heap w) ∅ cs
  ∧ notifications w' = S (notifications w)
  ∧ (∀ r c, heap w !! r = Some c →
       ∃ c', heap w' !! r = Some c'
             ∧ Child.name c' = Child.name c
             ∧ Child.state c' = Child.state c
             ∧ Child.internalListeners c' =
                 Child.internalListeners c
                 ++ replicate (count_occ Nat.eq_dec cs r) (mkListener (Child.name c))).
Proof.
  unfold set_controllers.
  set (w1 := mkWorld (heap w) (contexts w ++ [∅])
               (mkComposableController cs (length (contexts w)) (state (self w)))
               (notifications w)).
  destruct (compose_loop cs w1 ∅) as (Hself & Hnot & Hctx & Hinit & _ & Hsome).
  destruct (foldl compose (w1, ∅) cs) as [w2 init2].
  simpl in Hself, Hnot, Hctx, Hinit, Hsome.
  assert (Hon : foldl (fun w r => onComposed r w) w2 cs = w2).
  { clear. induction cs as [|r cs IH]; [done|]. simpl. exact IH. }
  rewrite Hon. cbn [fst snd]. unfold contextMap, update.
  cbn [self internalControllers context contexts state notifications heap].
  rewrite Hself, Hctx, Hnot, Hinit. subst w1. cbn [self internalControllers context].
  repeat split; try done.
  rewrite list_lookup_alter_eq.
  rewrite lookup_app_r by done. by rewrite Nat.sub_diag.
Qed.



End WithState.

(** Two controllers of different classes and two of the same class, with
    numbers for states. *)
Definition sampleChildren : gmap nat (Child.t Z) :=
  {[ 0%nat := Child.mk "NetworkController" 1 None [];
     1%nat := Child.mk "AssetsController" 2 None [];
     2%nat := Child.mk "AssetsController" 3 None [] ]}.



End ComposableFacts.

(** ** ComposableController: the aggregate follows the children *)
Module ComposablePolicy.

Import Composable ComposableFacts.

Section WithState.

Context {BaseState : Type}.

Local Abbreviation World := (World BaseState).
Local Abbreviation Heap := (gmap nat (Child.t BaseState)).

Lemma set_controllers_absent (cs : list nat) (w : World) (r : nat) :
  heap w !! r = None → heap (fst (set_controllers cs w)) !! r = None.
Proof.
  intros Hr. unfold set_controllers.
  set (w1 := mkWorld (heap w) (contexts w ++ [∅])
               (mkComposableController cs (length (contexts w)) (state (self w)))
               (notifications w)).
  destruct (compose_loop cs w1 ∅) as (_ & _ & _ & _ & Hnone & _).
  destruct (foldl compose (w1, ∅) cs) as [w2 init2]. simpl in Hnone.
  assert (Hon : foldl (fun w r => onComposed r w) w2 cs = w2).
  { clear. induction cs as [|r cs IH]; [done|]. simpl. exact IH. }
  rewrite Hon. cbn [fst update heap]. by apply Hnone.
Qed.

Lemma snapshot_dom (h : Heap) (m : gmap string BaseState) (cs : list nat) (n : string) :
  is_Some (snapshot h m cs !! n) →
  is_Some (m !! n) ∨ ∃ r c, r ∈ cs ∧ h !! r = Some c ∧ Child.name c = n.
Proof.
  induction cs as [|r cs IH] using rev_ind; [by left|].
  rewrite snapshot_snoc. destruct (h !! r) as [c|] eqn:Hr.
  - rewrite lookup_insert. case_decide as Hn.
    + intros _. right. exists r, c. split; [|done]. apply elem_of_app. right. by left.
    + intros Hs. destruct (IH Hs) as [?|(r' & c' & Hin & Hc' & Hn')]; [by left|].
      right. exists r', c'. split; [|done]. apply elem_of_app. by left.
  - intros Hs. destruct (IH Hs) as [?|(r' & c' & Hin & Hc' & Hn')]; [by left|].
    right. exists r', c'. split; [|done]. apply elem_of_app. by left.
Qed.

(** The composite mirrors the children [cs]: each of them holds the one
    listener of its own name and has its state in the slot of that name,
    no two of them share a name, other children hold no listener, and the
    aggregate has no other slot. *)
Definition mirrors (cs : list nat) (w : World) : Prop :=
  (∀ r c, heap w !! r = Some c →
     Child.internalListeners c
     = if decide (r ∈ cs) then [mkListener (Child.name c)] else [])
  ∧ (∀ r, r ∈ cs →
       ∃ c, heap w !! r = Some c
            ∧ state (self w) !! Child.name c = Some (Child.state c))
  ∧ (∀ r1 r2 c1 c2, r1 ∈ cs → r2 ∈ cs → heap w !! r1 = Some c1 → heap w !! r2 = Some c2 →
       Child.name c1 = Child.name c2 → r1 = r2)
  ∧ (∀ n, is_Some (state (self w) !! n) →
       ∃ r c, r ∈ cs ∧ heap w !! r = Some c ∧ Child.name c = n).

Lemma mirrors_new (children : Heap) (cs : list nat) :
  NoDup cs →
  (∀ r, r ∈ cs → is_Some (children !! r)) →
  (∀ r c, children !! r = Some c → Child.internalListeners c = []) →
  (∀ r1 r2 c1 c2, r1 ∈ cs → r2 ∈ cs → children !! r1 = Some c1 → children !! r2 = Some c2 →
     Child.name c1 = Child.name c2 → r1 = r2) →
  mirrors cs (new children cs).
Proof.
  intros Hnd Hin Hnone Hinj. unfold new.
  set (w0 := mkWorld children [∅] (mkComposableController [] 0%nat ∅) 0).
  destruct (set_controllers_spec cs w0) as (_ & _ & _ & Hst & _ & Hsome).
  pose proof (set_controllers_absent cs w0) as Habsent.
  set (w' := fst (set_controllers cs w0)) in *.
  change (heap w0) with children in Hst, Hsome, Habsent.
  assert (Hback : ∀ r c', heap w' !! r = Some c' →
            ∃ c, children !! r = Some c ∧ Child.name c' = Child.name c
                 ∧ Child.state c' = Child.state c
                 ∧ Child.internalListeners c'
                   = replicate (count_occ Nat.eq_dec cs r) (mkListener (Child.name c))).
  { intros r c' Hc'. destruct (children !! r) as [c|] eqn:Hr.
    - destruct (Hsome r c Hr) as (c'' & Hc'' & Hn & Hs & Hl).
      assert (c'' = c') as -> by congruence.
      exists c. rewrite (Hnone r c Hr) in Hl. done.
    - rewrite (Habsent r Hr) in Hc'. done. }
  split; [|split; [|split]].
  - intros r c' Hc'. destruct (Hback r c' Hc') as (c & _ & Hn & _ & Hl).
    rewrite Hl, Hn. case_decide as Hr.
    + apply list_elem_of_In in Hr.
      by rewrite (proj1 (NoDup_count_occ' Nat.eq_dec cs) (proj1 (NoDup_ListNoDup cs) Hnd) r Hr).
    + rewrite (proj1 (count_occ_not_In Nat.eq_dec cs r)); [done|].
      intros H. by apply Hr, list_elem_of_In.
  - intros r Hr. destruct (Hin r Hr) as [c Hc].
    destruct (Hsome r c Hc) as (c' & Hc' & Hn & Hs & _).
    exists c'. split; [done|]. rewrite Hst, Hn, Hs.
    apply list_elem_of_split in Hr as (pre & post & ->).
    rewrite snapshot_app, snapshot_cons, Hc, snapshot_last; [apply lookup_insert_eq|].
    intros r' c0 Hr' Hc0 Heq.
    assert (r' = r).
    { apply (Hinj r' r c0 c); try done.
      - apply elem_of_app. right. by right.
      - apply elem_of_app. right. by left. }
    subst r'. apply NoDup_app in Hnd as (_ & _ & Hnd).
    apply NoDup_cons in Hnd as [Hnot _]. done.
  - intros r1 r2 c1 c2 H1 H2 Hc1 Hc2 Heq.
    destruct (Hback r1 c1 Hc1) as (d1 & Hd1 & Hn1 & _).
    destruct (Hback r2 c2 Hc2) as (d2 & Hd2 & Hn2 & _).
    apply (Hinj r1 r2 d1 d2); try done. congruence.
  - intros n Hn. rewrite Hst in Hn.
    apply snapshot_dom in Hn as [Hn|(r & c & Hr & Hc & Hname)].
    + rewrite lookup_empty in Hn. by destruct Hn.
    + destruct (Hsome r c Hc) as (c' & Hc' & Hn' & _).
      exists r, c'. split; [done|]. split; [done|]. congruence.
Qed.

Lemma mirrors_childUpdate (cs : list nat) (r : nat) (st : BaseState) (w : World) :
  mirrors cs w → mirrors cs (childUpdate r st w).
Proof.
  intros (Hlis & Hslot & Hinj & Hdom). unfold childUpdate.
  destruct (heap w !! r) as [c|] eqn:Hr; [|done].
  cbn [Child.internalListeners]. rewrite (Hlis r c Hr).
  set (c1 := Child.mk (Child.name c) st (Child.context c)
               (if decide (r ∈ cs) then [mkListener (Child.name c)] else [])).
  assert (Hfwd : ∀ r' c', <[r := c1]> (heap w) !! r' = Some c' →
            ∃ c0, heap w !! r' = Some c0 ∧ Child.name c' = Child.name c0
                  ∧ Child.internalListeners c' = Child.internalListeners c0
                  ∧ (r' ≠ r → c' = c0)).
  { intros r' c'. rewrite lookup_insert. case_decide as Heq.
    - subst r'. intros [= <-]. exists c. split; [done|]. split; [done|].
      split; [by rewrite (Hlis r c Hr)|done].
    - intros Hc'. by exists c'. }
  assert (Hsame : ∀ r' c0, heap w !! r' = Some c0 →
            ∃ c', <[r := c1]> (heap w) !! r' = Some c' ∧ Child.name c' = Child.name c0).
  { intros r' c0 Hc0. rewrite lookup_insert. case_decide as Heq.
    - subst r'. exists c1. split; [done|]. simpl. congruence.
    - by exists c0. }
  assert (Hinj' : ∀ r1 r2 c1' c2', r1 ∈ cs → r2 ∈ cs →
            <[r := c1]> (heap w) !! r1 = Some c1' → <[r := c1]> (heap w) !! r2 = Some c2' →
            Child.name c1' = Child.name c2' → r1 = r2).
  { intros r1 r2 c1' c2' H1 H2 Hc1 Hc2 Heq.
    destruct (Hfwd r1 c1' Hc1) as (d1 & Hd1 & Hn1 & _).
    destruct (Hfwd r2 c2' Hc2) as (d2 & Hd2 & Hn2 & _).
    apply (Hinj r1 r2 d1 d2); try done. congruence. }
  assert (Hlis' : ∀ r' c', <[r := c1]> (heap w) !! r' = Some c' →
            Child.internalListeners c'
            = if decide (r' ∈ cs) then [mkListener (Child.name c')] else []).
  { intros r' c' Hc'. destruct (Hfwd r' c' Hc') as (c0 & Hc0 & Hn & Hl & _).
    rewrite Hl, Hn. by apply Hlis. }
  destruct (decide (r ∈ cs)) as [Hin|Hout]; cbn [foldl]; unfold fire, update; cbn [slot].
  - split; [exact Hlis'|]. split; [|split; [exact Hinj'|]];
      cbn [heap self state].
    + intros r' Hr'. destruct (decide (r' = r)) as [->|Hne].
      * exists c1. split; [apply lookup_insert_eq|].
        apply lookup_union_Some_l, lookup_singleton_eq.
      * destruct (Hslot r' Hr') as (c' & Hc' & Hs'). exists c'.
        split; [by rewrite lookup_insert_ne|].
        rewrite lookup_union_r; [done|]. apply lookup_singleton_ne.
        intros Heq. apply Hne. by apply (Hinj r' r c' c).
    + intros n Hn. destruct (decide (n = Child.name c)) as [->|Hne].
      * exists r, c1. split; [done|]. split; [apply lookup_insert_eq|done].
      * rewrite lookup_union_r in Hn by (by apply lookup_singleton_ne).
        destruct (Hdom n Hn) as (r' & c0 & Hr' & Hc0 & Hname).
        destruct (Hsame r' c0 Hc0) as (c' & Hc' & Hn').
        exists r', c'. split; [done|]. split; [done|]. congruence.
  - split; [exact Hlis'|]. split; [|split; [exact Hinj'|]];
      cbn [heap self state].
    + intros r' Hr'. destruct (Hslot r' Hr') as (c' & Hc' & Hs'). exists c'.
      split; [|done]. rewrite lookup_insert_ne; [done|]. congruence.
    + intros n Hn. destruct (Hdom n Hn) as (r' & c0 & Hr' & Hc0 & Hname).
      destruct (Hsame r' c0 Hc0) as (c' & Hc' & Hn').
      exists r', c'. split; [done|]. split; [done|]. congruence.
Qed.

(** X22: the aggregate follows the children.  When a composite is
    constructed over children without a listener, each listed once and no
    two of them with the same name, then after every sequence of state
    updates of whatever children the slot of each composed child's name
    holds that child's present state, and the aggregate has a slot for
    these names only. *)
Theorem aggregate_mirrors_children
    (children : Heap) (cs : list nat) (updates : list (nat * BaseState)) :
  NoDup cs →
  (∀ r, r ∈ cs → is_Some (children !! r)) →
  (∀ r c, children !! r = Some c → Child.internalListeners c = []) →
  (∀ r1 r2 c1 c2, r1 ∈ cs → r2 ∈ cs → children !! r1 = Some c1 → children !! r2 = Some c2 →
     Child.name c1 = Child.name c2 → r1 = r2) →
  let w := foldl (fun w u => childUpdate u.1 u.2 w) (new children cs) updates in
  (∀ r, r ∈ cs →
     ∃ c, heap w !! r = Some c ∧ state (self w) !! Child.name c = Some (Child.state c))
  ∧ (∀ n, is_Some (state (self w) !! n) →
       ∃ r c, r ∈ cs ∧ heap w !! r = Some c ∧ Child.name c = n).
Proof.
  intros Hnd Hin Hnone Hinj w.
  assert (Hinv : mirrors cs w).
  { subst w. induction updates as [|u updates IH] using rev_ind.
    - by apply mirrors_new.
    - rewrite foldl_snoc. by apply mirrors_childUpdate. }
  destruct Hinv as (_ & Hslot & _ & Hdom). by split.
Qed.

End WithState.

Lemma aggregate_mirrors_children_witness :
  let w := foldl (fun w u => childUpdate u.1 u.2 w)
                 (new sampleChildren [0%nat; 1%nat]) [(1%nat, 7); (2%nat, 9); (0%nat, 5)] in
  (∀ r, r ∈ [0%nat; 1%nat] →
     ∃ c, heap w !! r = Some c ∧ state (self w) !! Child.name c = Some (Child.state c))
  ∧ state (self w) !! "AssetsController" = Some 7
  ∧ state (self w) !! "NetworkController" = Some 5.
Proof.
  split; [|split; vm_compute; reflexivity].
  refine (proj1 (aggregate_mirrors_children sampleChildren [0%nat; 1%nat]
                   [(1%nat, 7); (2%nat, 9); (0%nat, 5)] _ _ _ _)).
  - apply NoDup_cons. split; [|apply NoDup_singleton].
    intros H. apply list_elem_of_singleton in H. discriminate H.
  - intros r Hr. apply list_elem_of_In in Hr.
    destruct Hr as [<-|[<-|[]]]; vm_compute; by eexists.
  - intros r c Hc. unfold sampleChildren in Hc.
    repeat (apply lookup_insert_Some in Hc as [[<- <-]|[_ Hc]]; [reflexivity|]).
    apply lookup_singleton_Some in Hc as [<- <-]. reflexivity.
  - intros r1 r2 c1 c2 H1 H2 Hc1 Hc2 Heq.
    apply list_elem_of_In in H1, H2.
    destruct H1 as [<-|[<-|[]]]; destruct H2 as [<-|[<-|[]]]; try reflexivity;
      vm_compute in Hc1, Hc2; injection Hc1 as <-; injection Hc2 as <-; discriminate Heq.
Defined.

End ComposablePolicy.

(** ** ComposableController over children that override [onComposed] *)
Module ComposedFacts.

Import Composed.

Section WithState.

Context {BaseState : Type}.

Local Abbreviation World := (World BaseState).
Local Abbreviation Heap := (gmap nat (Child.t BaseState)).

(** The context map and the local [initialState] that the first loop of
    the setter builds over the children [cs] of the store [h]. *)
Definition slotsOf (h : Heap) (m : gmap string nat) (cs : list nat) : gmap string nat :=
  foldl (fun m r => match h !! r with
                    | Some c => <[Child.name c := r]> m
                    | None => m
                    end) m cs.

Definition statesOf (h : Heap) (m : gmap string BaseState) (cs : list nat)
  : gmap string BaseState :=
  foldl (fun m r => match h !! r with
                    | Some c => <[Child.name c := Child.state c]> m
                    | None => m
                    end) m cs.

Lemma slotsOf_snoc h m r cs :
  slotsOf h m (cs ++ [r])
  = match h !! r with
    | Some c => <[Child.name c := r]> (slotsOf h m cs)
    | None => slotsOf h m cs
    end.
Proof. unfold slotsOf. by rewrite foldl_snoc. Qed.

Lemma statesOf_snoc h m r cs :
  statesOf h m (cs ++ [r])
  = match h !! r with
    | Some c => <[Child.name c := Child.state c]> (statesOf h m cs)
    | None => statesOf h m cs
    end.
Proof. unfold statesOf. by rewrite foldl_snoc. Qed.

Lemma slotsOf_untouched h post n : ∀ m,
  (∀ r c, r ∈ post → h !! r = Some c → Child.name c ≠ n) →
  slotsOf h m post !! n = m !! n.
Proof.
  induction post as [|r post IH]; intros m Hpost; [done|].
  change (slotsOf h m (r :: post))
    with (slotsOf h (match h !! r with Some c => <[Child.name c := r]> m | None => m end) post).
  rewrite IH by (intros r' c' Hin; apply Hpost; by right).
  destruct (h !! r) as [c|] eqn:Hr; [|done].
  apply lookup_insert_ne. eapply Hpost; [left|done].
Qed.

Lemma statesOf_untouched h post n : ∀ m,
  (∀ r c, r ∈ post → h !! r = Some c → Child.name c ≠ n) →
  statesOf h m post !! n = m !! n.
Proof.
  induction post as [|r post IH]; intros m Hpost; [done|].
  change (statesOf h m (r :: post))
    with (statesOf h (match h !! r with
                      | Some c => <[Child.name c := Child.state c]> m
                      | None => m
                      end) post).
  rewrite IH by (intros r' c' Hin; apply Hpost; by right).
  destruct (h !! r) as [c|] eqn:Hr; [|done].
  apply lookup_insert_ne. eapply Hpost; [left|done].
Qed.

Lemma slotsOf_later h m pre r post c :
  h !! r = Some c →
  (∀ r' c', r' ∈ post → h !! r' = Some c' → Child.name c' ≠ Child.name c) →
  slotsOf h m (pre ++ r :: post) !! Child.name c = Some r.
Proof.
  intros Hr Hpost. change (r :: post) with ([r] ++ post).
  rewrite app_assoc. unfold slotsOf at 1. rewrite foldl_app.
  fold (slotsOf h m (pre ++ [r])). fold (slotsOf h (slotsOf h m (pre ++ [r])) post).
  rewrite slotsOf_untouched by done. rewrite slotsOf_snoc, Hr. apply lookup_insert_eq.
Qed.

Lemma statesOf_later h m pre r post c :
  h !! r = Some c →
  (∀ r' c', r' ∈ post → h !! r' = Some c' → Child.name c' ≠ Child.name c) →
  statesOf h m (pre ++ r :: post) !! Child.name c = Some (Child.state c).
Proof.
  intros Hr Hpost. change (r :: post) with ([r] ++ post).
  rewrite app_assoc. unfold statesOf at 1. rewrite foldl_app.
  fold (statesOf h m (pre ++ [r])). fold (statesOf h (statesOf h m (pre ++ [r])) post).
  rewrite statesOf_untouched by done. rewrite statesOf_snoc, Hr. apply lookup_insert_eq.
Qed.

Lemma slotsOf_named h cs n : ∀ m,
  (∃ r c, r ∈ cs ∧ h !! r = Some c ∧ Child.name c = n) → is_Some (slotsOf h m cs !! n).
Proof.
  induction cs as [|r0 cs IH] using rev_ind; intros m (r & c & Hin & Hc & Hn).
  - by apply elem_of_nil in Hin.
  - rewrite slotsOf_snoc. apply elem_of_app in Hin as [Hin|Hin].
    + assert (Hs : is_Some (slotsOf h m cs !! n)) by (apply IH; by exists r, c).
      destruct (h !! r0) as [c0|]; [|done].
      rewrite lookup_insert. by case_decide.
    + apply list_elem_of_singleton in Hin. subst r0. rewrite Hc, Hn.
      rewrite lookup_insert_eq. by eexists.
Qed.

(** What the first loop of the setter does. *)
Lemma first_loop (cs : list nat) (w : World) (init : gmap string BaseState) :
  let w' := fst (foldl compose (w, init) cs) in
  let init' := snd (foldl compose (w, init) cs) in
  self w' = self w
  ∧ contexts w' = alter (fun m => slotsOf (heap w) m cs) (Composable.context (self w)) (contexts w)
  ∧ init' = statesOf (heap w) init cs
  ∧ (∀ r, heap w !! r = None → heap w' !! r = None)
  ∧ (∀ r c, heap w !! r = Some c →
       ∃ c', heap w' !! r = Some c'
             ∧ Child.name c' = Child.name c
             ∧ Child.class c' = Child.class c
             ∧ Child.state c' = Child.state c
             ∧ (r ∈ cs → Child.context c' = Some (Composable.context (self w)))).
Proof.
  induction cs as [|r0 cs IH] using rev_ind.
  - simpl. split; [done|]. split; [symmetry; by apply list_alter_id|]. split; [done|].
    split; [done|]. intros r c Hr. exists c. repeat split; try done.
    intros Hin. by apply elem_of_nil in Hin.
  - rewrite foldl_snoc. destruct (foldl compose (w, init) cs) as [w1 init1].
    simpl in IH. destruct IH as (Hself & Hctx & Hinit & Hnone & Hsome).
    rewrite statesOf_snoc.
    assert (Halter : ∀ l : list (gmap string nat),
      alter (fun m => slotsOf (heap w) m (cs ++ [r0])) (Composable.context (self w)) l
      = alter (fun m => match heap w !! r0 with
                        | Some c => <[Child.name c := r0]> m
                        | None => m
                        end) (Composable.context (self w))
          (alter (fun m => slotsOf (heap w) m cs) (Composable.context (self w)) l)).
    { intros l. rewrite list_alter_alter_eq. apply list_alter_ext; [|done].
      intros m _. apply slotsOf_snoc. }
    rewrite Halter. clear Halter.
    unfold compose at 1 2.
    destruct (heap w !! r0) as [c0|] eqn:Hr0.
    + destruct (Hsome r0 c0 Hr0) as (c1 & Hc1 & Hn1 & Hk1 & Hs1 & _).
      rewrite Hc1. unfold subscribe. cbn [fst snd self contexts heap notifications].
      rewrite Hself, Hctx, Hinit, Hn1, Hs1.
      split; [done|]. split; [done|]. split; [done|]. split.
      * intros r Hr. assert (r0 ≠ r) by congruence.
        rewrite lookup_alter_ne, lookup_insert_ne by done. by apply Hnone.
      * intros r c Hr. destruct (decide (r0 = r)) as [->|Hne].
        -- rewrite lookup_alter_eq, lookup_insert_eq. cbn.
           assert (c = c0) as -> by congruence.
           eexists. split; [done|]. cbn. repeat split; try done.
        -- rewrite lookup_alter_ne, lookup_insert_ne by done.
           destruct (Hsome r c Hr) as (c' & Hc' & ? & ? & ? & Hin).
           exists c'. repeat split; try done. intros Hr'. apply Hin.
           apply elem_of_app in Hr' as [?|Hr']; [done|].
           apply list_elem_of_singleton in Hr'. congruence.
    + rewrite (Hnone r0 Hr0). cbn [fst snd].
      split; [done|]. split; [rewrite Hctx; symmetry; by apply list_alter_id|].
      split; [done|]. split; [done|].
      intros r c Hr. destruct (Hsome r c Hr) as (c' & Hc' & ? & ? & ? & Hin).
      exists c'. repeat split; try done. intros Hr'. apply Hin.
      apply elem_of_app in Hr' as [?|Hr']; [done|].
      apply list_elem_of_singleton in Hr'. congruence.
Qed.

(** Two worlds that differ in the listeners of their children at most. *)
Definition sameButListeners (w w' : World) : Prop :=
  contexts w' = contexts w
  ∧ self w' = self w
  ∧ notifications w' = notifications w
  ∧ ∀ r, match heap w !! r, heap w' !! r with
         | Some c, Some c' =>
             Child.name c' = Child.name c ∧ Child.class c' = Child.class c
             ∧ Child.state c' = Child.state c ∧ Child.context c' = Child.context c
         | None, None => True
         | _, _ => False
         end.

Lemma sameButListeners_refl w : sameButListeners w w.
Proof. repeat split. intros r. by destruct (heap w !! r). Qed.

Lemma sameButListeners_trans w1 w2 w3 :
  sameButListeners w1 w2 → sameButListeners w2 w3 → sameButListeners w1 w3.
Proof.
  intros (Hc & Hs & Hn & Hh) (Hc' & Hs' & Hn' & Hh').
  split; [congruence|]. split; [congruence|]. split; [congruence|].
  intros r. specialize (Hh r). specialize (Hh' r).
  destruct (heap w1 !! r), (heap w2 !! r), (heap w3 !! r); try done.
  destruct Hh as (? & ? & ? & ?), Hh' as (? & ? & ? & ?). repeat split; congruence.
Qed.

Lemma sameButListeners_subscribe r l w : sameButListeners w (subscribe r l w).
Proof.
  repeat split. intros r'. unfold subscribe. cbn [heap].
  destruct (decide (r = r')) as [->|Hne].
  - rewrite lookup_alter_eq. by destruct (heap w !! r').
  - rewrite lookup_alter_ne by done. by destruct (heap w !! r').
Qed.

Lemma sameButListeners_contextOf w w' r :
  sameButListeners w w' → contextOf r w' = contextOf r w.
Proof.
  intros (Hc & _ & _ & Hh). unfold contextOf. specialize (Hh r).
  destruct (heap w !! r) as [c|], (heap w' !! r) as [c'|]; try done.
  destruct Hh as (_ & _ & _ & ->). by rewrite Hc.
Qed.

(** [onComposed], whether it returns or throws, changes listeners only. *)
Lemma onComposed_same r w : sameButListeners w (fst (onComposed r w)).
Proof.
  unfold onComposed. destruct (heap w !! r) as [c|]; [|apply sameButListeners_refl].
  destruct (Child.class c); [apply sameButListeners_refl|].
  unfold TokenRatesController_onComposed, BaseController_onComposed, bind, ret.
  destruct (contextOf r w !! "AssetsController") as [a|]; [|apply sameButListeners_refl].
  destruct (contextOf r w !! "CurrencyRateController") as [k|]; cbn [fst].
  - eapply sameButListeners_trans; apply sameButListeners_subscribe.
  - apply sameButListeners_subscribe.
Qed.

Lemma forEach_same cs : ∀ w, sameButListeners w (fst (forEach onComposed cs w)).
Proof.
  induction cs as [|r cs IH]; intros w; [apply sameButListeners_refl|].
  cbn [forEach]. unfold bind. pose proof (onComposed_same r w) as Hr.
  destruct (onComposed r w) as [w1 [[]|e]]; cbn [fst] in *; [|done].
  eapply sameButListeners_trans; [exact Hr|apply IH].
Qed.

(** The child at [r] finds what its [onComposed] reads. *)
Definition ready (w : World) (r : nat) : Prop :=
  ∀ c, heap w !! r = Some c → Child.class c = TokenRatesController →
       is_Some (contextOf r w !! "AssetsController")
       ∧ is_Some (contextOf r w !! "CurrencyRateController").

Lemma ready_same w w' r : sameButListeners w w' → ready w r → ready w' r.
Proof.
  intros Hsame Hready c' Hc' Hk. rewrite (sameButListeners_contextOf _ _ _ Hsame).
  destruct Hsame as (_ & _ & _ & Hh). specialize (Hh r). rewrite Hc' in Hh.
  destruct (heap w !! r) as [c|] eqn:Hc; [|done].
  destruct Hh as (_ & Hk' & _). apply (Hready c); congruence.
Qed.

Lemma onComposed_ready r w : ready w r → snd (onComposed r w) = Normal tt.
Proof.
  intros Hready. unfold onComposed. destruct (heap w !! r) as [c|] eqn:Hc; [|done].
  destruct (Child.class c) eqn:Hk; [done|].
  destruct (Hready c Hc Hk) as [[a Ha] [k Hk']].
  unfold TokenRatesController_onComposed, BaseController_onComposed, bind, ret.
  by rewrite Ha, Hk'.
Qed.

Lemma onComposed_not_ready (r : nat) (w : World) (c : Child.t BaseState) :
  heap w !! r = Some c → Child.class c = TokenRatesController →
  contextOf r w !! "AssetsController" = None
  ∨ contextOf r w !! "CurrencyRateController" = None →
  snd (onComposed r w) = Throw undefinedSubscribe.
Proof.
  intros Hc Hk Hmiss. unfold onComposed. rewrite Hc, Hk.
  unfold TokenRatesController_onComposed, BaseController_onComposed, bind, ret.
  destruct (contextOf r w !! "AssetsController") as [a|]; [|done].
  destruct Hmiss as [?|Hmiss]; [done|]. by rewrite Hmiss.
Qed.

Lemma forEach_ready cs : ∀ w,
  (∀ r, r ∈ cs → ready w r) → snd (forEach onComposed cs w) = Normal tt.
Proof.
  induction cs as [|r cs IH]; intros w Hall; [done|].
  cbn [forEach]. unfold bind.
  pose proof (onComposed_same r w) as Hsame.
  pose proof (onComposed_ready r w (Hall r ltac:(by left))) as Hok.
  destruct (onComposed r w) as [w1 c]. cbn [fst snd] in *. subst c.
  apply IH. intros r' Hr'. eapply ready_same; [exact Hsame|]. apply Hall. by right.
Qed.

(** A loop of [onComposed] that meets a child that is not ready throws. *)
Lemma forEach_not_ready cs : ∀ (w : World) (r : nat) (c : Child.t BaseState),
  r ∈ cs → heap w !! r = Some c → Child.class c = TokenRatesController →
  contextOf r w !! "AssetsController" = None
  ∨ contextOf r w !! "CurrencyRateController" = None →
  snd (forEach onComposed cs w) = Throw undefinedSubscribe.
Proof.
  induction cs as [|r0 cs IH]; intros w r c Hin Hc Hk Hmiss.
  - by apply elem_of_nil in Hin.
  - cbn [forEach]. unfold bind.
    pose proof (onComposed_same r0 w) as Hsame.
    destruct (decide (r0 = r)) as [->|Hne].
    + pose proof (onComposed_not_ready r w c Hc Hk Hmiss) as Hthrow.
      destruct (onComposed r w) as [w1 c1]. cbn [snd] in Hthrow. by subst c1.
    + destruct (onComposed r0 w) as [w1 [[]|e]] eqn:Hr0; cbn [fst] in Hsame.
      * assert (Hin' : r ∈ cs).
        { apply list_elem_of_In in Hin. destruct Hin as [?|Hin]; [done|].
          by apply list_elem_of_In. }
        pose proof Hsame as (_ & _ & _ & Hh). specialize (Hh r). rewrite Hc in Hh.
        destruct (heap w1 !! r) as [c'|] eqn:Hc'; [|done].
        destruct Hh as (_ & Hk' & _).
        apply (IH w1 r c' Hin' Hc'); [congruence|].
        by rewrite (sameButListeners_contextOf _ _ _ Hsame).
      * cbn [snd]. f_equal.
        assert (Hs : snd (onComposed r0 w) = Throw e) by (by rewrite Hr0).
        unfold onComposed in Hs. destruct (heap w !! r0) as [c0|]; [|done].
        destruct (Child.class c0); [done|].
        unfold TokenRatesController_onComposed, BaseController_onComposed, bind, ret in Hs.
        destruct (contextOf r0 w !! "AssetsController"); [|by injection Hs].
        destruct (contextOf r0 w !! "CurrencyRateController"); [done|by injection Hs].
Qed.

(** The setter of [controllers], in one statement. *)
Lemma setter_over_overriding_children (cs : list nat) (w : World) :
  let w' := fst (set_controllers cs w) in
  let named n := ∃ r c, r ∈ cs ∧ heap w !! r = Some c ∧ Child.name c = n in
  let rates := ∃ r c, r ∈ cs ∧ heap w !! r = Some c ∧ Child.class c = TokenRatesController in
  Composable.internalControllers (self w') = cs
  ∧ contextMap w' = slotsOf (heap w) ∅ cs
  ∧ (snd (set_controllers cs w) = Normal tt →
     Composable.state (self w') = statesOf (heap w) ∅ cs)
  ∧ (snd (set_controllers cs w) ≠ Normal tt →
     Composable.state (self w') = Composable.state (self w))
  ∧ ((rates → named "AssetsController" ∧ named "CurrencyRateController") →
     snd (set_controllers cs w) = Normal tt)
  ∧ (rates → ¬ (is_Some (slotsOf (heap w) ∅ cs !! "AssetsController")
                ∧ is_Some (slotsOf (heap w) ∅ cs !! "CurrencyRateController")) →
     snd (set_controllers cs w) = Throw undefinedSubscribe).
Proof.
  intros w' named rates. subst w'. unfold set_controllers.
  set (w1 := mkWorld (heap w) (contexts w ++ [∅])
               (Composable.mkComposableController cs (length (contexts w))
                  (Composable.state (self w)))
               (notifications w)).
  destruct (first_loop cs w1 ∅) as (Hself & Hctx & Hinit & Hnone & Hsome).
  destruct (foldl compose (w1, ∅) cs) as [w2 init2].
  cbn [fst snd] in Hself, Hctx, Hinit, Hnone, Hsome.
  change (heap w1) with (heap w) in *.
  change (Composable.context (self w1)) with (length (contexts w)) in *.
  assert (Hmap : contexts w2 !! length (contexts w) = Some (slotsOf (heap w) ∅ cs)).
  { rewrite Hctx. subst w1. cbn [contexts]. rewrite list_lookup_alter_eq.
    rewrite lookup_app_r by done. by rewrite Nat.sub_diag. }
  assert (Hctxof : ∀ r c, r ∈ cs → heap w !! r = Some c →
            contextOf r w2 = slotsOf (heap w) ∅ cs).
  { intros r c Hin Hc. destruct (Hsome r c Hc) as (c' & Hc' & _ & _ & _ & Hcx).
    unfold contextOf. by rewrite Hc', (Hcx Hin), Hmap. }
  pose proof (forEach_same cs w2) as Hsame.
  unfold bind.
  destruct (forEach onComposed cs w2) as [w3 c3] eqn:Hloop. cbn [fst] in Hsame.
  destruct Hsame as (Hc3 & Hs3 & _ & _).
  assert (Hok : (rates → named "AssetsController" ∧ named "CurrencyRateController") →
                c3 = Normal tt).
  { intros Hsib.
    assert (Hs : snd (forEach onComposed cs w2) = Normal tt); [|by rewrite Hloop in Hs].
    apply forEach_ready. intros r Hr c' Hc' Hk.
    destruct (heap w !! r) as [c|] eqn:Hc; [|by rewrite (Hnone r Hc) in Hc'].
    destruct (Hsome r c Hc) as (c'' & Hc'' & _ & Hk'' & _).
    assert (c'' = c') as -> by congruence.
    rewrite (Hctxof r c Hr Hc).
    destruct Hsib as [Ha Hk']; [exists r, c; repeat split; congruence|].
    split; by apply slotsOf_named. }
  assert (Hbad : rates → ¬ (is_Some (slotsOf (heap w) ∅ cs !! "AssetsController")
                            ∧ is_Some (slotsOf (heap w) ∅ cs !! "CurrencyRateController")) →
                 c3 = Throw undefinedSubscribe).
  { intros (r & c & Hr & Hc & Hk) Hmiss.
    assert (Hs : snd (forEach onComposed cs w2) = Throw undefinedSubscribe);
      [|by rewrite Hloop in Hs].
    destruct (Hsome r c Hc) as (c' & Hc' & _ & Hk' & _).
    apply (forEach_not_ready cs w2 r c' Hr Hc'); [congruence|].
    rewrite (Hctxof r c Hr Hc).
    destruct (slotsOf (heap w) ∅ cs !! "AssetsController"); [|by left].
    destruct (slotsOf (heap w) ∅ cs !! "CurrencyRateController"); [|by right].
    exfalso. apply Hmiss. by split. }
  destruct c3 as [[]|e]; cbn [fst snd update self contexts]; unfold contextMap;
    cbn [self contexts Composable.internalControllers Composable.context Composable.state];
    rewrite ?Hs3, ?Hc3, ?Hself; subst w1;
    cbn [self Composable.internalControllers Composable.context Composable.state];
    rewrite Hmap; cbn [default from_option id].
  - repeat split; try done.
  - split; [done|]. split; [done|]. split; [done|]. split; [done|].
    split; [intros Hsib; by specialize (Hok Hsib)|exact Hbad].
Qed.

Lemma slotsOf_named_inv (h : Heap) cs n :
  is_Some (slotsOf h ∅ cs !! n) → ∃ r c, r ∈ cs ∧ h !! r = Some c ∧ Child.name c = n.
Proof.
  induction cs as [|r0 cs IH] using rev_ind.
  - simpl. rewrite lookup_empty. by intros [? ?].
  - rewrite slotsOf_snoc. destruct (h !! r0) as [c0|] eqn:Hr0.
    + rewrite lookup_insert. case_decide as Hn.
      * intros _. exists r0, c0. split; [|done]. apply elem_of_app. right. by left.
      * intros Hs. destruct (IH Hs) as (r & c & Hin & ? & ?).
        exists r, c. split; [|done]. apply elem_of_app. by left.
    + intros Hs. destruct (IH Hs) as (r & c & Hin & ? & ?).
      exists r, c. split; [|done]. apply elem_of_app. by left.
Qed.

(** Among the children [cs] one is called [n]; one of them is a
    TokenRatesController. *)
Definition named (w : World) (cs : list nat) (n : string) : Prop :=
  ∃ r c, r ∈ cs ∧ heap w !! r = Some c ∧ Child.name c = n.

Definition holdsRates (w : World) (cs : list nat) : Prop :=
  ∃ r c, r ∈ cs ∧ heap w !! r = Some c ∧ Child.class c = TokenRatesController.

(** C7, as the code has it: when a list is assigned in which a child is
    followed by a later child of the same name, and no child after that one
    has the name, the slot of that name in the context map holds the later
    child, whether the setter returns or throws.  When the setter returns
    normally, the slot of that name in the aggregate state holds the later
    child's state.  It returns normally when every [onComposed] does: when
    the list holds no TokenRatesController, or holds children called
    AssetsController and CurrencyRateController beside it.  When the list
    holds a TokenRatesController without both of them, the setter throws out
    of [onComposed] and the aggregate state is what it was before the
    assignment. *)
Theorem later_child_overwrites_slot
    (w : World) (pre post : list nat) (r0 r : nat) (c0 c : Child.t BaseState) :
  r0 ∈ pre →
  heap w !! r0 = Some c0 →
  heap w !! r = Some c →
  Child.name c0 = Child.name c →
  (∀ r' c', r' ∈ post → heap w !! r' = Some c' → Child.name c' ≠ Child.name c) →
  let cs := pre ++ r :: post in
  let w' := fst (set_controllers cs w) in
  contextMap w' !! Child.name c0 = Some r
  ∧ (snd (set_controllers cs w) = Normal tt →
     Composable.state (self w') !! Child.name c0 = Some (Child.state c))
  ∧ ((holdsRates w cs →
      named w cs "AssetsController"%string ∧ named w cs "CurrencyRateController"%string) →
     snd (set_controllers cs w) = Normal tt)
  ∧ (holdsRates w cs →
     ¬ (named w cs "AssetsController"%string ∧ named w cs "CurrencyRateController"%string) →
     snd (set_controllers cs w) = Throw undefinedSubscribe
     ∧ Composable.state (self w') = Composable.state (self w)).
Proof.
  intros _ _ Hr Hname Hpost cs w'.
  destruct (setter_over_overriding_children cs w) as (_ & Hctx & Hst & Hkeep & Hok & Hbad).
  fold w' in Hctx, Hst, Hkeep. rewrite Hname.
  split; [rewrite Hctx; by apply slotsOf_later|].
  split; [intros Hn; rewrite (Hst Hn); by apply statesOf_later|].
  split; [exact Hok|].
  intros Hrates Hmiss.
  assert (Hthrow : snd (set_controllers cs w) = Throw undefinedSubscribe).
  { apply Hbad; [exact Hrates|]. intros [Ha Hk]. apply Hmiss.
    split; by apply slotsOf_named_inv. }
  split; [exact Hthrow|]. apply Hkeep. by rewrite Hthrow.
Qed.

End WithState.

(** Two controllers of the same class, and a TokenRatesController. *)
Definition sampleChildren : gmap nat (Child.t Z) :=
  {[ 0%nat := Child.mk "AssetsController" Inheriting 1 None [];
     1%nat := Child.mk "AssetsController" Inheriting 2 None [];
     2%nat := Child.mk "TokenRatesController" TokenRatesController 3 None [] ]}.

Lemma later_child_overwrites_slot_witness :
  let w := fst (new sampleChildren []) in
  let w' := fst (set_controllers ([0%nat] ++ 1%nat :: []) w) in
  contextMap w' !! "AssetsController"%string = Some 1%nat
  ∧ snd (set_controllers ([0%nat] ++ 1%nat :: []) w) = Normal tt
  ∧ Composable.state (self w') !! "AssetsController"%string = Some 2.
Proof.
  destruct (later_child_overwrites_slot (fst (new sampleChildren [])) [0%nat] [] 0%nat 1%nat
              (Child.mk "AssetsController" Inheriting 1 None [])
              (Child.mk "AssetsController" Inheriting 2 None []))
    as (Hctx & Hst & Hok & _).
  - by left.
  - vm_compute. reflexivity.
  - vm_compute. reflexivity.
  - reflexivity.
  - intros r' c' Hin. by apply elem_of_nil in Hin.
  - cbv zeta. split; [exact Hctx|].
    assert (Hn : snd (set_controllers ([0%nat] ++ 1%nat :: []) (fst (new sampleChildren [])))
                 = Normal tt) by (vm_compute; reflexivity).
    split; [exact Hn|exact (Hst Hn)].
Defined.

(** C7, the claim as stated fails: two controllers of the same name are
    assigned together with a TokenRatesController and no
    CurrencyRateController.  The later of the two has the slot in the
    context map, but [onComposed] of the TokenRatesController throws: the
    assignment raises the error, and the aggregate state has no slot of
    that name at all. *)
Lemma same_name_with_lone_rates_raises :
  let w := fst (new sampleChildren []) in
  let w' := fst (set_controllers [0%nat; 1%nat; 2%nat] w) in
  snd (new sampleChildren []) = Normal tt
  ∧ snd (set_controllers [0%nat; 1%nat; 2%nat] w) = Throw undefinedSubscribe
  ∧ contextMap w' !! "AssetsController"%string = Some 1%nat
  ∧ Composable.state (self w') !! "AssetsController"%string = None
  ∧ snd (new sampleChildren [0%nat; 1%nat; 2%nat]) = Throw undefinedSubscribe.
Proof. repeat split; vm_compute; reflexivity. Qed.

End ComposedFacts.

(** ** The token lists of AssetsController and PreferencesController *)
Module TokenListFacts.

Import TokenRates.

Section WithChecksum.

Variable toChecksumAddress : string -> string.

(** The list that both [addToken] methods store and return. *)
Definition addedTo (address symbol : string) (decimals : Z) (tokens : list Token) : list Token :=
  Assets.tokens
    (fst (Assets.addToken toChecksumAddress address symbol decimals
            (Assets.mkAssetsState [] tokens))).

Lemma Assets_addToken_eq address symbol decimals s :
  Assets.addToken toChecksumAddress address symbol decimals s
  = (Assets.mkAssetsState (Assets.collectibles s)
       (addedTo address symbol decimals (Assets.tokens s)),
     addedTo address symbol decimals (Assets.tokens s)).
Proof. reflexivity. Qed.

Lemma Preferences_addToken_eq address symbol decimals s :
  Preferences.addToken toChecksumAddress address symbol decimals s
  = (Preferences.mkPreferencesState (Preferences.collectibles s) (Preferences.featureFlags s)
       (Preferences.identities s) (Preferences.lostIdentities s)
       (Preferences.selectedAddress s)
       (addedTo address symbol decimals (Preferences.tokens s)),
     addedTo address symbol decimals (Preferences.tokens s)).
Proof. reflexivity. Qed.

Lemma find_None {A} (p : A -> bool) (l : list A) :
  JSArray.find p l = None ↔ ∀ x, x ∈ l → p x = false.
Proof.
  induction l as [|y l IH]; simpl.
  - split; [|done]. intros _ x Hx. by apply elem_of_nil in Hx.
  - destruct (p y) eqn:Hy.
    + split; [done|]. intros H. specialize (H y (list_elem_of_here _ _)). congruence.
    + rewrite IH. split.
      * intros H x Hx. apply elem_of_cons in Hx as [->|Hx]; [done|by apply H].
      * intros H x Hx. apply H. by right.
Qed.

Lemma find_indexOf {A} `{EqDecision A} (p : A -> bool) (l : list A) (x : A) :
  JSArray.find p l = Some x →
  ∃ i, JSArray.indexOf x l = Some i ∧ l !! i = Some x ∧ p x = true.
Proof.
  induction l as [|y l IH]; simpl; [done|].
  destruct (p y) eqn:Hy.
  - intros [= ->]. exists 0%nat. by rewrite decide_True.
  - intros Hfind. destruct (IH Hfind) as (i & Hi & Hl & Hp).
    exists (S i). rewrite decide_False by congruence. by rewrite Hi.
Qed.

(** The two cases of [addToken] on the stored list. *)
Lemma addedTo_cases address symbol decimals tokens :
  let a := toChecksumAddress address in
  let newEntry := {| address := a; decimals := decimals; symbol := symbol |} in
  (∃ i t, tokens !! i = Some t ∧ TokenRates.address t = a
          ∧ addedTo address symbol decimals tokens = <[i := newEntry]> tokens)
  ∨ ((∀ t, t ∈ tokens → TokenRates.address t ≠ a)
     ∧ addedTo address symbol decimals tokens = tokens ++ [newEntry]).
Proof.
  intros a newEntry. unfold addedTo, Assets.addToken. cbn [fst Assets.tokens].
  fold a.
  destruct (JSArray.find _ tokens) as [x|] eqn:Hfind.
  - left. destruct (find_indexOf _ _ _ Hfind) as (i & Hi & Hl & Hp).
    rewrite Hi. exists i, x. apply bool_decide_eq_true in Hp. done.
  - right. split; [|done]. intros t Ht.
    apply (proj1 (find_None _ _) Hfind) in Ht. by apply bool_decide_eq_false in Ht.
Qed.

Lemma addedTo_spec address symbol decimals tokens :
  NoDup (TokenRates.address <$> tokens) →
  let a := toChecksumAddress address in
  let newEntry := {| address := a; decimals := decimals; symbol := symbol |} in
  NoDup (TokenRates.address <$> addedTo address symbol decimals tokens)
  ∧ (∀ i t, tokens !! i = Some t → TokenRates.address t = a →
        addedTo address symbol decimals tokens = <[i := newEntry]> tokens
        ∧ TokenRates.address <$> addedTo address symbol decimals tokens
          = TokenRates.address <$> tokens)
  ∧ ((∀ t, t ∈ tokens → TokenRates.address t ≠ a) →
        addedTo address symbol decimals tokens = tokens ++ [newEntry]).
Proof.
  intros Hnd a newEntry.
  assert (Hsame : ∀ i t, tokens !! i = Some t → TokenRates.address t = a →
            TokenRates.address <$> <[i := newEntry]> tokens = TokenRates.address <$> tokens).
  { intros i t Hi Ha. rewrite list_fmap_insert. apply list_insert_id.
    rewrite list_lookup_fmap, Hi. simpl. by rewrite Ha. }
  destruct (addedTo_cases address symbol decimals tokens)
    as [(i0 & t0 & Hi0 & Ha0 & Heq)|[Hfresh Heq]]; fold a newEntry in Heq.
  - assert (Huniq : ∀ i t, tokens !! i = Some t → TokenRates.address t = a → i = i0).
    { intros i t Hi Ha. eapply NoDup_lookup; [exact Hnd| |].
      - rewrite list_lookup_fmap, Hi. simpl. by rewrite Ha.
      - rewrite list_lookup_fmap, Hi0. simpl. by rewrite Ha0. }
    rewrite Heq. split; [by rewrite (Hsame i0 t0)|]. split.
    + intros i t Hi Ha. rewrite (Huniq i t Hi Ha). split; [done|by apply (Hsame i0 t0)].
    + intros Hfresh. exfalso. eapply Hfresh; [|exact Ha0].
      by eapply list_elem_of_lookup_2.
  - rewrite Heq. split; [|split; [|done]].
    + rewrite fmap_app. apply NoDup_app. split; [done|]. split; [|apply NoDup_singleton].
      intros x Hx Hx'. apply list_elem_of_singleton in Hx'. subst x.
      apply list_elem_of_fmap in Hx as (t & Ht & Hin). by eapply Hfresh.
    + intros i t Hi Ha. exfalso. eapply Hfresh; [|exact Ha].
      by eapply list_elem_of_lookup_2.
Qed.

(** C10: for AssetsController and for PreferencesController alike, when
    no two stored tokens share an address, [addToken] returns the list it
    stores, and in that list again no two tokens share an address.  If a
    stored token has the checksummed address already, the new entry takes
    its place: the stored list is the old one with that position
    overwritten, and the addresses, in order, are what they were.  If none
    has, the new entry is appended.  Nothing but the token list changes. *)
Theorem addToken_keeps_addresses_unique (address symbol : string) (decimals : Z)
    (sa : Assets.AssetsState) (sp : Preferences.PreferencesState) :
  NoDup (TokenRates.address <$> Assets.tokens sa) →
  NoDup (TokenRates.address <$> Preferences.tokens sp) →
  let a := toChecksumAddress address in
  let newEntry := {| address := a; decimals := decimals; symbol := symbol |} in
  let ra := Assets.addToken toChecksumAddress address symbol decimals sa in
  let rp := Preferences.addToken toChecksumAddress address symbol decimals sp in
  (NoDup (TokenRates.address <$> Assets.tokens (fst ra))
   ∧ snd ra = Assets.tokens (fst ra)
   ∧ Assets.collectibles (fst ra) = Assets.collectibles sa
   ∧ (∀ i t, Assets.tokens sa !! i = Some t → TokenRates.address t = a →
        Assets.tokens (fst ra) = <[i := newEntry]> (Assets.tokens sa)
        ∧ TokenRates.address <$> Assets.tokens (fst ra)
          = TokenRates.address <$> Assets.tokens sa)
   ∧ ((∀ t, t ∈ Assets.tokens sa → TokenRates.address t ≠ a) →
        Assets.tokens (fst ra) = Assets.tokens sa ++ [newEntry]))
  ∧ (NoDup (TokenRates.address <$> Preferences.tokens (fst rp))
     ∧ snd rp = Preferences.tokens (fst rp)
     ∧ Preferences.selectedAddress (fst rp) = Preferences.selectedAddress sp
     ∧ Preferences.identities (fst rp) = Preferences.identities sp
     ∧ (∀ i t, Preferences.tokens sp !! i = Some t → TokenRates.address t = a →
          Preferences.tokens (fst rp) = <[i := newEntry]> (Preferences.tokens sp)
          ∧ TokenRates.address <$> Preferences.tokens (fst rp)
            = TokenRates.address <$> Preferences.tokens sp)
     ∧ ((∀ t, t ∈ Preferences.tokens sp → TokenRates.address t ≠ a) →
          Preferences.tokens (fst rp) = Preferences.tokens sp ++ [newEntry])).
Proof.
  intros Ha Hp a newEntry ra rp. subst ra rp.
  rewrite Assets_addToken_eq, Preferences_addToken_eq.
  cbn [fst snd Assets.tokens Assets.collectibles Preferences.tokens
       Preferences.selectedAddress Preferences.identities].
  destruct (addedTo_spec address symbol decimals _ Ha) as (Ha1 & Ha2 & Ha3).
  destruct (addedTo_spec address symbol decimals _ Hp) as (Hp1 & Hp2 & Hp3).
  split.
  - split; [exact Ha1|]. split; [reflexivity|]. split; [reflexivity|].
    split; [exact Ha2|exact Ha3].
  - split; [exact Hp1|]. split; [reflexivity|]. split; [reflexivity|].
    split; [reflexivity|]. split; [exact Hp2|exact Hp3].
Qed.

End WithChecksum.

Definition storedTokens : list Token :=
  [ {| address := "0xAA"; decimals := 18; symbol := "FOO" |};
    {| address := "0xBB"; decimals := 6; symbol := "BAR" |};
    {| address := "0xCC"; decimals := 8; symbol := "BAZ" |} ].

Lemma addToken_keeps_addresses_unique_witness :
  let sa := Assets.mkAssetsState [] storedTokens in
  let sp := Preferences.mkPreferencesState [] ∅ ∅ ∅ (Some "0xAA") storedTokens in
  let ra := Assets.addToken TokenRatesFacts.sampleChecksum "0xBB" "QUX" 2 sa in
  let rp := Preferences.addToken TokenRatesFacts.sampleChecksum "0xBB" "QUX" 2 sp in
  snd ra = [ {| address := "0xAA"; decimals := 18; symbol := "FOO" |};
             {| address := "0xBB"; decimals := 2; symbol := "QUX" |};
             {| address := "0xCC"; decimals := 8; symbol := "BAZ" |} ]
  ∧ NoDup (TokenRates.address <$> Assets.tokens (fst ra))
  ∧ NoDup (TokenRates.address <$> Preferences.tokens (fst rp)).
Proof.
  split; [reflexivity|].
  assert (Hnd : NoDup (TokenRates.address <$> storedTokens)).
  { apply (bool_decide_unpack _). vm_compute. exact I. }
  destruct (addToken_keeps_addresses_unique TokenRatesFacts.sampleChecksum "0xBB" "QUX" 2
              (Assets.mkAssetsState [] storedTokens)
              (Preferences.mkPreferencesState [] ∅ ∅ ∅ (Some "0xAA") storedTokens) Hnd Hnd)
    as [(Hna & _) (Hnp & _)].
  split; [exact Hna|exact Hnp].
Defined.

End TokenListFacts.

(** ** Removing tokens *)
Module TokenRemovalFacts.

Import TokenRates TokenListFacts.

Section WithChecksum.

Variable toChecksumAddress : string -> string.

(** The list that both [removeToken] methods store. *)
Definition removedFrom (address : string) (tokens : list Token) : list Token :=
  Assets.tokens (Assets.removeToken toChecksumAddress address (Assets.mkAssetsState [] tokens)).

Lemma Assets_removeToken_eq address s :
  Assets.removeToken toChecksumAddress address s
  = Assets.mkAssetsState (Assets.collectibles s) (removedFrom address (Assets.tokens s)).
Proof. reflexivity. Qed.

Lemma Preferences_removeToken_eq address s :
  Preferences.removeToken toChecksumAddress address s
  = Preferences.mkPreferencesState (Preferences.collectibles s) (Preferences.featureFlags s)
      (Preferences.identities s) (Preferences.lostIdentities s)
      (Preferences.selectedAddress s) (removedFrom address (Preferences.tokens s)).
Proof. reflexivity. Qed.

Lemma removedFrom_filter address tokens :
  removedFrom address tokens
  = filter (fun token => TokenRates.address token ≠ toChecksumAddress address) tokens.
Proof. reflexivity. Qed.

Lemma removedFrom_spec address tokens :
  let a := toChecksumAddress address in
  (∀ t, t ∈ removedFrom address tokens ↔ t ∈ tokens ∧ TokenRates.address t ≠ a)
  ∧ removedFrom address tokens `sublist_of` tokens
  ∧ (NoDup (TokenRates.address <$> tokens) →
     NoDup (TokenRates.address <$> removedFrom address tokens))
  ∧ removedFrom address (removedFrom address tokens) = removedFrom address tokens
  ∧ ((∀ t, t ∈ tokens → TokenRates.address t ≠ a) → removedFrom address tokens = tokens).
Proof.
  intros a. rewrite !removedFrom_filter. fold a.
  split; [|split; [|split; [|split]]].
  - intros t. rewrite list_elem_of_filter. tauto.
  - apply sublist_filter.
  - intros Hnd. eapply sublist_NoDup; [exact Hnd|apply fmap_sublist, sublist_filter].
  - apply list_filter_filter_l. done.
  - intros Hall. induction tokens as [|t tokens IH]; [done|].
    rewrite filter_cons_True by (apply Hall; left).
    f_equal. apply IH. intros t' Ht'. apply Hall. by right.
Qed.

(** X10: [removeToken], in AssetsController and in PreferencesController
    alike, removes every stored token with the checksummed address and no
    other: the tokens left are those with another address, in the order
    they had; addresses that were unique stay unique; the rest of the state
    is untouched; removing again changes nothing, and so does removing an
    address that no stored token has. *)
Theorem removeToken_removes_that_address_only (address : string)
    (sa : Assets.AssetsState) (sp : Preferences.PreferencesState) :
  let a := toChecksumAddress address in
  let sa' := Assets.removeToken toChecksumAddress address sa in
  let sp' := Preferences.removeToken toChecksumAddress address sp in
  ((∀ t, t ∈ Assets.tokens sa' ↔ t ∈ Assets.tokens sa ∧ TokenRates.address t ≠ a)
   ∧ Assets.tokens sa' `sublist_of` Assets.tokens sa
   ∧ (NoDup (TokenRates.address <$> Assets.tokens sa) →
      NoDup (TokenRates.address <$> Assets.tokens sa'))
   ∧ Assets.collectibles sa' = Assets.collectibles sa
   ∧ Assets.removeToken toChecksumAddress address sa' = sa'
   ∧ ((∀ t, t ∈ Assets.tokens sa → TokenRates.address t ≠ a) →
      Assets.tokens sa' = Assets.tokens sa))
  ∧ ((∀ t, t ∈ Preferences.tokens sp' ↔ t ∈ Preferences.tokens sp ∧ TokenRates.address t ≠ a)
     ∧ Preferences.tokens sp' `sublist_of` Preferences.tokens sp
     ∧ (NoDup (TokenRates.address <$> Preferences.tokens sp) →
        NoDup (TokenRates.address <$> Preferences.tokens sp'))
     ∧ Preferences.identities sp' = Preferences.identities sp
     ∧ Preferences.selectedAddress sp' = Preferences.selectedAddress sp
     ∧ Preferences.removeToken toChecksumAddress address sp' = sp'
     ∧ ((∀ t, t ∈ Preferences.tokens sp → TokenRates.address t ≠ a) →
        Preferences.tokens sp' = Preferences.tokens sp)
     ∧ Preferences.collectibles sp' = Preferences.collectibles sp
     ∧ Preferences.featureFlags sp' = Preferences.featureFlags sp
     ∧ Preferences.lostIdentities sp' = Preferences.lostIdentities sp).
Proof.
  intros a sa' sp'. subst sa' sp'.
  rewrite !Assets_removeToken_eq, !Preferences_removeToken_eq.
  cbn [Assets.tokens Assets.collectibles Preferences.tokens Preferences.identities
       Preferences.selectedAddress Preferences.collectibles Preferences.featureFlags
       Preferences.lostIdentities].
  destruct (removedFrom_spec address (Assets.tokens sa)) as (Ha1 & Ha2 & Ha3 & Ha4 & Ha5).
  destruct (removedFrom_spec address (Preferences.tokens sp)) as (Hp1 & Hp2 & Hp3 & Hp4 & Hp5).
  split.
  - split; [exact Ha1|]. split; [exact Ha2|]. split; [exact Ha3|].
    split; [reflexivity|]. split; [by rewrite Ha4|exact Ha5].
  - split; [exact Hp1|]. split; [exact Hp2|]. split; [exact Hp3|].
    split; [reflexivity|]. split; [reflexivity|]. split; [by rewrite Hp4|].
    split; [exact Hp5|]. done.
Qed.

(** X11: adding and removing undo each other only one way round.  When no
    stored token has the address, removing it after adding it gives the
    stored list back.  Adding after removing, whatever was stored, puts the
    new entry at the end of what the removal left, so a token that is
    removed and added again moves to the end of the list.  Both hold for
    AssetsController and PreferencesController. *)
Theorem removeToken_after_addToken_restores (address symbol : string) (decimals : Z)
    (sa : Assets.AssetsState) (sp : Preferences.PreferencesState) :
  let a := toChecksumAddress address in
  let newEntry := {| address := a; decimals := decimals; symbol := symbol |} in
  let addA := Assets.addToken toChecksumAddress address symbol decimals in
  let addP := Preferences.addToken toChecksumAddress address symbol decimals in
  ((∀ t, t ∈ Assets.tokens sa → TokenRates.address t ≠ a) →
     Assets.removeToken toChecksumAddress address (fst (addA sa)) = sa)
  ∧ Assets.tokens (fst (addA (Assets.removeToken toChecksumAddress address sa)))
    = filter (fun t => TokenRates.address t ≠ a) (Assets.tokens sa) ++ [newEntry]
  ∧ ((∀ t, t ∈ Preferences.tokens sp → TokenRates.address t ≠ a) →
       Preferences.removeToken toChecksumAddress address (fst (addP sp)) = sp)
  ∧ Preferences.tokens (fst (addP (Preferences.removeToken toChecksumAddress address sp)))
    = filter (fun t => TokenRates.address t ≠ a) (Preferences.tokens sp) ++ [newEntry].
Proof.
  intros a newEntry addA addP. subst addA addP.
  assert (Hadd_fresh : ∀ tokens, (∀ t, t ∈ tokens → TokenRates.address t ≠ a) →
            addedTo toChecksumAddress address symbol decimals tokens = tokens ++ [newEntry]).
  { intros tokens Hfresh.
    destruct (addedTo_cases toChecksumAddress address symbol decimals tokens)
      as [(i & t & Hi & Ht & _)|[_ Heq]]; [|exact Heq].
    exfalso. eapply Hfresh; [|exact Ht]. by eapply list_elem_of_lookup_2. }
  assert (Hundo : ∀ tokens, (∀ t, t ∈ tokens → TokenRates.address t ≠ a) →
            removedFrom address (tokens ++ [newEntry]) = tokens).
  { intros tokens Hfresh. rewrite removedFrom_filter, filter_app.
    rewrite filter_cons_False, filter_nil, app_nil_r by (intros H; by apply H).
    destruct (removedFrom_spec address tokens) as (_ & _ & _ & _ & Hid).
    rewrite <- removedFrom_filter. by apply Hid. }
  assert (Hgone : ∀ tokens t, t ∈ removedFrom address tokens → TokenRates.address t ≠ a).
  { intros tokens t Ht.
    destruct (removedFrom_spec address tokens) as (Hin & _). by apply Hin in Ht as [_ ?]. }
  rewrite !Assets_addToken_eq, !Preferences_addToken_eq.
  rewrite !Assets_removeToken_eq, !Preferences_removeToken_eq.
  cbn [fst Assets.tokens Assets.collectibles Preferences.tokens Preferences.identities
       Preferences.selectedAddress Preferences.collectibles Preferences.featureFlags
       Preferences.lostIdentities].
  split; [|split; [|split]].
  - intros Hfresh. rewrite Hadd_fresh, Hundo by done. by destruct sa.
  - rewrite Hadd_fresh by apply Hgone. by rewrite removedFrom_filter.
  - intros Hfresh. rewrite Hadd_fresh, Hundo by done. by destruct sp.
  - rewrite Hadd_fresh by apply Hgone. by rewrite removedFrom_filter.
Qed.

End WithChecksum.

Lemma removeToken_after_addToken_restores_witness :
  let sa := Assets.mkAssetsState [] storedTokens in
  Assets.removeToken TokenRatesFacts.sampleChecksum "0xDD"
    (fst (Assets.addToken TokenRatesFacts.sampleChecksum "0xDD" "QUX" 2 sa)) = sa.
Proof.
  refine (proj1 (removeToken_after_addToken_restores TokenRatesFacts.sampleChecksum
                   "0xDD" "QUX" 2 (Assets.mkAssetsState [] storedTokens)
                   (Preferences.mkPreferencesState [] ∅ ∅ ∅ (Some "0xAA") storedTokens)) _).
  intros t Ht. apply list_elem_of_In in Ht.
  destruct Ht as [<-|[<-|[<-|[]]]]; discriminate.
Defined.

End TokenRemovalFacts.

(** ** Collectibles *)
Module CollectiblesFacts.

Import Assets Collectibles.

(** What identifies a collectible: contract address and token identifier. *)
Definition keyOf (c : Collectible) : string * Z := (c_address c, tokenId c).

Lemma exists_entry_check address id (l : list Collectible) :
  (0 <? length (filter (isEntry address id) l))%nat = true
  ↔ ∃ c, c ∈ l ∧ isEntry address id c.
Proof.
  rewrite Nat.ltb_lt. split.
  - intros Hlen. destruct (filter (isEntry address id) l) as [|c l'] eqn:Hf; [simpl in Hlen; lia|].
    assert (Hc : c ∈ filter (isEntry address id) l) by (rewrite Hf; left).
    apply list_elem_of_filter in Hc as [Hc Hin]. by exists c.
  - intros (c & Hin & Hc).
    assert (Hc' : c ∈ filter (isEntry address id) l) by (by apply list_elem_of_filter).
    destruct (filter (isEntry address id) l); [by apply elem_of_nil in Hc'|simpl; lia].
Qed.

Lemma no_entry_check address id (l : list Collectible) :
  (0 <? length (filter (isEntry address id) l))%nat = false
  ↔ ∀ c, c ∈ l → ¬ isEntry address id c.
Proof.
  rewrite <- not_true_iff_false, exists_entry_check. split.
  - intros Hno c Hin Hc. apply Hno. by exists c.
  - intros Hall (c & Hin & Hc). by apply (Hall c).
Qed.

Lemma isEntry_keyOf address id c : isEntry address id c ↔ keyOf c = (address, id).
Proof. unfold isEntry, keyOf. split; [by intros [-> ->]|by intros [= -> ->]]. Qed.

Section WithContracts.

Variable toChecksumAddress : string -> string.
Variable contractMap : gmap string Contract.

Local Abbreviation addCollectible := (addCollectible toChecksumAddress contractMap).
Local Abbreviation removeCollectible := (removeCollectible toChecksumAddress).
Local Abbreviation requestNFTCustomInformation := (requestNFTCustomInformation contractMap).
Local Abbreviation step := (step toChecksumAddress contractMap).
Local Abbreviation run := (run toChecksumAddress contractMap).

(** X12: [addCollectible] adds no collectible twice and asks only for
    collectibles of known ERC-721 contracts.  When a collectible with the
    checksummed address and the token identifier is stored, the call returns
    the stored list at once and changes nothing.  Otherwise it is suspended
    with the list it read, the state being unchanged so far; it has made a
    fetch, for the contract's [api] and the token identifier, exactly when
    [contractMap] has the address with a true [erc721]. *)
Theorem addCollectible_checks_before_asking (address : string) (id : Z) (w : World) :
  let a := toChecksumAddress address in
  ((∃ c, c ∈ collectibles (state w) ∧ c_address c = a ∧ tokenId c = id) →
     addCollectible address id w = (w, Returned (Normal (collectibles (state w)))))
  ∧ ((∀ c, c ∈ collectibles (state w) → ¬ (c_address c = a ∧ tokenId c = id)) →
     ∃ w' request,
       addCollectible address id w = (w', Suspended)
       ∧ state w' = state w
       ∧ pending w' = pending w ++ [mkAdding a id (collectibles (state w)) request]
       ∧ request = requestNFTCustomInformation a id
       ∧ (∀ url, request = Fetching url ↔
            ∃ contract, contractMap !! a = Some contract ∧ erc721 contract = true
                        ∧ url = (api contract, id))
       ∧ fetchCalls w' = (fetchCalls w + match request with
                                         | Fetching _ => 1
                                         | NoRequest => 0
                                         end)%nat).
Proof.
  intros a. split.
  - intros Hex. unfold Collectibles.addCollectible. fold a.
    rewrite (proj2 (exists_entry_check a id _)); [done|].
    destruct Hex as (c & Hin & Hc). by exists c.
  - intros Hno. unfold Collectibles.addCollectible. fold a.
    rewrite (proj2 (no_entry_check a id _)) by exact Hno.
    eexists _, _. split; [reflexivity|]. cbn [state pending fetchCalls].
    split; [done|]. split; [done|]. split; [done|]. split; [|done].
    intros url. unfold Collectibles.requestNFTCustomInformation, getCollectibleApi.
    destruct (contractMap !! a) as [contract|]; [destruct (erc721 contract) eqn:He|].
    + split.
      * intros [= <-]. by exists contract.
      * intros (contract' & [= <-] & _ & ->). done.
    + split; [done|]. intros (contract' & [= <-] & Ht & _). congruence.
    + split; [done|]. by intros (contract' & ? & _).
Qed.

(** X13: a suspended [addCollectible] writes back the list it read when
    it was called.  When it goes on, the stored collectibles become that
    list with the new entry at its end, whatever is stored by then, so what
    other calls added or removed in between is lost; the call returns the
    list it stored and never fails.  The entry has the call's address and
    token identifier; its name and image are those of the API's answer, and
    are empty when no request was made or the request failed. *)
Theorem addCollectible_writes_back_what_it_read
    (w : World) (i : nat) (call : Adding) (settled : Completion Json) :
  pending w !! i = Some call →
  ∃ w' entry,
    step (Resume i settled) w = Some w'
    ∧ collectibles (state w') = a_collectibles call ++ [entry]
    ∧ snd (addCollectible_resume call settled w) = Normal (a_collectibles call ++ [entry])
    ∧ c_address entry = a_address call
    ∧ tokenId entry = a_tokenId call
    ∧ tokens (state w') = tokens (state w)
    ∧ pending w' = delete i (pending w)
    ∧ (a_request call = NoRequest ∨ (∃ e, settled = Throw e) →
       c_name entry = "" ∧ image entry = "")
    ∧ (∀ url json, a_request call = Fetching url → settled = Normal json →
       c_name entry = name json ∧ image entry = image_url json).
Proof.
  intros Hcall. unfold Collectibles.step. rewrite Hcall.
  destruct call as [a id l request]. cbn [a_request a_collectibles a_address a_tokenId].
  destruct request as [|url]; [|destruct settled as [json|e]];
    (eexists _, _; split; [reflexivity|]); cbn;
    do 6 (split; [reflexivity|]);
    (split; [intros H|intros url' json' Hr Hs]);
    first [ done
          | destruct H as [H|[? H]]; discriminate
          | injection Hs as <-; done
          | discriminate ].
Qed.

(** Collectibles are stored once, and every suspended call holds a list
    without repetition that lacks the collectible it is adding. *)
Definition storedOnce (w : World) : Prop :=
  NoDup (keyOf <$> collectibles (state w))
  ∧ ∀ call, call ∈ pending w →
            NoDup (keyOf <$> a_collectibles call)
            ∧ (a_address call, a_tokenId call) ∉ keyOf <$> a_collectibles call.

Lemma resume_world call settled v :
  ∃ entry, fst (addCollectible_resume call settled v)
           = Collectibles.update (a_collectibles call ++ [entry]) v
           ∧ keyOf entry = (a_address call, a_tokenId call).
Proof.
  destruct call as [a id l [|url]]; [|destruct settled as [json|e]];
    eexists; split; reflexivity.
Qed.

Lemma storedOnce_step ev w w' : storedOnce w → step ev w = Some w' → storedOnce w'.
Proof.
  intros [Hnd Hpend]. destruct ev as [address id|address id|i settled]; cbn [Collectibles.step].
  - intros H. apply (inj Some) in H. subst w'. unfold Collectibles.addCollectible.
    destruct (0 <? length _)%nat eqn:Hex; cbn [fst]; [by split|].
    split; [exact Hnd|]. cbn [pending]. intros call Hin.
    apply elem_of_app in Hin as [Hin|Hin]; [by apply Hpend|].
    apply list_elem_of_singleton in Hin. subst call. cbn.
    split; [exact Hnd|]. intros Hk.
    apply list_elem_of_fmap in Hk as (c & Hc & Hin).
    apply (proj1 (no_entry_check _ _ _) Hex c Hin). apply isEntry_keyOf. by symmetry.
  - intros H. apply (inj Some) in H. subst w'. unfold Collectibles.removeCollectible.
    split; [|exact Hpend]. cbn.
    eapply sublist_NoDup; [exact Hnd|apply fmap_sublist, sublist_filter].
  - destruct (pending w !! i) as [call|] eqn:Hcall; [|done].
    intros H. apply (inj Some) in H. subst w'.
    assert (Hin : call ∈ pending w) by (by eapply list_elem_of_lookup_2).
    destruct (Hpend call Hin) as [Hndc Hfresh].
    assert (Hrest : ∀ c, c ∈ delete i (pending w) → c ∈ pending w).
    { intros c Hc. by eapply list_elem_of_delete_inv. }
    destruct (resume_world call settled
                (mkWorld (state w) (delete i (pending w)) (fetchCalls w)))
      as (entry & -> & Hkey).
    split; [|intros c Hc; apply Hpend; by apply Hrest].
    cbn [Collectibles.update state collectibles].
    rewrite fmap_app. apply NoDup_app. split; [exact Hndc|].
    split; [|apply NoDup_singleton].
    intros k Hk Hk'. apply list_elem_of_singleton in Hk'. subst k.
    rewrite Hkey in Hk. by apply Hfresh.
Qed.

(** X14: no collectible is ever stored twice.  Starting from a state in
    which every pair of address and token identifier occurs at most once and
    no call is suspended, this stays so after every sequence of calls of
    [addCollectible] and [removeCollectible], however the calls overlap and
    in whatever order and way their requests settle. *)
Theorem collectibles_are_never_stored_twice (evs : list Event) (w w' : World) :
  NoDup (keyOf <$> collectibles (state w)) →
  pending w = [] →
  run evs w = Some w' →
  NoDup (keyOf <$> collectibles (state w')).
Proof.
  intros Hnd Hp Hrun.
  assert (Hinv : storedOnce w).
  { split; [exact Hnd|]. rewrite Hp. intros call Hin. by apply elem_of_nil in Hin. }
  clear Hnd Hp. revert w Hinv Hrun.
  induction evs as [|ev evs IH]; intros w Hinv Hrun; simpl in Hrun.
  - inversion Hrun; subst. apply Hinv.
  - destruct (Collectibles.step toChecksumAddress contractMap ev w) as [w1|] eqn:Hstep; [|done].
    eapply IH; [|exact Hrun]. by eapply storedOnce_step.
Qed.

(** X15: [removeCollectible] removes the collectible with the
    checksummed address and the token identifier and no other: the
    collectibles left are the others, in the order they had; tokens and
    suspended calls are untouched; and a call of [addCollectible] for the
    removed collectible is then not answered from the store but
    suspended. *)
Theorem removeCollectible_removes_that_entry_only (address : string) (id : Z) (w : World) :
  let a := toChecksumAddress address in
  let w' := removeCollectible address id w in
  (∀ c, c ∈ collectibles (state w')
        ↔ c ∈ collectibles (state w) ∧ ¬ (c_address c = a ∧ tokenId c = id))
  ∧ collectibles (state w') `sublist_of` collectibles (state w)
  ∧ tokens (state w') = tokens (state w)
  ∧ pending w' = pending w
  ∧ fetchCalls w' = fetchCalls w
  ∧ snd (addCollectible address id w') = Suspended.
Proof.
  intros a w'. subst w'. unfold Collectibles.removeCollectible. fold a. cbn.
  split; [|split; [apply sublist_filter|]].
  - intros c. rewrite list_elem_of_filter. unfold isEntry. tauto.
  - repeat split. unfold Collectibles.addCollectible. fold a. cbn [state collectibles].
    rewrite (proj2 (no_entry_check a id _)); [done|].
    intros c Hc. by apply list_elem_of_filter in Hc as [Hc _].
Qed.

End WithContracts.

Definition sampleContracts : gmap string Contract :=
  {[ "0xKitties" := {| erc721 := true; api := "https://api.example/kitty/" |};
     "0xCoin" := {| erc721 := false; api := "" |} ]}.

Definition emptyWorld : World :=
  {| state := mkAssetsState [] []; pending := []; fetchCalls := 0 |}.

Lemma addCollectible_writes_back_what_it_read_witness :
  ∃ w w' entry,
    Collectibles.run TokenRatesFacts.sampleChecksum sampleContracts
      [Add "0xKitties" 1; Add "0xCoin" 2; Resume 0 (Throw "offline")] emptyWorld = Some w
    ∧ length (collectibles (state w)) = 1%nat
    ∧ Collectibles.step TokenRatesFacts.sampleChecksum sampleContracts
        (Resume 0 (Throw "offline")) w = Some w'
    ∧ collectibles (state w') = [] ++ [entry]
    ∧ c_address entry = "0xCoin".
Proof.
  eexists.
  match goal with |- ∃ w' entry, ?r = Some ?w ∧ _ =>
    let v := eval vm_compute in r in
    match v with Some ?x => unify w x end
  end.
  match goal with |- ∃ w' entry, _ = Some ?w ∧ _ =>
    destruct (addCollectible_writes_back_what_it_read TokenRatesFacts.sampleChecksum
                sampleContracts w 0 (mkAdding "0xCoin" 2 [] NoRequest) (Throw "offline")
                eq_refl) as (w' & entry & Hs & Hc & _ & Ha & _)
  end.
  exists w', entry. split; [vm_compute; reflexivity|]. split; [reflexivity|].
  split; [exact Hs|]. split; [exact Hc|exact Ha].
Defined.

Lemma collectibles_are_never_stored_twice_witness :
  ∃ w', Collectibles.run TokenRatesFacts.sampleChecksum sampleContracts
          [Add "0xKitties" 1; Add "0xKitties" 1; Resume 1 (Throw "offline");
           Resume 0 (Normal {| image_url := "kitty.png"; name := "Kitty" |});
           Remove "0xCoin" 2; Add "0xKitties" 1] emptyWorld = Some w'
        ∧ NoDup (keyOf <$> collectibles (state w')).
Proof.
  eexists. split; [vm_compute; reflexivity|].
  refine (collectibles_are_never_stored_twice TokenRatesFacts.sampleChecksum sampleContracts
            [Add "0xKitties" 1; Add "0xKitties" 1; Resume 1 (Throw "offline");
             Resume 0 (Normal {| image_url := "kitty.png"; name := "Kitty" |});
             Remove "0xCoin" 2; Add "0xKitties" 1] emptyWorld _ _ eq_refl _).
  - apply NoDup_nil_2.
  - vm_compute. reflexivity.
Defined.

End CollectiblesFacts.

(** ** util.ts *)
Module UtilFacts.

Import Util.

Local Open Scope string_scope.

Lemma firstPart_free c s : includes c (firstPart c s) = false.
Proof.
  induction s as [|a s IH]; simpl; [done|].
  destruct (decide (a = c)) as [->|Hne]; simpl; [done|]. by rewrite decide_False.
Qed.

Lemma firstPart_prefix c s : ∃ rest, s = firstPart c s +:+ rest.
Proof.
  induction s as [|a s [rest IH]]; simpl; [by exists ""|].
  destruct (decide (a = c)); [by eexists|].
  exists rest. change (String a s = String a (firstPart c s +:+ rest)). by f_equal.
Qed.

Lemma firstPart_whole c s : includes c s = false → firstPart c s = s.
Proof.
  induction s as [|a s IH]; simpl; [done|].
  destruct (decide (a = c)); [done|]. intros H. by rewrite IH.
Qed.

Lemma firstPart_split c before after :
  includes c before = false → firstPart c (before +:+ String c after) = before.
Proof.
  induction before as [|a s IH]; simpl.
  - intros _. by rewrite decide_True.
  - destruct (decide (a = c)); [done|]. intros H. by rewrite IH.
Qed.

(** X16: [manageCollectibleImage] touches images of the one contract
    only, and cuts them at the first question mark.  For every other
    address the image comes back as it is.  For the address of Gods
    Unchained an image without a question mark comes back as it is, and an
    image that reads [before?after], with no question mark in [before],
    comes back as [before]; so the result holds no question mark and the
    image starts with it.  Applying the function twice gives what applying
    it once gives. *)
Theorem manageCollectibleImage_cuts_the_query (address image : string) :
  let result := manageCollectibleImage address image in
  (address ≠ "0x6EbeAf8e8E946F0716E6533A6f2cefc83f60e8Ab" → result = image)
  ∧ (address = "0x6EbeAf8e8E946F0716E6533A6f2cefc83f60e8Ab" →
     (includes "?" image = false → result = image)
     ∧ (∀ before after, includes "?" before = false →
          image = before +:+ String "?" after → result = before)
     ∧ includes "?" result = false)
  ∧ (∃ rest, image = result +:+ rest)
  ∧ manageCollectibleImage address result = result.
Proof.
  intros result. subst result. unfold manageCollectibleImage.
  destruct (decide (address = _)) as [Heq|Hne].
  - split; [done|]. split.
    { intros _. split; [apply firstPart_whole|]. split; [|apply firstPart_free].
      intros before after Hfree ->. by apply firstPart_split. }
    split; [apply firstPart_prefix|]. apply firstPart_whole, firstPart_free.
  - split; [done|]. split; [done|]. split; [|done]. exists "".
    clear. induction image as [|a s IH]; [done|].
    change (String a s = String a (s +:+ "")). by f_equal.
Qed.

Lemma lower_lower a : TokenRates.lower (TokenRates.lower a) = TokenRates.lower a.
Proof. destruct a as [[] [] [] [] [] [] [] []]; reflexivity. Qed.

Lemma toLowerCase_idemp s :
  TokenRates.toLowerCase (TokenRates.toLowerCase s) = TokenRates.toLowerCase s.
Proof. induction s as [|a s IH]; simpl; [done|]. by rewrite lower_lower, IH. Qed.

Lemma toLowerCase_nonempty s : s ≠ "" → TokenRates.toLowerCase s ≠ "".
Proof. by destruct s. Qed.

Section WithEthereumjsUtil.

Variable addHexPrefix : string -> string.
Variable isValidAddress : string -> bool.
Variable toLowerCase : string -> string.

Local Abbreviation normalizeTransaction := (normalizeTransaction addHexPrefix toLowerCase).
Local Abbreviation validateTransaction := (validateTransaction isValidAddress).

Lemma normalized_falsy f v : truthy v = false → normalized f v = None.
Proof. unfold normalized. destruct v; [by intros ->|done]. Qed.

Lemma normalized_truthy f s : s ≠ "" → normalized f (Some s) = Some (f s).
Proof.
  intros Hs. unfold normalized, truthy. by rewrite bool_decide_eq_false_2.
Qed.

Lemma normalized_again f v :
  (∀ s, s ≠ "" → f s ≠ "") → (∀ s, f (f s) = f s) →
  normalized f (normalized f v) = normalized f v.
Proof.
  intros Hne Hid. destruct v as [s|]; [|done].
  destruct (decide (s = "")) as [->|Hs]; [done|].
  rewrite normalized_truthy by done. rewrite normalized_truthy by (by apply Hne).
  by rewrite Hid.
Qed.

(** What [normalizeTransaction] makes of a key whose normalizer is [f]:
    a non-empty value is handed to [f], and the key is left out when the
    value is empty or [undefined]. *)
Definition keeps (f : string → string) (before after : option string) : Prop :=
  (truthy before = false → after = None)
  ∧ (∀ s, before = Some s → s ≠ "" → after = Some (f s)).

Lemma normalized_keeps f v : keeps f v (normalized f v).
Proof.
  split; [apply normalized_falsy|]. intros s -> Hs. by apply normalized_truthy.
Qed.

(** X17: [normalizeTransaction] keeps exactly the keys that have a
    non-empty value, except that [from] is always there, as the empty string
    when the transaction has none.  Every kept value of [data], [gas],
    [gasPrice], [nonce] and [value] is what [addHexPrefix] makes of it, and
    every kept [from] and [to] is the lower case of that.  When
    [addHexPrefix] and [toLowerCase] keep non-empty strings non-empty and
    are idempotent, and [addHexPrefix] leaves the lower case of what it has
    prefixed as it is, normalizing a normalized transaction changes
    nothing. *)
Theorem normalizeTransaction_is_stable (t : Transaction) :
  (∀ s, s ≠ "" → addHexPrefix s ≠ "") →
  (∀ s, s ≠ "" → toLowerCase s ≠ "") →
  (∀ s, addHexPrefix (addHexPrefix s) = addHexPrefix s) →
  (∀ s, toLowerCase (toLowerCase s) = toLowerCase s) →
  (∀ s, addHexPrefix (toLowerCase (addHexPrefix s)) = toLowerCase (addHexPrefix s)) →
  let n := normalizeTransaction t in
  let lowered s := toLowerCase (addHexPrefix s) in
  normalizeTransaction n = n
  ∧ keeps addHexPrefix (data t) (data n)
  ∧ keeps addHexPrefix (gas t) (gas n)
  ∧ keeps addHexPrefix (gasPrice t) (gasPrice n)
  ∧ keeps addHexPrefix (nonce t) (nonce n)
  ∧ keeps addHexPrefix (value t) (value n)
  ∧ keeps lowered (to t) (to n)
  ∧ (truthy (from t) = false → from n = Some "")
  ∧ (∀ s, from t = Some s → s ≠ "" → from n = Some (lowered s)).
Proof.
  intros Hne Hnel Hid Hidl Hlow n lowered.
  assert (Hne' : ∀ s, s ≠ "" → lowered s ≠ "") by (intros s Hs; by apply Hnel, Hne).
  assert (Hid' : ∀ s, lowered (lowered s) = lowered s)
    by (intros s; unfold lowered; by rewrite Hlow, Hidl).
  subst n. unfold Util.normalizeTransaction. fold lowered.
  cbn [data from gas gasPrice nonce to value].
  split; [|repeat (split; [apply normalized_keeps|]); split].
  - rewrite !(normalized_again addHexPrefix) by done.
    rewrite (normalized_again lowered) by done.
    f_equal. f_equal.
    destruct (from t) as [s|]; [|done].
    destruct (decide (s = "")) as [->|Hs]; [done|].
    rewrite (normalized_truthy _ s) by done. cbn [default].
    rewrite normalized_truthy by (by apply Hne'). cbn [default]. apply Hid'.
  - intros Hf. by rewrite normalized_falsy.
  - intros s -> Hs. by rewrite normalized_truthy.
Qed.

(** What [validateTransaction] asks of a transaction. *)
Definition wellFormed (t : Transaction) : Prop :=
  (∃ f, from t = Some f ∧ f ≠ "" ∧ isValidAddress f = true)
  ∧ match to t with
    | None => truthy (data t) = true
    | Some a => if decide (a = "0x") then truthy (data t) = true
                else isValidAddress a = true
    end
  ∧ (∀ v, value t = Some v → includes "-" v = false ∧ includes "." v = false).

(** Which transactions pass, and what is left alone. *)
Lemma validateTransaction_outcome (t : Transaction) :
  let t' := fst (validateTransaction t) in
  (snd (validateTransaction t) = Normal tt ↔ wellFormed t)
  ∧ (snd (validateTransaction t) = Normal tt ∨ ∃ e, snd (validateTransaction t) = Throw e)
  ∧ data t' = data t ∧ from t' = from t ∧ gas t' = gas t ∧ gasPrice t' = gasPrice t
  ∧ nonce t' = nonce t ∧ value t' = value t
  ∧ (to t' = to t ∨ (to t = Some "0x" ∧ truthy (data t) = true ∧ to t' = None)).
Proof.
  intros t'. subst t'. unfold Util.validateTransaction, wellFormed.
  destruct t as [d f g gp n a v]. cbn [data from gas gasPrice nonce to value].
  assert (Hfrom : truthy f = true ∧ isValidAddress (default "" f) = true
                  ↔ ∃ f0, f = Some f0 ∧ f0 ≠ "" ∧ isValidAddress f0 = true).
  { destruct f as [f0|]; cbn; [|split; [by intros [? _]|by intros (? & ? & _)]].
    destruct (decide (f0 = "")) as [->|Hf0].
    - split; [by intros [? _]|]. intros (? & [= <-] & ? & _). done.
    - rewrite bool_decide_eq_false_2 by done. cbn. split.
      + intros [_ Hv]. by exists f0.
      + intros (? & [= <-] & _ & Hv). done. }
  destruct (truthy f) eqn:Htf; cbn [negb orb];
    [destruct (isValidAddress (default "" f)) eqn:Hvf; cbn [negb]|];
    [|split; [split; [done|intros [Hc _]; apply Hfrom in Hc as [_ ?]; congruence]|];
      split; [right; by eexists|]; repeat split; by left
     |split; [split; [done|intros [Hc _]; apply Hfrom in Hc as [? _]; congruence]|];
      split; [right; by eexists|]; repeat split; by left].
  assert (Hf : ∃ f0, f = Some f0 ∧ f0 ≠ "" ∧ isValidAddress f0 = true) by (by apply Hfrom).
  clear Hfrom Htf Hvf.
  set (tx := mkTransaction d f g gp n a v).
  assert (Hto : ∃ t1 c,
    (if bool_decide (a = Some "0x") || bool_decide (a = None) then
       if truthy d then (delete_to tx, Normal tt)
       else (tx, Throw ("Invalid " +:+ quoted "to" +:+ " address: " +:+ shown a
                        +:+ " must be a valid string."))
     else if negb (isValidAddress (default "" a)) then
       (tx, Throw ("Invalid " +:+ quoted "to" +:+ " address: " +:+ shown a
                   +:+ " must be a valid string."))
     else (tx, Normal tt)) = (t1, c)
    ∧ (t1 = tx ∨ (a = Some "0x" ∧ truthy d = true ∧ t1 = delete_to tx))
    ∧ (c = Normal tt ∨ ∃ e, c = Throw e)
    ∧ (c = Normal tt ↔
       match a with
       | None => truthy d = true
       | Some a0 => if decide (a0 = "0x") then truthy d = true
                    else isValidAddress a0 = true
       end)).
  { destruct a as [a0|].
    - destruct (decide (a0 = "0x")) as [->|Ha0].
      + rewrite bool_decide_eq_true_2 by done. cbn [orb].
        destruct (truthy d); eexists _, _; (split; [reflexivity|]).
        * split; [by right|]. split; [by left|]. done.
        * split; [by left|]. split; [right; by eexists|]. done.
      + rewrite bool_decide_eq_false_2 by congruence.
        rewrite bool_decide_eq_false_2 by done. cbn [orb default from_option id].
        destruct (isValidAddress a0); eexists _, _; (split; [reflexivity|]).
        * split; [by left|]. split; [by left|]. done.
        * split; [by left|]. split; [right; by eexists|]. done.
    - rewrite bool_decide_eq_false_2 by done. rewrite bool_decide_eq_true_2 by done.
      cbn [orb]. destruct (truthy d); eexists _, _; (split; [reflexivity|]).
      * split; [left; reflexivity|]. split; [by left|]. done.
      * split; [by left|]. split; [right; by eexists|]. done. }
  destruct Hto as (t1 & c & -> & Ht1 & Hc & Hciff).
  assert (Hv1 : value t1 = v) by (destruct Ht1 as [->|(_ & _ & ->)]; reflexivity).
  assert (Hfields : data t1 = d ∧ from t1 = f ∧ gas t1 = g ∧ gasPrice t1 = gp
                    ∧ nonce t1 = n
                    ∧ (to t1 = a ∨ (a = Some "0x" ∧ truthy d = true ∧ to t1 = None))).
  { destruct Ht1 as [->|(Ha & Hd & ->)]; repeat split; (by left) || (by right). }
  destruct c as [[]|e].
  2:{ cbn [fst snd]. split; [split; [done|]|].
      - intros (_ & Hto & _). apply Hciff in Hto. done.
      - split; [right; by eexists|]. destruct Hfields as (? & ? & ? & ? & ? & ?).
        repeat split; done. }
  destruct (value t1) as [v0|] eqn:Hv0; subst v.
  - destruct (includes "-" v0) eqn:Hm; [|destruct (includes "." v0) eqn:Hp]; cbn [fst snd].
    + split; [split; [done|intros (_ & _ & Hv); destruct (Hv v0 eq_refl); congruence]|].
      split; [right; by eexists|]. destruct Hfields as (? & ? & ? & ? & ? & ?).
      repeat split; done.
    + split; [split; [done|intros (_ & _ & Hv); destruct (Hv v0 eq_refl); congruence]|].
      split; [right; by eexists|]. destruct Hfields as (? & ? & ? & ? & ? & ?).
      repeat split; done.
    + split; [split; [intros _|done]|].
      * split; [done|]. split; [by apply Hciff|]. by intros ? [= <-].
      * split; [by left|]. destruct Hfields as (? & ? & ? & ? & ? & ?).
        repeat split; done.
  - cbn [fst snd]. split; [split; [intros _|done]|].
    + split; [done|]. split; [by apply Hciff|]. by intros ? ?.
    + split; [by left|]. destruct Hfields as (? & ? & ? & ? & ? & ?).
      repeat split; done.
Qed.

(** Does [validateTransaction] get past its check of [from]? *)
Definition fromValid (t : Transaction) : bool :=
  truthy (from t) && isValidAddress (default "" (from t)).

(** What is thrown for a bad [from]. *)
Definition invalidFrom (t : Transaction) : Error :=
  "Invalid " +:+ quoted "from" +:+ " address: " +:+ shown (from t) +:+ " must be a valid string.".

Lemma validateTransaction_to (t : Transaction) :
  to (fst (validateTransaction t))
  = if fromValid t && bool_decide (to t = Some "0x") && truthy (data t)
    then None else to t.
Proof.
  unfold Util.validateTransaction, fromValid. destruct t as [d f g gp n a v].
  cbn [data from gas gasPrice nonce to value].
  destruct (truthy f); cbn [negb orb andb]; [|done].
  destruct (isValidAddress (default "" f)); cbn [negb andb]; [|done].
  destruct a as [a0|].
  - destruct (decide (a0 = "0x")) as [->|Ha0].
    + rewrite !bool_decide_eq_true_2 by done. cbn [orb andb].
      destruct (truthy d); cbn [delete_to value]; [|done].
      destruct v as [v0|]; [|done].
      by destruct (includes "-" v0), (includes "." v0).
    + rewrite !bool_decide_eq_false_2 by congruence. cbn [orb andb].
      destruct (negb (isValidAddress (default "" (Some a0)))); cbn [value]; [done|].
      destruct v as [v0|]; [|done].
      by destruct (includes "-" v0), (includes "." v0).
  - rewrite bool_decide_eq_false_2 by done. rewrite bool_decide_eq_true_2 by done.
    cbn [orb andb]. destruct (truthy d); cbn [delete_to value]; [|done].
    destruct v as [v0|]; [|done].
    by destruct (includes "-" v0), (includes "." v0).
Qed.

Lemma validateTransaction_from (t : Transaction) :
  fromValid t = false → validateTransaction t = (t, Throw (invalidFrom t)).
Proof.
  unfold Util.validateTransaction, fromValid, invalidFrom. intros Hf.
  destruct (truthy (from t)); cbn [negb orb andb] in *; [|done]. by rewrite Hf.
Qed.

(** X18: [validateTransaction] returns without an error exactly for the
    transactions whose [from] is a non-empty valid address, whose [to] is a
    valid address, or is missing or [0x] while there is [data], and whose
    [value], if any, has neither a minus sign nor a point.  It otherwise
    throws; for a bad [from] it throws the message that names [from] and
    leaves the transaction as it is.  It changes nothing in the transaction
    but [to], which it deletes exactly when [from] is good, [to] is [0x]
    and there is [data], whether or not [value] then passes. *)
Theorem validateTransaction_accepts_well_formed_only (t : Transaction) :
  let t' := fst (validateTransaction t) in
  (snd (validateTransaction t) = Normal tt ↔ wellFormed t)
  ∧ (snd (validateTransaction t) = Normal tt ∨ ∃ e, snd (validateTransaction t) = Throw e)
  ∧ (fromValid t = false → validateTransaction t = (t, Throw (invalidFrom t)))
  ∧ data t' = data t ∧ from t' = from t ∧ gas t' = gas t ∧ gasPrice t' = gasPrice t
  ∧ nonce t' = nonce t ∧ value t' = value t
  ∧ (fromValid t = true → to t = Some "0x" → truthy (data t) = true → to t' = None)
  ∧ (fromValid t = false ∨ to t ≠ Some "0x" ∨ truthy (data t) = false → to t' = to t).
Proof.
  intros t'.
  destruct (validateTransaction_outcome t)
    as (Hiff & Hor & Hd & Hf & Hg & Hgp & Hn & Hv & _).
  pose proof (validateTransaction_to t) as Hto. fold t' in Hto, Hd, Hf, Hg, Hgp, Hn, Hv.
  split; [exact Hiff|]. split; [exact Hor|].
  split; [apply validateTransaction_from|].
  split; [exact Hd|]. split; [exact Hf|]. split; [exact Hg|]. split; [exact Hgp|].
  split; [exact Hn|]. split; [exact Hv|]. split.
  - intros Hfrom Ha Hdata. rewrite Hto, Hfrom, Hdata.
    by rewrite bool_decide_eq_true_2.
  - intros Hcase. rewrite Hto.
    destruct Hcase as [Hfrom|[Ha|Hdata]].
    + by rewrite Hfrom.
    + rewrite bool_decide_eq_false_2 by done. by rewrite andb_false_r.
    + rewrite Hdata. by rewrite andb_false_r.
Qed.

End WithEthereumjsUtil.

(** A stand-in for [addHexPrefix] in examples. *)
Definition sampleAddHexPrefix (s : string) : string :=
  if bool_decide (String.substring 0 2 s = "0x") then s else "0x" +:+ s.

Lemma sampleAddHexPrefix_prefixed s : ∃ r, sampleAddHexPrefix s = "0x" +:+ r.
Proof.
  unfold sampleAddHexPrefix. case_bool_decide as H; [|by exists s].
  destruct s as [|a [|b r]]; [done|done|].
  cbn in H. injection H as -> -> _. by exists r.
Qed.

Lemma sampleAddHexPrefix_fixed r : sampleAddHexPrefix ("0x" +:+ r) = "0x" +:+ r.
Proof.
  unfold sampleAddHexPrefix. rewrite bool_decide_eq_true_2; [done|].
  cbn. by destruct r.
Qed.

Lemma normalizeTransaction_is_stable_witness :
  let t := {| data := Some ""; from := Some "AbC"; gas := Some "5208"; gasPrice := None;
              nonce := None; to := Some "0xDEF"; value := Some "10" |} in
  let n := Util.normalizeTransaction sampleAddHexPrefix TokenRates.toLowerCase t in
  Util.normalizeTransaction sampleAddHexPrefix TokenRates.toLowerCase n = n
  ∧ from n = Some "0xabc" ∧ to n = Some "0xdef" ∧ data n = None ∧ gas n = Some "0x5208".
Proof.
  split; [|by vm_compute].
  refine (proj1 (normalizeTransaction_is_stable sampleAddHexPrefix TokenRates.toLowerCase
            {| data := Some ""; from := Some "AbC"; gas := Some "5208"; gasPrice := None;
               nonce := None; to := Some "0xDEF"; value := Some "10" |} _ _ _ _ _)).
  - intros s _. destruct (sampleAddHexPrefix_prefixed s) as [r ->]. discriminate.
  - apply toLowerCase_nonempty.
  - intros s. destruct (sampleAddHexPrefix_prefixed s) as [r ->].
    apply sampleAddHexPrefix_fixed.
  - apply toLowerCase_idemp.
  - intros s. destruct (sampleAddHexPrefix_prefixed s) as [r ->].
    apply (sampleAddHexPrefix_fixed (TokenRates.toLowerCase r)).
Defined.

End UtilFacts.

(** ** Identities of PreferencesController *)
Module IdentitiesFacts.

Import Preferences Identities.

Local Open Scope string_scope.

Lemma accountName_inj n m : accountName n = accountName m → n = m.
Proof. unfold accountName. intros H. simplify_eq/=. by apply (inj pretty). Qed.

Lemma reduce_snoc {A B : Type} (f : B → A → nat → B) l : ∀ acc index x,
  reduce f acc index (l ++ [x]) = f (reduce f acc index l) x (index + length l)%nat.
Proof.
  induction l as [|a l IH]; intros acc index x; simpl.
  - by rewrite Nat.add_0_r.
  - rewrite IH. f_equal. lia.
Qed.

Section WithChecksum.

Variable toChecksumAddress : string -> string.

Local Abbreviation addIdentity := (addIdentity toChecksumAddress).
Local Abbreviation addIdentities := (addIdentities toChecksumAddress).
Local Abbreviation updateIdentities := (updateIdentities toChecksumAddress).
Local Abbreviation syncIdentities := (syncIdentities toChecksumAddress).

Lemma addIdentity_lookup cur a k :
  addIdentity cur a !! k
  = match cur !! k with
    | Some e => Some e
    | None => if decide (k = toChecksumAddress a)
              then Some {| e_name := accountName (size cur + 1); e_address := k |}
              else None
    end.
Proof.
  unfold Identities.addIdentity.
  destruct (cur !! toChecksumAddress a) as [e0|] eqn:Ha.
  - destruct (cur !! k) as [e|] eqn:Hk; [done|]. rewrite decide_False; [done|]. congruence.
  - destruct (decide (k = toChecksumAddress a)) as [->|Hne].
    + by rewrite lookup_insert_eq, Ha.
    + rewrite lookup_insert_ne by done. by destruct (cur !! k).
Qed.

Lemma addIdentity_size cur a :
  size (addIdentity cur a)
  = match cur !! toChecksumAddress a with Some _ => size cur | None => S (size cur) end.
Proof.
  unfold Identities.addIdentity.
  destruct (cur !! toChecksumAddress a) eqn:Ha; [done|]. by apply map_size_insert_None.
Qed.

(** What the loop of [addIdentities] makes of the identities [m]. *)
Lemma addIdentities_fold m l :
  let m' := foldl addIdentity m l in
  (∀ k e, m !! k = Some e → m' !! k = Some e)
  ∧ (∀ k, is_Some (m' !! k) ↔ is_Some (m !! k) ∨ k ∈ map toChecksumAddress l)
  ∧ (size m ≤ size m')%nat
  ∧ (∀ k e, m' !! k = Some e → m !! k = None →
       e_address e = k
       ∧ ∃ n, (size m < n ≤ size m')%nat ∧ e_name e = accountName n)
  ∧ (∀ k1 k2 e1 e2, m' !! k1 = Some e1 → m' !! k2 = Some e2 →
       m !! k1 = None → m !! k2 = None → e_name e1 = e_name e2 → k1 = k2).
Proof.
  induction l as [|a l IH] using rev_ind; intros m'; subst m'.
  - simpl. split; [done|]. split; [|split; [lia|split]].
    + intros k. split; [by left|]. intros [?|H]; [done|]. by apply elem_of_nil in H.
    + intros k e H1 H2. congruence.
    + intros k1 k2 e1 e2 H1 _ H2. congruence.
  - rewrite foldl_snoc, map_app. cbn [map].
    set (cur := foldl addIdentity m l) in *. cbv zeta in IH.
    destruct IH as (Hkeep & Hdom & Hsize & Hnew & Hdist).
    pose proof (addIdentity_size cur a) as Hsz.
    assert (Hsz' : (size cur ≤ size (addIdentity cur a) ≤ size cur + 1)%nat)
      by (destruct (cur !! toChecksumAddress a); lia).
    split; [|split; [|split; [lia|split]]].
    + intros k e Hk. rewrite addIdentity_lookup. by rewrite (Hkeep k e Hk).
    + intros k. rewrite addIdentity_lookup, elem_of_app, list_elem_of_singleton.
      destruct (cur !! k) as [e|] eqn:Hk.
      * split; [|by eexists]. intros _.
        destruct (proj1 (Hdom k)) as [?|?]; [by rewrite Hk; eexists|by left|by right; left].
      * destruct (decide (k = toChecksumAddress a)) as [->|Hne].
        -- split; [|by eexists]. intros _. right. by right.
        -- split; [by intros [? ?]|]. intros [Hm|[Hl|?]]; [| |done].
           ++ exfalso. assert (Hs : is_Some (cur !! k)) by (apply Hdom; by left).
              rewrite Hk in Hs. by destruct Hs.
           ++ exfalso. assert (Hs : is_Some (cur !! k)) by (apply Hdom; by right).
              rewrite Hk in Hs. by destruct Hs.
    + intros k e. rewrite addIdentity_lookup.
      destruct (cur !! k) as [e0|] eqn:Hk.
      * intros [= <-] Hm. destruct (Hnew k e0 Hk Hm) as (Ha & n & Hn & Hname).
        split; [done|]. exists n. split; [lia|done].
      * case_decide as Hka; [|done]. intros [= <-] Hm. split; [done|].
        exists (size cur + 1)%nat. subst k. rewrite Hk in Hsz. split; [lia|done].
    + intros k1 k2 e1 e2. rewrite !addIdentity_lookup.
      destruct (cur !! k1) as [c1|] eqn:Hk1; destruct (cur !! k2) as [c2|] eqn:Hk2.
      * intros [= <-] [= <-]. by apply Hdist.
      * case_decide as Hka; [|done]. intros [= <-] [= <-] Hm1 _. cbn [e_name].
        destruct (Hnew k1 c1 Hk1 Hm1) as (_ & n & Hn & ->).
        intros Heq. apply accountName_inj in Heq. lia.
      * case_decide as Hka; [|done]. intros [= <-] [= <-] _ Hm2. cbn [e_name].
        destruct (Hnew k2 c2 Hk2 Hm2) as (_ & n & Hn & ->).
        intros Heq. apply accountName_inj in Heq. lia.
      * case_decide; [|done]. case_decide; [|done]. congruence.
Qed.



(** What the [reduce] of [updateIdentities] makes of the checksummed
    addresses [cs], [old] being the identities stored. *)
Lemma updateIdentities_fold (old : gmap string ContactEntry) (cs : list string) :
  let m' := reduce (fun (ids : gmap string ContactEntry) address index =>
                      <[address := default {| e_name := accountName (index + 1);
                                              e_address := address |}
                                           (old !! address)]> ids) ∅ 0%nat cs in
  (∀ k, is_Some (m' !! k) ↔ k ∈ cs)
  ∧ (∀ k e, k ∈ cs → old !! k = Some e → m' !! k = Some e)
  ∧ (∀ k e, m' !! k = Some e → old !! k = None →
       e_address e = k
       ∧ ∃ i, cs !! i = Some k ∧ e_name e = accountName (i + 1)
              ∧ ∀ j, (i < j)%nat → cs !! j ≠ Some k).
Proof.
  induction cs as [|c cs IH] using rev_ind; intros m'; subst m'.
  - simpl. split; [|split].
    + intros k. rewrite lookup_empty. split; [by intros [? ?]|].
      intros H. by apply elem_of_nil in H.
    + intros k e H. by apply elem_of_nil in H.
    + intros k e. by rewrite lookup_empty.
  - rewrite reduce_snoc. cbn [Nat.add]. cbv zeta in IH.
    set (cur := reduce _ ∅ 0%nat cs) in *.
    destruct IH as (Hdom & Hold & Hnew).
    split; [|split].
    + intros k. rewrite lookup_insert, elem_of_app, list_elem_of_singleton.
      case_decide as Hk; [subst k; split; [by right|by eexists]|].
      rewrite Hdom. split; [by left|]. intros [?|?]; [done|congruence].
    + intros k e Hin Hk. rewrite lookup_insert. case_decide as Hc.
      * subst k. by rewrite Hk.
      * apply Hold; [|done]. apply elem_of_app in Hin as [?|Hin]; [done|].
        apply list_elem_of_singleton in Hin. congruence.
    + intros k e. rewrite lookup_insert. case_decide as Hc.
      * subst k. intros [= <-] Hk. rewrite Hk. cbn [default e_address e_name].
        split; [done|]. exists (length cs). split; [|split; [done|]].
        -- by rewrite lookup_app_r, Nat.sub_diag by lia.
        -- intros j Hj. rewrite lookup_ge_None_2; [done|].
           rewrite length_app. simpl. lia.
      * intros He Hk. destruct (Hnew k e He Hk) as (Ha & i & Hi & Hname & Hlast).
        split; [done|]. exists i. split; [|split; [done|]].
        -- by apply lookup_app_l_Some.
        -- intros j Hj. destruct (decide (j < length cs)%nat) as [Hlt|Hge].
           ++ rewrite lookup_app_l by done. by apply Hlast.
           ++ destruct (decide (j = length cs)) as [->|Hne].
              ** rewrite lookup_app_r, Nat.sub_diag by lia. simpl. congruence.
              ** rewrite lookup_ge_None_2; [done|]. rewrite length_app. simpl. lia.
Qed.

(** X20: [updateIdentities] makes the identities those of the given
    addresses.  Afterwards an address has an identity exactly when it is the
    checksummed form of a given address; where an identity was stored under
    that address its entry is kept with its name, and otherwise the entry
    carries the address and the name [Account i+1], i being the last index
    at which the address is given; identities of other addresses are
    dropped, and the other keys of the state are untouched. *)
Theorem updateIdentities_keeps_names_of_given_addresses
    (addresses : list string) (s : PreferencesState) :
  let cs := map toChecksumAddress addresses in
  let s' := updateIdentities addresses s in
  (∀ k, is_Some (identities s' !! k) ↔ k ∈ cs)
  ∧ (∀ k e, k ∈ cs → identities s !! k = Some e → identities s' !! k = Some e)
  ∧ (∀ k e, identities s' !! k = Some e → identities s !! k = None →
       e_address e = k
       ∧ ∃ i, cs !! i = Some k ∧ e_name e = accountName (i + 1)
              ∧ ∀ j, (i < j)%nat → cs !! j ≠ Some k)
  ∧ lostIdentities s' = lostIdentities s
  ∧ selectedAddress s' = selectedAddress s
  ∧ tokens s' = tokens s
  ∧ collectibles s' = collectibles s
  ∧ featureFlags s' = featureFlags s.
Proof.
  intros cs s'. subst s'. unfold Identities.updateIdentities. fold cs.
  cbn [identities lostIdentities selectedAddress tokens update_identities].
  destruct (updateIdentities_fold (identities s) cs) as (Hdom & Hold & Hnew).
  split; [exact Hdom|]. split; [exact Hold|]. split; [exact Hnew|]. done.
Qed.

(** X21: [syncIdentities] forgets no identity, and selects one of the
    given addresses whenever one is given.  When checksumming a checksummed
    address changes nothing, the call returns the selected address of the
    new state, in which: an address has an identity exactly when it is the
    checksummed form of a given address; an identity stored under a given
    address is kept; an identity stored under any other address is moved to
    the lost identities; a lost identity stays lost unless an identity
    moved now takes its place; the selected address is the old one when
    that is among the given addresses and the first given address
    otherwise.  With no address given, every identity is moved to the lost
    ones, none is left, and the selected address is [undefined]. *)
Theorem syncIdentities_moves_the_rest_to_lost
    (addresses : list string) (s : PreferencesState) :
  (∀ a, a ∈ addresses → toChecksumAddress (toChecksumAddress a) = toChecksumAddress a) →
  let cs := map toChecksumAddress addresses in
  let s' := fst (syncIdentities addresses s) in
  let selected := snd (syncIdentities addresses s) in
  selected = selectedAddress s'
  ∧ (∀ a, selectedAddress s = Some a → a ∈ cs → selected = Some a)
  ∧ ((∀ a, selectedAddress s = Some a → a ∉ cs) → selected = cs !! 0%nat)
  ∧ (addresses ≠ [] → ∃ a, selected = Some a ∧ a ∈ cs)
  ∧ (addresses = [] → selected = None ∧ identities s' = ∅)
  ∧ (∀ k, is_Some (identities s' !! k) ↔ k ∈ cs)
  ∧ (∀ k e, identities s !! k = Some e → k ∈ cs → identities s' !! k = Some e)
  ∧ (∀ k e, identities s !! k = Some e → k ∉ cs → lostIdentities s' !! k = Some e)
  ∧ (∀ k e, lostIdentities s !! k = Some e → identities s !! k = None ∨ k ∈ cs →
       lostIdentities s' !! k = Some e)
  ∧ tokens s' = tokens s
  ∧ collectibles s' = collectibles s
  ∧ featureFlags s' = featureFlags s.
Proof.
  intros Hidem cs.
  assert (Hcs : map toChecksumAddress cs = cs).
  { subst cs. induction addresses as [|a l IH]; [done|]. simpl.
    rewrite Hidem by (by left). f_equal. apply IH. intros b Hb. apply Hidem. by right. }
  set (kept := filter (fun entry : string * ContactEntry => entry.1 ∈ cs) (identities s)).
  set (newlyLost := filter (fun entry : string * ContactEntry => entry.1 ∉ cs) (identities s)).
  set (s2 := addIdentities cs (update_both kept (newlyLost ∪ lostIdentities s) s)).
  destruct (addIdentities_fold kept cs) as (Hkeep & Hdom & _).
  rewrite Hcs in Hdom.
  assert (Hids : ∀ k, is_Some (identities s2 !! k) ↔ k ∈ cs).
  { intros k. subst s2. cbn. rewrite Hdom. split; [|by right].
    intros [[e He]|?]; [|done]. by apply map_lookup_filter_Some in He as [_ ?]. }
  assert (Hkept : ∀ k e, identities s !! k = Some e → k ∈ cs → identities s2 !! k = Some e).
  { intros k e He Hk. subst s2. cbn. apply Hkeep. by apply map_lookup_filter_Some. }
  assert (Hlost : ∀ k e, identities s !! k = Some e → k ∉ cs →
                         lostIdentities s2 !! k = Some e).
  { intros k e He Hk. subst s2. cbn. apply lookup_union_Some_raw. left.
    by apply map_lookup_filter_Some. }
  assert (Hstay : ∀ k e, lostIdentities s !! k = Some e → identities s !! k = None ∨ k ∈ cs →
                         lostIdentities s2 !! k = Some e).
  { intros k e He Hk. subst s2. cbn. apply lookup_union_Some_raw. right. split; [|done].
    apply map_lookup_filter_None. destruct Hk as [Hk|Hk]; [by left|].
    right. intros e' _ Hn. by apply Hn. }
  assert (Hsel2 : selectedAddress s2 = selectedAddress s) by done.
  assert (Hempty : addresses = [] → identities s2 = ∅).
  { intros Hnil. apply map_eq. intros k. rewrite lookup_empty.
    destruct (identities s2 !! k) as [e|] eqn:Hk; [|done].
    assert (Hin : k ∈ cs) by (apply Hids; by eexists).
    subst cs. rewrite Hnil in Hin. by apply elem_of_nil in Hin. }
  assert (Hhead : addresses ≠ [] → ∃ a, cs !! 0%nat = Some a ∧ a ∈ cs).
  { intros Hne. subst cs. destruct addresses as [|a l]; [done|].
    exists (toChecksumAddress a). split; [done|]. by left. }
  unfold Identities.syncIdentities. fold cs. fold kept. fold newlyLost. fold s2.
  rewrite Hsel2.
  destruct (selectedAddress s) as [old|] eqn:Hold; [case_bool_decide as Hin|]; cbn [fst snd].
  - split; [done|]. split; [intros a [= <-] _; by rewrite Hsel2|].
    split; [intros Hout; by destruct (Hout old eq_refl)|].
    split; [intros _; exists old; by rewrite Hsel2|].
    split.
    { intros Hnil. exfalso. subst cs. rewrite Hnil in Hin. by apply elem_of_nil in Hin. }
    split; [exact Hids|]. split; [exact Hkept|]. split; [exact Hlost|]. split; [exact Hstay|].
    done.
  - split; [done|]. split; [intros a [= <-] Ha; done|]. split; [done|].
    split; [intros Hne; destruct (Hhead Hne) as (a & Ha & Hin'); exists a; by cbn|].
    split.
    { intros Hnil. split; [subst cs; by rewrite Hnil|by apply Hempty]. }
    split; [exact Hids|]. split; [exact Hkept|]. split; [exact Hlost|]. split; [exact Hstay|].
    done.
  - split; [done|]. split; [done|]. split; [done|].
    split; [intros Hne; destruct (Hhead Hne) as (a & Ha & Hin'); exists a; by cbn|].
    split.
    { intros Hnil. split; [subst cs; by rewrite Hnil|by apply Hempty]. }
    split; [exact Hids|]. split; [exact Hkept|]. split; [exact Hlost|]. split; [exact Hstay|].
    done.
Qed.

End WithChecksum.

Definition sampleIdentities : PreferencesState :=
  mkPreferencesState [] ∅
    {[ "0xaa" := {| e_name := "Savings"; e_address := "0xaa" |};
       "0xbb" := {| e_name := "Account 2"; e_address := "0xbb" |} ]}
    ∅ (Some "0xbb") [].

Lemma syncIdentities_moves_the_rest_to_lost_witness :
  let s' := fst (Identities.syncIdentities TokenRates.toLowerCase ["0xAA"; "0xcc"]
                   sampleIdentities) in
  selectedAddress s' = Some "0xaa"
  ∧ identities s' !! "0xaa" = Some {| e_name := "Savings"; e_address := "0xaa" |}
  ∧ lostIdentities s' !! "0xbb" = Some {| e_name := "Account 2"; e_address := "0xbb" |}
  ∧ is_Some (identities s' !! "0xcc")
  ∧ snd (Identities.syncIdentities TokenRates.toLowerCase [] sampleIdentities) = None.
Proof.
  destruct (syncIdentities_moves_the_rest_to_lost TokenRates.toLowerCase
              ["0xAA"; "0xcc"] sampleIdentities)
    as (Hsel & _ & Hfirst & _ & _ & Hdom & Hkept & Hlost & _).
  { intros a _. apply UtilFacts.toLowerCase_idemp. }
  cbv zeta.
  assert (Hbb : "0xbb" ∉ map TokenRates.toLowerCase ["0xAA"; "0xcc"]).
  { intros H. apply list_elem_of_In in H. vm_compute in H.
    destruct H as [H|[H|[]]]; discriminate H. }
  split; [|split; [|split; [|split]]].
  - rewrite <- Hsel. rewrite Hfirst; [reflexivity|]. intros a [= <-]. exact Hbb.
  - apply Hkept; [reflexivity|]. apply list_elem_of_In. vm_compute. by left.
  - apply Hlost; [reflexivity|exact Hbb].
  - apply Hdom. apply list_elem_of_In. vm_compute. right. by left.
  - vm_compute. reflexivity.
Defined.

End IdentitiesFacts.
